(** * MuNG notation graph and inference engines: a shallow embedding

    The development follows the Python sources of the repository:

    - [mung/constants.py]       class-name vocabulary and lookup tables;
    - [mung/graph.py]           [NotationGraph]: traversal and edge mutators;
    - [mung2midi/inference/pitch_inference.py]   [PitchInferenceEngineState];
    - [mung2midi/inference/onsets_inference.py]  duration modifiers, time
      signatures, onset propagation and tie processing.

    Python integers are [Z], [Fraction]s are [Q] (compared with [==]),
    Python [dict]s whose iteration order is observable are insertion-ordered
    association lists, the id index of a graph is a [gmap], and a raised
    exception is a value of type [exn]. *)

From Stdlib Require Import ZArith QArith Qpower Qminmax List String Lia Permutation.
From stdpp Require Import gmap strings list.

Local Open Scope string_scope.
Local Open Scope list_scope.
Local Open Scope Z_scope.

(** ** Python values shared by all modules *)

Module Py.

(** The exception classes the modelled code can raise. *)
Inductive exn : Type :=
| TypeError
| ValueError
| KeyError
| IndexError
| AttributeError
| NotImplementedError
| ZeroDivisionError
| NotationGraphError.

Inductive result (A : Type) : Type :=
| Ok (a : A)
| Raise (e : exn).
Arguments Ok {A} a.
Arguments Raise {A} e.

Definition bind {A B} (r : result A) (k : A -> result B) : result B :=
  match r with
  | Ok a => k a
  | Raise e => Raise e
  end.

Definition is_ok {A} (r : result A) : bool :=
  match r with Ok _ => true | Raise _ => false end.

(** [x in xs] for a list of strings (class-name filters). *)
Definition str_in (s : string) (l : list string) : bool :=
  existsb (String.eqb s) l.

(** [x in xs] for a list of ids. *)
Definition z_in (x : Z) (l : list Z) : bool := existsb (Z.eqb x) l.

(** [xs.remove(x)]: drops the first occurrence; Python raises
    [ValueError] when there is none. *)
Fixpoint list_remove (x : Z) (l : list Z) : option (list Z) :=
  match l with
  | [] => None
  | y :: t => if Z.eqb x y then Some t
              else match list_remove x t with
                   | Some t' => Some (y :: t')
                   | None => None
                   end
  end.

(** An insertion-ordered [dict]: keys are unique, a new key goes last,
    an existing key keeps its place. *)
Section Dict.
Context {V : Type}.

Definition dict := list (Z * V).

Fixpoint dict_get (k : Z) (d : dict) : option V :=
  match d with
  | [] => None
  | (k', v) :: t => if Z.eqb k k' then Some v else dict_get k t
  end.

Definition dict_mem (k : Z) (d : dict) : bool :=
  match dict_get k d with Some _ => true | None => false end.

Fixpoint dict_set (k : Z) (v : V) (d : dict) : dict :=
  match d with
  | [] => [(k, v)]
  | (k', v') :: t =>
      if Z.eqb k k' then (k, v) :: t else (k', v') :: dict_set k v t
  end.

Fixpoint dict_del (k : Z) (d : dict) : dict :=
  match d with
  | [] => []
  | (k', v') :: t => if Z.eqb k k' then t else (k', v') :: dict_del k t
  end.

Definition dict_keys (d : dict) : list Z := map fst d.

(** [{f(k): v for k, v in d.items()}]: later items win on a clash. *)
Definition dict_rekey (f : Z -> Z) (d : dict) : dict :=
  fold_left (fun acc kv => dict_set (f (fst kv)) (snd kv) acc) d [].
End Dict.
Arguments dict V : clear implicits.

(** Code that works on mutable objects: a computation takes the state
    of the objects and returns its outcome together with the state as
    it leaves it, also when it raises. *)
Definition SE (S A : Type) : Type := S -> result A * S.

Definition ret {S A} (a : A) : SE S A := fun s => (Ok a, s).
Definition raise {S A} (e : exn) : SE S A := fun s => (Raise e, s).
Definition lift {S A} (r : result A) : SE S A := fun s => (r, s).
Definition bindS {S A B} (m : SE S A) (k : A -> SE S B) : SE S B :=
  fun s => match m s with
           | (Ok a, s') => k a s'
           | (Raise e, s') => (Raise e, s')
           end.

(** [for x in xs: body(x)] *)
Fixpoint for_each {S A} (xs : list A) (body : A -> SE S unit) : SE S unit :=
  match xs with
  | [] => ret tt
  | x :: t => bindS (body x) (fun _ => for_each t body)
  end.

(** [post m s Q]: running [m] from [s] ends, by a return or by an
    exception, in an outcome and a state that satisfy [Q]. *)
Definition post {S A} (m : SE S A) (s : S) (Q : result A -> S -> Prop)
  : Prop :=
  Q (fst (m s)) (snd (m s)).

End Py.

Notation "'let*' x ':=' c1 'in' c2" := (Py.bind c1 (fun x => c2))
  (at level 10, x name, c1 at level 100, c2 at level 200).
Notation "'do' x '<-' c1 ';' c2" := (Py.bindS c1 (fun x => c2))
  (at level 10, x name, c1 at level 100, c2 at level 200).
Notation "c1 ';;' c2" := (Py.bindS c1 (fun _ => c2))
  (at level 100, c2 at level 200, right associativity).

(** ** [mung/constants.py] *)

Module Const.

Definition STAFF_GROUPING := "staffGrouping".
Definition MEASURE_SEPARATOR := "measureSeparator".
Definition KEY_SIGNATURE := "keySignature".
Definition TIME_SIGNATURE := "timeSignature".
Definition STAFFLINE := "staffLine".
Definition STAFFSPACE := "staffSpace".
Definition STAFF := "staff".
Definition LEGER_LINE := "legerLine".
Definition STEM := "stem".
Definition TIE_CLASS_NAME := "tie".
Definition G_CLEF := "gClef".
Definition C_CLEF := "cClef".
Definition F_CLEF := "fClef".
Definition NOTEHEAD_FULL := "noteheadFull".
Definition NOTEHEAD_HALF := "noteheadHalf".
Definition NOTEHEAD_WHOLE := "noteheadWhole".
Definition TIME_SIG_COMMON := "timeSigCommon".
Definition TIME_SIG_CUT_COMMON := "timeSigCutCommon".
Definition LETTER_OTHER := "characterOther".

Definition PrecedenceInlinks := "precedence_inlinks".
Definition PrecedenceOutlinks := "precedence_outlinks".

(** [ClassNamesConstants.Numerals]: the enum values, in digit order. *)
Definition numeral_to_digit : list (string * Z) :=
  [("numeral0", 0); ("numeral1", 1); ("numeral2", 2); ("numeral3", 3);
   ("numeral4", 4); ("numeral5", 5); ("numeral6", 6); ("numeral7", 7);
   ("numeral8", 8); ("numeral9", 9)].

Definition NUMERALS : list string := map fst numeral_to_digit.

Definition TIME_SIGNATURE_MEMBERS : list string :=
  TIME_SIG_COMMON :: TIME_SIG_CUT_COMMON :: NUMERALS.


Definition NONGRACE_NOTEHEAD_CLASS_NAMES : list string :=
  [NOTEHEAD_FULL; NOTEHEAD_HALF; NOTEHEAD_WHOLE].

Fixpoint digit_of (name : string) (tbl : list (string * Z)) : option Z :=
  match tbl with
  | [] => None
  | (n, d) :: t => if String.eqb name n then Some d else digit_of name t
  end.

(** [Numerals.interpret] on a list of names: [None] on the empty list
    and on any name that is not a numeral, else the base-10 reading. *)
Fixpoint interpret_loop (numeral_list : list string) (result : Z)
  : option Z :=
  match numeral_list with
  | [] => Some result
  | numeral :: t =>
      match digit_of numeral numeral_to_digit with
      | None => None
      | Some current_num => interpret_loop t (result * 10 + current_num)
      end
  end.

Definition interpret (numeral_list : list string) : option Z :=
  match numeral_list with
  | [] => None
  | _ => interpret_loop numeral_list 0
  end.

(** [InferenceEngineConstants.CLEF_CHANGE_DELTA], FROM clef, TO clef. *)
Definition CLEF_CHANGE_DELTA (from to : string) : option Z :=
  if String.eqb from G_CLEF then
    if String.eqb to G_CLEF then Some 0
    else if String.eqb to C_CLEF then Some 6
    else if String.eqb to F_CLEF then Some 12 else None
  else if String.eqb from C_CLEF then
    if String.eqb to G_CLEF then Some (-6)
    else if String.eqb to C_CLEF then Some 0
    else if String.eqb to F_CLEF then Some 6 else None
  else if String.eqb from F_CLEF then
    if String.eqb to G_CLEF then Some (-12)
    else if String.eqb to C_CLEF then Some (-6)
    else if String.eqb to F_CLEF then Some 0 else None
  else None.

(** [from in CLEF_CHANGE_DELTA]: the keys of the outer table. *)
Definition CLEF_CHANGE_DELTA_has (from : string) : bool :=
  String.eqb from G_CLEF || String.eqb from C_CLEF || String.eqb from F_CLEF.

End Const.

(** ** The symbol node

    [mung.node.Node] itself is outside the sources at hand; the record
    carries the attributes the modelled functions read or write: identity,
    class name, bounding box, the attachment link lists, and the two
    precedence lists of the [data] map, each of which may be absent. *)

Record Node : Type := mkNode {
  node_id : Z;
  class_name : string;
  top : Z;
  left : Z;
  bottom : Z;
  right : Z;
  inlinks : list Z;
  outlinks : list Z;
  data_precedence_inlinks : option (list Z);
  data_precedence_outlinks : option (list Z)
}.

(** ** [PitchInferenceEngineState] *)

Module Pitch.
Import Py.

Record PitchInferenceEngineState : Type := mkState {
  base_pitch : option Z;
  base_pitch_step : option Z;
  base_pitch_octave : option Z;
  current_clef : option Node;
  current_delta_steps : option (list Z);
  current_clef_delta_shift : Z;
  key_accidentals : dict string;
  inline_accidentals : dict string
}.

(** [__init__] *)
Definition init : PitchInferenceEngineState :=
  {| base_pitch := None; base_pitch_step := None;
     base_pitch_octave := None; current_clef := None;
     current_delta_steps := None; current_clef_delta_shift := 0;
     key_accidentals := []; inline_accidentals := [] |}.

Definition reset (s : PitchInferenceEngineState)
  : PitchInferenceEngineState :=
  {| base_pitch := None; base_pitch_step := base_pitch_step s;
     base_pitch_octave := base_pitch_octave s; current_clef := None;
     current_delta_steps := None;
     current_clef_delta_shift := current_clef_delta_shift s;
     key_accidentals := []; inline_accidentals := [] |}.

(** The clef table of [init_base_pitch_default_staffline]:
    base pitch, delta steps, base step, base octave. *)
Definition clef_table (clef : option Node)
  : result (Z * list Z * Z * Z) :=
  match clef with
  | None => Ok (71, [0; 1; 2; 2; 1; 2; 2; 2], 6, 4)
  | Some c =>
      if String.eqb (class_name c) Const.G_CLEF
      then Ok (71, [0; 1; 2; 2; 1; 2; 2; 2], 6, 4)
      else if String.eqb (class_name c) Const.F_CLEF
      then Ok (50, [0; 2; 1; 2; 2; 2; 1; 2], 1, 3)
      else if String.eqb (class_name c) Const.C_CLEF
      then Ok (60, [0; 2; 2; 1; 2; 2; 2; 1], 0, 4)
      else Raise ValueError
  end.

Definition init_base_pitch_default_staffline
    (s : PitchInferenceEngineState) (clef : option Node)
  : result PitchInferenceEngineState :=
  let* tbl := clef_table clef in
  let '(new_base_pitch, new_delta_steps, new_base_pitch_step,
        new_base_pitch_octave) := tbl in
  let* accs :=
    match current_clef s with
    | None => Ok (key_accidentals s, inline_accidentals s)
    | Some old =>
        match clef with
        | None =>
            (* the row of the old clef is looked up first, then
               [clef.class_name] is read *)
            if Const.CLEF_CHANGE_DELTA_has (class_name old)
            then Raise AttributeError else Raise KeyError
        | Some c =>
            match Const.CLEF_CHANGE_DELTA (class_name old) (class_name c) with
            | None => Raise KeyError
            | Some transposition_delta =>
                if Z.eqb transposition_delta 0
                then Ok (key_accidentals s, inline_accidentals s)
                else Ok (dict_rekey (fun d => (d + transposition_delta) mod 7)
                                    (key_accidentals s),
                         dict_rekey (fun d => d + transposition_delta)
                                    (inline_accidentals s))
            end
        end
    end in
  Ok {| base_pitch := Some new_base_pitch;
        base_pitch_step := Some new_base_pitch_step;
        base_pitch_octave := Some new_base_pitch_octave;
        current_clef := clef;
        current_delta_steps := Some new_delta_steps;
        current_clef_delta_shift := current_clef_delta_shift s;
        key_accidentals := fst accs;
        inline_accidentals := snd accs |}.

Definition set_shift (s : PitchInferenceEngineState) (d : Z)
  : PitchInferenceEngineState :=
  {| base_pitch := base_pitch s; base_pitch_step := base_pitch_step s;
     base_pitch_octave := base_pitch_octave s;
     current_clef := current_clef s;
     current_delta_steps := current_delta_steps s;
     current_clef_delta_shift := d;
     key_accidentals := key_accidentals s;
     inline_accidentals := inline_accidentals s |}.

(** [init_base_pitch(clef=None, delta=0)] *)
Definition init_base_pitch (s : PitchInferenceEngineState)
    (clef : option Node) (delta : Z) : result PitchInferenceEngineState :=
  let* s' := init_base_pitch_default_staffline s clef in
  Ok (set_shift s' (-1 * delta)).

Definition with_key_accidentals (s : PitchInferenceEngineState)
    (k : dict string) : PitchInferenceEngineState :=
  {| base_pitch := base_pitch s; base_pitch_step := base_pitch_step s;
     base_pitch_octave := base_pitch_octave s;
     current_clef := current_clef s;
     current_delta_steps := current_delta_steps s;
     current_clef_delta_shift := current_clef_delta_shift s;
     key_accidentals := k;
     inline_accidentals := inline_accidentals s |}.

Definition with_inline_accidentals (s : PitchInferenceEngineState)
    (k : dict string) : PitchInferenceEngineState :=
  {| base_pitch := base_pitch s; base_pitch_step := base_pitch_step s;
     base_pitch_octave := base_pitch_octave s;
     current_clef := current_clef s;
     current_delta_steps := current_delta_steps s;
     current_clef_delta_shift := current_clef_delta_shift s;
     key_accidentals := key_accidentals s;
     inline_accidentals := k |}.

(** The circle-of-fifths orderings of [set_key], per clef. *)
Definition key_deltas (clef : option Node) : result (list Z * list Z) :=
  match clef with
  | None => Ok ([4; 1; 5; 2; 6; 3; 0], [0; 3; 6; 2; 5; 1; 4])
  | Some c =>
      if String.eqb (class_name c) Const.G_CLEF
      then Ok ([4; 1; 5; 2; 6; 3; 0], [0; 3; 6; 2; 5; 1; 4])
      else if String.eqb (class_name c) Const.C_CLEF
      then Ok ([3; 0; 4; 1; 5; 2; 6], [6; 2; 5; 1; 4; 0; 3])
      else if String.eqb (class_name c) Const.F_CLEF
      then Ok ([2; 6; 3; 0; 4; 1; 5], [5; 1; 4; 0; 3; 6; 2])
      else Raise ValueError
  end.

(** Python's [xs[:n]]: a negative [n] counts from the end. *)
Definition slice_to {A} (n : Z) (l : list A) : list A :=
  if n <? 0 then firstn (Z.to_nat (Z.of_nat (List.length l) + n)) l
  else firstn (Z.to_nat n) l.

Definition set_key (s : PitchInferenceEngineState)
    (number_of_sharps number_of_flats : Z)
  : result PitchInferenceEngineState :=
  if number_of_flats + number_of_sharps >? 7 then Raise ValueError
  else match base_pitch s with
       | None => Raise ValueError
       | Some _ =>
           let* ds := key_deltas (current_clef s) in
           let '(deltas_sharp, deltas_flat) := ds in
           let k1 := fold_left (fun acc d => dict_set d "sharp" acc)
                       (slice_to number_of_sharps deltas_sharp) [] in
           let k2 := fold_left (fun acc d => dict_set d "flat" acc)
                       (slice_to number_of_flats deltas_flat) k1 in
           Ok (with_key_accidentals s k2)
       end.

(** [set_inline_accidental(delta, accidental)] stores the accidental
    node's class name. *)
Definition set_inline_accidental (s : PitchInferenceEngineState)
    (delta : Z) (accidental : Node) : PitchInferenceEngineState :=
  with_inline_accidentals s
    (dict_set delta (class_name accidental) (inline_accidentals s)).

Definition reset_inline_accidentals (s : PitchInferenceEngineState)
  : PitchInferenceEngineState :=
  with_inline_accidentals s [].

Definition accidental (s : PitchInferenceEngineState) (delta : Z) : Z :=
  let step_delta := delta mod 7 in
  let pitch_mod :=
    match dict_get step_delta (key_accidentals s) with
    | Some a =>
        if String.eqb a "sharp" then 1
        else if String.eqb a "double_sharp" then 2
        else if String.eqb a "flat" then -1
        else if String.eqb a "double_flat" then -2
        else 0
    | None => 0
    end in
  match dict_get delta (inline_accidentals s) with
  | Some a =>
      if String.eqb a "natural" then 0
      else if String.eqb a "sharp" then 1
      else if String.eqb a "double_sharp" then 2
      else if String.eqb a "flat" then -1
      else if String.eqb a "double_flat" then -2
      else pitch_mod
  | None => pitch_mod
  end.

Definition sum_Z (l : list Z) : Z := fold_left Z.add l 0.

(** [pitch(delta)]; an uninitialised state makes the arithmetic on
    [None] raise [TypeError]. *)
Definition pitch (s : PitchInferenceEngineState) (delta : Z) : result Z :=
  let delta := delta + current_clef_delta_shift s in
  let delta_step := delta mod 7 in
  let delta_octave := delta / 7 in
  match base_pitch s, current_delta_steps s with
  | Some bp, Some steps =>
      let step_pitch :=
        bp + sum_Z (slice_to (delta_step + 1) steps) + delta_octave * 12 in
      let accidental_pitch := accidental s delta in
      Ok (step_pitch + accidental_pitch)
  | _, _ => Raise TypeError
  end.

End Pitch.

(** ** [NotationGraph] *)

Module Graph.
Import Py.

(** In-place updates of one attribute of a node object. *)
Definition with_inlinks (n : Node) (l : list Z) : Node :=
  mkNode (node_id n) (class_name n) (top n) (left n) (bottom n) (right n)
         l (outlinks n)
         (data_precedence_inlinks n) (data_precedence_outlinks n).

Definition with_outlinks (n : Node) (l : list Z) : Node :=
  mkNode (node_id n) (class_name n) (top n) (left n) (bottom n) (right n)
         (inlinks n) l
         (data_precedence_inlinks n) (data_precedence_outlinks n).

Definition with_precedence_inlinks (n : Node) (l : option (list Z)) : Node :=
  mkNode (node_id n) (class_name n) (top n) (left n) (bottom n) (right n)
         (inlinks n) (outlinks n) l (data_precedence_outlinks n).

Definition with_precedence_outlinks (n : Node) (l : option (list Z)) : Node :=
  mkNode (node_id n) (class_name n) (top n) (left n) (bottom n) (right n)
         (inlinks n) (outlinks n) (data_precedence_inlinks n) l.

(** Modelled from the spec: the [precedence_inlinks] and
    [precedence_outlinks] properties of [mung.node.Node] and its
    [add_precedence_inlinks] / [add_precedence_outlinks] methods, which
    are not among the sources.  The attribute map "may hold" the two
    lists: the property reads the stored list (no links when the key is
    absent) and the [add_] method appends to it, creating it first when
    it is absent. *)
Definition precedence_inlinks (n : Node) : list Z :=
  match data_precedence_inlinks n with Some l => l | None => [] end.

Definition precedence_outlinks (n : Node) : list Z :=
  match data_precedence_outlinks n with Some l => l | None => [] end.

Definition add_precedence_inlinks (n : Node) (i : Z) : Node :=
  with_precedence_inlinks n (Some (precedence_inlinks n ++ [i])).

Definition add_precedence_outlinks (n : Node) (i : Z) : Node :=
  with_precedence_outlinks n (Some (precedence_outlinks n ++ [i])).

(** The graph object: the vertex list [__nodes] (by id, in list order)
    and the index [__id_to_node_mapping]; both refer to the same node
    objects, which live in the index. *)
Record NotationGraph : Type := mkGraph {
  nodes : list Z;
  id_to_node_mapping : gmap Z Node
}.

(** [NotationGraph(nodes)]: the index is [{node.id: node for node in nodes}]. *)
Definition make (ns : list Node) : NotationGraph :=
  {| nodes := map node_id ns;
     id_to_node_mapping :=
       fold_left (fun m n => <[node_id n := n]> m) ns ∅ |}.

Definition getitem (g : NotationGraph) (i : Z) : result Node :=
  match id_to_node_mapping g !! i with
  | Some n => Ok n
  | None => Raise KeyError
  end.

Definition contains (g : NotationGraph) (i : Z) : bool :=
  match id_to_node_mapping g !! i with Some _ => true | None => false end.

Definition passes (class_filter : option (list string)) (n : Node) : bool :=
  match class_filter with
  | None => true
  | Some f => str_in (class_name n) f
  end.

(** The loop shared by [children] and [parents]: ids outside the index
    are skipped, the class filter is applied to the rest. *)
Fixpoint collect (g : NotationGraph) (class_filter : option (list string))
    (ids : list Z) : list Node :=
  match ids with
  | [] => []
  | i :: t =>
      match id_to_node_mapping g !! i with
      | Some n =>
          if passes class_filter n then n :: collect g class_filter t
          else collect g class_filter t
      | None => collect g class_filter t
      end
  end.

(** [children]: for an id outside the graph, formatting the message of
    the intended [ValueError] indexes the mapping and raises [KeyError]. *)
Definition children (g : NotationGraph) (i : Z)
    (class_filter : option (list string)) : result (list Node) :=
  match id_to_node_mapping g !! i with
  | None => Raise KeyError
  | Some parent => Ok (collect g class_filter (outlinks parent))
  end.

Definition parents (g : NotationGraph) (i : Z)
    (class_filter : option (list string)) : result (list Node) :=
  match id_to_node_mapping g !! i with
  | None => Raise KeyError
  | Some child => Ok (collect g class_filter (inlinks child))
  end.

(** The work queue of [descendants] is a [queue.Queue] and the test is
    [child_id not in queue]: [Queue] defines none of [__contains__],
    [__iter__], [__getitem__], so the test raises [TypeError]. *)
Definition in_Queue (x : Z) (queue : list Z) : result bool :=
  Raise TypeError.

(** The test of [ancestors] is [parent_id not in queue.queue], on the
    underlying deque: membership among the pending elements. *)
Definition in_Queue_queue (x : Z) (queue : list Z) : result bool :=
  Ok (z_in x queue).

(** [for x in ids: if x not in queue: queue.put(x)] *)
Fixpoint put_new (test : Z -> list Z -> result bool) (ids : list Z)
    (queue : list Z) : result (list Z) :=
  match ids with
  | [] => Ok queue
  | x :: t =>
      let* b := test x queue in
      put_new test t (if b then queue else queue ++ [x])
  end.

(** The [while not queue.empty()] loop of [descendants] / [ancestors];
    [None] when the fuel does not suffice. *)
Fixpoint closure_loop (fuel : nat)
    (neighbours : Z -> result (list Node))
    (test : Z -> list Z -> result bool)
    (start : Z) (queue : list Z) (found : list Z)
  : option (result (list Z)) :=
  match fuel with
  | O => None
  | S fuel' =>
      match queue with
      | [] => Some (Ok found)
      | current :: rest =>
          let found' :=
            if Z.eqb current start then found else found ++ [current] in
          match neighbours current with
          | Raise e => Some (Raise e)
          | Ok ns =>
              match put_new test (map node_id ns) rest with
              | Raise e => Some (Raise e)
              | Ok queue' =>
                  closure_loop fuel' neighbours test start queue' found'
              end
          end
      end
  end.

(** [[self.__id_to_node_mapping[o] for o in ids]] *)
Fixpoint lookup_all (g : NotationGraph) (ids : list Z) : result (list Node) :=
  match ids with
  | [] => Ok []
  | i :: t =>
      let* n := getitem g i in
      let* ns := lookup_all g t in
      Ok (n :: ns)
  end.

Definition descendants (fuel : nat) (g : NotationGraph) (i : Z)
    (class_filter : option (list string)) : option (result (list Node)) :=
  match closure_loop fuel (fun c => children g c class_filter)
                     in_Queue i [i] [] with
  | None => None
  | Some r => Some (let* ids := r in lookup_all g ids)
  end.

Definition ancestors (fuel : nat) (g : NotationGraph) (i : Z)
    (class_filter : option (list string)) : option (result (list Node)) :=
  match closure_loop fuel (fun c => parents g c class_filter)
                     in_Queue_queue i [i] [] with
  | None => None
  | Some r => Some (let* ids := r in lookup_all g ids)
  end.

(** *** Mutators

    A mutator runs on the graph object and may raise after it has
    already changed it, so it returns the outcome together with the
    graph as the call leaves it. *)

Abbreviation M := (SE NotationGraph).

Definition alter_node (f : Node -> Node) (i : Z) : M unit :=
  fun g => (Ok tt, {| nodes := nodes g;
                      id_to_node_mapping := alter f i (id_to_node_mapping g) |}).

(** [self.__id_to_node_mapping[i]] *)
Definition node_at (i : Z) : M Node := fun g => (getitem g i, g).

(** [xs.remove(x)] on the list stored in an attribute of node [i]. *)
Definition remove_from (get : Node -> list Z) (set : Node -> list Z -> Node)
    (i x : Z) : M unit :=
  do n <- node_at i;
  match list_remove x (get n) with
  | None => raise ValueError
  | Some l => alter_node (fun n => set n l) i
  end.

(** [xs.append(x)] on the list stored in an attribute of node [i]. *)
Definition append_to (get : Node -> list Z) (set : Node -> list Z -> Node)
    (i x : Z) : M unit :=
  alter_node (fun n => set n (get n ++ [x])) i.

Definition has_edge (g : NotationGraph) (from_id to_id : Z) : result bool :=
  let* from_node := getitem g from_id in
  if z_in to_id (outlinks from_node) then
    let* to_node := getitem g to_id in
    if z_in from_id (inlinks to_node) then Ok true
    else Raise NotationGraphError
  else
    let* to_node := getitem g to_id in
    if z_in from_id (inlinks to_node) then Raise NotationGraphError
    else Ok false.

Definition add_edge (from_id to_id : Z) : M unit :=
  fun g =>
    if negb (contains g from_id) then (Raise NotationGraphError, g)
    else if negb (contains g to_id) then (Raise NotationGraphError, g)
    else
      (do from_node <- node_at from_id;
       do to_node <- node_at to_id;
       if z_in to_id (outlinks from_node) then
         if z_in from_id (inlinks to_node) then ret tt
         else raise NotationGraphError
       else if z_in from_id (inlinks to_node) then raise NotationGraphError
       else
         append_to outlinks with_outlinks from_id to_id ;;
         append_to inlinks with_inlinks to_id from_id) g.

Definition remove_edge (from_id to_id : Z)
    (suppress_not_in_list_error : bool) : M unit :=
  fun g =>
    if negb (contains g from_id) then (Raise ValueError, g)
    else if negb (contains g to_id) then (Raise ValueError, g)
    else
      (do from_node <- node_at from_id;
       do to_node <- node_at to_id;
       if suppress_not_in_list_error
          && negb (z_in to_id (outlinks from_node)) then ret tt
       else if suppress_not_in_list_error
               && negb (z_in from_id (inlinks to_node)) then ret tt
       else
         remove_from outlinks with_outlinks from_id to_id ;;
         remove_from inlinks with_inlinks to_id from_id) g.

(** The two loops run over copies of the link lists; the copy of the
    outlinks is taken after the first loop has run. *)
Definition remove_edges_for_vertex (i : Z) : M unit :=
  fun g =>
    if negb (contains g i) then (Raise ValueError, g)
    else
      (do node <- node_at i;
       for_each (inlinks node) (fun inlink => remove_edge inlink i false) ;;
       do node' <- node_at i;
       for_each (outlinks node')
                (fun outlink => remove_edge i outlink false)) g.

Definition remove_vertex (i : Z) : M unit :=
  remove_edges_for_vertex i ;;
  do node <- node_at i;
  fun g =>
    match list_remove i (nodes g) with
    | None => (Raise ValueError, g)
    | Some ns =>
        (Ok tt, {| nodes := ns;
                   id_to_node_mapping := delete i (id_to_node_mapping g) |})
    end.

Definition add_precedence_edge (from_id to_id : Z) : M unit :=
  fun g =>
    if negb (contains g from_id) then (Raise NotationGraphError, g)
    else if negb (contains g to_id) then (Raise NotationGraphError, g)
    else
      (do from_node <- node_at from_id;
       do to_node <- node_at to_id;
       if z_in to_id (precedence_outlinks from_node) then
         if z_in from_id (precedence_inlinks to_node) then ret tt
         else raise NotationGraphError
       else if z_in from_id (precedence_inlinks to_node)
       then raise NotationGraphError
       else
         alter_node (fun n => add_precedence_outlinks n to_id) from_id ;;
         alter_node (fun n => add_precedence_inlinks n from_id) to_id) g.

Definition set_precedence_inlinks (n : Node) (l : list Z) : Node :=
  with_precedence_inlinks n (Some l).
Definition set_precedence_outlinks (n : Node) (l : list Z) : Node :=
  with_precedence_outlinks n (Some l).

Definition remove_precedence_edge (from_id to_id : Z)
    (suppress_not_in_list_error : bool) : M unit :=
  fun g =>
    if negb (contains g from_id) then (Raise ValueError, g)
    else if negb (contains g to_id) then (Raise ValueError, g)
    else
      (do from_node <- node_at from_id;
       do to_node <- node_at to_id;
       if suppress_not_in_list_error
          && negb (z_in to_id (precedence_outlinks from_node)) then ret tt
       else if suppress_not_in_list_error
               && negb (z_in from_id (precedence_inlinks to_node))
       then ret tt
       else
         remove_from precedence_outlinks set_precedence_outlinks
                     from_id to_id ;;
         remove_from precedence_inlinks set_precedence_inlinks
                     to_id from_id) g.

(** [node.data[key]] for the two precedence keys: [KeyError] when the
    key is absent. *)
Definition data_inlinks (i : Z) : M (list Z) :=
  do n <- node_at i;
  match data_precedence_inlinks n with
  | Some l => ret l
  | None => raise KeyError
  end.

Definition data_outlinks (i : Z) : M (list Z) :=
  do n <- node_at i;
  match data_precedence_outlinks n with
  | Some l => ret l
  | None => raise KeyError
  end.

(** [node.data[key].remove(x)] *)
Definition data_inlinks_remove (i x : Z) : M unit :=
  do l <- data_inlinks i;
  match list_remove x l with
  | None => raise ValueError
  | Some l' => alter_node (fun n => set_precedence_inlinks n l') i
  end.

Definition data_outlinks_remove (i x : Z) : M unit :=
  do l <- data_outlinks i;
  match list_remove x l with
  | None => raise ValueError
  | Some l' => alter_node (fun n => set_precedence_outlinks n l') i
  end.

(** [if x not in node.data[key]: node.data[key].append(x)] *)
Definition data_inlinks_add_new (i x : Z) : M unit :=
  do l <- data_inlinks i;
  if z_in x l then ret tt
  else alter_node (fun n => set_precedence_inlinks n (l ++ [x])) i.

Definition data_outlinks_add_new (i x : Z) : M unit :=
  do l <- data_outlinks i;
  if z_in x l then ret tt
  else alter_node (fun n => set_precedence_outlinks n (l ++ [x])) i.

(** The three loops of [remove_from_precedence]. *)
Definition unlink_predecessor (node : Node) (i predecessor_id : Z) : M unit :=
  do predecessor <- node_at predecessor_id;
  match data_precedence_outlinks predecessor with
  | None => raise ValueError
  | Some outs =>
      if negb (z_in (node_id node) outs) then raise ValueError
      else
        data_outlinks_remove predecessor_id (node_id node) ;;
        data_inlinks_remove i predecessor_id
  end.

Definition unlink_descendant (node : Node) (i descendant_id : Z) : M unit :=
  do descendant <- node_at descendant_id;
  match data_precedence_inlinks descendant with
  | None => raise ValueError
  | Some ins =>
      if negb (z_in (node_id node) ins) then raise ValueError
      else
        data_inlinks_remove descendant_id (node_id node) ;;
        data_outlinks_remove i descendant_id
  end.

Definition bridge (predecessors descendants : list Z) : M unit :=
  for_each predecessors (fun predecessor_id =>
    do predecessor <- node_at predecessor_id;
    for_each descendants (fun descendant_id =>
      do descendant <- node_at descendant_id;
      data_outlinks_add_new predecessor_id descendant_id ;;
      data_inlinks_add_new descendant_id predecessor_id)).

Definition nonempty {A} (o : option (list A)) : bool :=
  match o with Some (_ :: _) => true | _ => false end.

Definition remove_from_precedence (i : Z) : M unit :=
  do node <- node_at i;
  let _has_predecessors := nonempty (data_precedence_inlinks node) in
  let predecessors :=
    if _has_predecessors then precedence_inlinks node else [] in
  let _has_descendants := nonempty (data_precedence_outlinks node) in
  let descendants :=
    if _has_descendants then precedence_outlinks node else [] in
  if negb _has_predecessors && negb _has_descendants then ret tt
  else
    for_each predecessors (unlink_predecessor node i) ;;
    for_each descendants (unlink_descendant node i) ;;
    bridge predecessors descendants.

(** The public mutators as commands, and the graph a command leaves
    behind, whether it returns or raises. *)
Inductive mutation : Type :=
| AddEdge (from_id to_id : Z)
| RemoveEdge (from_id to_id : Z) (suppress_not_in_list_error : bool)
| RemoveVertex (i : Z)
| RemoveEdgesForVertex (i : Z)
| AddPrecedenceEdge (from_id to_id : Z)
| RemovePrecedenceEdge (from_id to_id : Z) (suppress_not_in_list_error : bool)
| RemoveFromPrecedence (i : Z).

Definition run (m : mutation) : M unit :=
  match m with
  | AddEdge a b => add_edge a b
  | RemoveEdge a b s => remove_edge a b s
  | RemoveVertex a => remove_vertex a
  | RemoveEdgesForVertex a => remove_edges_for_vertex a
  | AddPrecedenceEdge a b => add_precedence_edge a b
  | RemovePrecedenceEdge a b s => remove_precedence_edge a b s
  | RemoveFromPrecedence a => remove_from_precedence a
  end.

Inductive reachable (g0 : NotationGraph) : NotationGraph -> Prop :=
| reachable_start : reachable g0 g0
| reachable_step g m : reachable g0 g -> reachable g0 (snd (run m g)).

(** *** Consistency predicates *)

(** The index maps each id to the node carrying that id. *)
Definition index_ok (g : NotationGraph) : Prop :=
  forall i n, id_to_node_mapping g !! i = Some n -> node_id n = i.

Definition edge_reciprocity (g : NotationGraph) : Prop :=
  forall a b na nb,
    id_to_node_mapping g !! a = Some na ->
    id_to_node_mapping g !! b = Some nb ->
    (In b (outlinks na) <-> In a (inlinks nb)).

Definition precedence_reciprocity (g : NotationGraph) : Prop :=
  forall a b na nb,
    id_to_node_mapping g !! a = Some na ->
    id_to_node_mapping g !! b = Some nb ->
    (In b (precedence_outlinks na) <-> In a (precedence_inlinks nb)).

Definition occ (x : Z) (l : list Z) : nat := count_occ Z.eq_dec l x.

(** Reciprocity with multiplicities: an edge is listed as often on one
    side as on the other. *)
Definition edges_balanced (g : NotationGraph) : Prop :=
  forall a b na nb,
    id_to_node_mapping g !! a = Some na ->
    id_to_node_mapping g !! b = Some nb ->
    occ b (outlinks na) = occ a (inlinks nb).

Definition precedence_balanced (g : NotationGraph) : Prop :=
  forall a b na nb,
    id_to_node_mapping g !! a = Some na ->
    id_to_node_mapping g !! b = Some nb ->
    occ b (precedence_outlinks na) = occ a (precedence_inlinks nb).

(** No link list of the graph names an id twice. *)
Definition links_nodup (g : NotationGraph) : Prop :=
  forall a na,
    id_to_node_mapping g !! a = Some na ->
    List.NoDup (inlinks na) /\ List.NoDup (outlinks na) /\
    List.NoDup (precedence_inlinks na) /\ List.NoDup (precedence_outlinks na).

End Graph.

(** ** [OnsetsInferenceEngine]: durations and time signatures *)

Module Durations.
Import Py.

Local Open Scope Q_scope.

(** Python's [sorted(xs, key=...)] is stable: with [le x y] read as
    "[x] may stay before [y]", an element is put before the first one
    it may stay before. *)
Section Sorted.
Context {A : Type} (le : A -> A -> bool).

Fixpoint insert_sorted (x : A) (l : list A) : list A :=
  match l with
  | [] => [x]
  | y :: t => if le x y then x :: y :: t else y :: insert_sorted x t
  end.

Fixpoint sorted (l : list A) : list A :=
  match l with
  | [] => []
  | x :: t => insert_sorted x (sorted t)
  end.
End Sorted.

Definition by_left (x y : Node) : bool := (left x <=? left y)%Z.
Definition by_top (x y : Node) : bool := (top x <=? top y)%Z.

(** [interpret_numerals]: a non-numeral raises, the names are read in
    order of their left edge. *)
Definition interpret_numerals (numerals : list Node) : result (option Z) :=
  if forallb (fun n => str_in (class_name n) Const.NUMERALS) numerals
  then Ok (Const.interpret (map class_name (sorted by_left numerals)))
  else Raise ValueError.


(** [Fraction(1, 2) ** n] *)
Fixpoint half_pow (n : nat) : Q :=
  match n with
  | O => 1
  | S n' => (1 # 2) * half_pow n'
  end.

(** [for i, d in enumerate(ddots): m += Fraction(1, 2) ** (i + 1)] *)
Fixpoint dot_loop {A} (ddots : list A) (i : nat) (m : Q) : Q :=
  match ddots with
  | [] => m
  | _ :: t => dot_loop t (S i) (m + half_pow (S i))
  end.





(** *** [interpret_time_signature] *)

Section TimeSignature.
(** [mung.node.bounding_box_dice_coefficient] is not among the
    sources; on integer boxes its value is a ratio of areas. *)
Variable bounding_box_dice_coefficient : Node -> Node -> Q.

(** [xs[i:]] and [xs[:-1]] *)
Definition drop_last {A} (l : list A) : list A := removelast l.

(** [for _i_m, m1 in enumerate(members[:-1]): for m2 in members[_i_m:]] *)
Fixpoint overlaps_from (i : nat) (firsts members : list Node) : list Q :=
  match firsts with
  | [] => []
  | m1 :: t =>
      map (bounding_box_dice_coefficient m1) (skipn i members)
      ++ overlaps_from (S i) t members
  end.

Definition vertical_overlaps (members : list Node) : list Q :=
  overlaps_from 0 (drop_last members) members.

(** [min(xs)]: the first least element; [ValueError] on no elements. *)
Fixpoint min_from (m : Q) (l : list Q) : Q :=
  match l with
  | [] => m
  | x :: t => min_from (if Qlt_le_dec x m then x else m) t
  end.

Definition py_min (l : list Q) : result Q :=
  match l with
  | [] => Raise ValueError
  | x :: t => Ok (min_from x t)
  end.

(** [x < threshold], where the threshold may be [None]: ordering a
    number against [None] raises [TypeError]. *)
Definition lt_threshold (x : Q) (threshold : option Q) : result bool :=
  match threshold with
  | None => Raise TypeError
  | Some t => Ok (if Qlt_le_dec x t then true else false)
  end.

Definition center2 (c : Node) : Q := inject_Z (top c + bottom c) / 2.

Definition by_center (x y : Node) : bool :=
  if Qlt_le_dec (center2 y) (center2 x) then false else true.

(** [max(range(len(gaps)), key=lambda i: gaps[i])]: the first index
    of a largest gap. *)
Fixpoint argmax_from (best : nat) (bestv : Q) (i : nat) (l : list Q) : nat :=
  match l with
  | [] => best
  | x :: t =>
      if Qlt_le_dec bestv x then argmax_from i x (S i) t
      else argmax_from best bestv (S i) t
  end.

Definition py_argmax (gaps : list Q) : result nat :=
  match gaps with
  | [] => Raise ValueError
  | x :: t => Ok (argmax_from 0%nat x 1%nat t)
  end.

(** The gap between two consecutive numerals, as the source computes
    it (the second numeral's top enters both terms).  The source
    divides integers by 2 in floating point; halves of integers and
    their differences are exact there for coordinates below 2^53,
    the range in which the rationals here agree with it. *)
Definition gap (c1 c2 : Node) : Q :=
  inject_Z (bottom c2 + top c2) / 2 - inject_Z (bottom c1 + top c2) / 2.

Fixpoint gaps_of (l : list Node) : list Q :=
  match l with
  | c1 :: ((c2 :: _) as t) => gap c1 c2 :: gaps_of t
  | _ => []
  end.

(** [Fraction(beat_count * 4, beat_units)]: the product comes
    first, and [None * 4] is a [TypeError]; a denominator [None] is
    the default of [Fraction], the numerator alone. *)
Definition fraction (num den : option Z) : result Q :=
  match num with
  | None => Raise TypeError
  | Some n =>
      match den with
      | None => Ok (inject_Z (n * 4))
      | Some d =>
          if (d =? 0)%Z then Raise ZeroDivisionError
          else Ok (inject_Z (n * 4) / inject_Z d)
      end
  end.

Definition is_fraction_like_of (members : list Node)
    (fractional_vertical_iou_threshold : option Q) : result bool :=
  let has_letter_other :=
    (0 <? List.length
            (List.filter (fun m => String.eqb (class_name m) Const.LETTER_OTHER)
                    members))%nat in
  if has_letter_other then Ok true
  else if (List.length members <? 2)%nat then Ok false
  else
    let* least := py_min (vertical_overlaps members) in
    lt_threshold least fractional_vertical_iou_threshold.

Definition interpret_time_signature (g : Graph.NotationGraph)
    (time_signature : Node)
    (fractional_vertical_iou_threshold : option Q) : result Q :=
  let* cs := Graph.children g (node_id time_signature)
               (Some Const.TIME_SIGNATURE_MEMBERS) in
  let members := sorted by_top cs in
  match members with
  | [] => Raise NotationGraphError
  | _ =>
      let is_whole :=
        existsb (fun m => String.eqb (class_name m) Const.TIME_SIG_COMMON)
                members in
      let is_alla_breve :=
        existsb (fun m => String.eqb (class_name m) Const.TIME_SIG_CUT_COMMON)
                members in
      if is_whole || is_alla_breve then Ok 4
      else
        let* is_fraction_like :=
          is_fraction_like_of members fractional_vertical_iou_threshold in
        let* ns := Graph.children g (node_id time_signature)
                     (Some Const.NUMERALS) in
        let numerals := sorted by_top ns in
        if negb is_fraction_like then
          match numerals with
          | [] => Raise NotationGraphError
          | _ =>
              let* beats := interpret_numerals numerals in
              match beats with
              | Some b => Ok (inject_Z b)
              | None => Raise TypeError
              end
          end
        else
          let numerals_topdown := sorted by_center numerals in
          let gaps := gaps_of numerals_topdown in
          let* i := py_argmax gaps in
          let largest_gap_idx := S i in
          let numerator := firstn largest_gap_idx numerals in
          let denominator := skipn largest_gap_idx numerals in
          let* beat_count := interpret_numerals numerator in
          let* beat_units := interpret_numerals denominator in
          fraction beat_count beat_units
  end.

(** The call sites pass no threshold: the parameter takes its
    default, [None]. *)
Definition interpret_time_signature_default (g : Graph.NotationGraph)
    (time_signature : Node) : result Q :=
  interpret_time_signature g time_signature None.

Definition _DEFAULT_FRACTIONAL_VERTICAL_IOU_THRESHOLD : Q := 8 # 10.
End TimeSignature.


(** *** Vocabulary for the properties of durations *)

Definition digit_value (name : string) : Z :=
  match Const.digit_of name Const.numeral_to_digit with
  | Some d => d
  | None => 0%Z
  end.

(** The base-10 reading of a list of digits, most significant first. *)
Definition decimal (digits : list Z) : Z :=
  fold_left (fun acc d => (acc * 10 + d)%Z) digits 0%Z.


End Durations.

(** ** [PrecedenceGraphNode] and the onset walk of [onsets()] *)

Module Onsets.
Import Py.

Local Open Scope Q_scope.

(** [BaseOnsetsInferenceStrategy] with its defaults. *)
Record BaseOnsetsInferenceStrategy : Type := mkStrategy {
  permissive_desynchronization : bool;
  precedence_only_for_objects_connected_to_staff : bool;
  permissive : bool;
  link_sinks_to_sources_at_ends_and_starts_of_systems : bool
}.

Definition default_strategy : BaseOnsetsInferenceStrategy :=
  mkStrategy true true true true.

(** A precedence node.  Its links are references to other precedence
    nodes, kept here as their [node_id]s; [obj] is the wrapped symbol,
    kept as its id. *)
Record PrecedenceGraphNode : Type := mkPNode {
  obj : option Z;
  node_id : Z;
  inlinks : list Z;
  outlinks : list Z;
  onset : option Q;
  duration : Q
}.

Definition with_onset (n : PrecedenceGraphNode) (o : option Q)
  : PrecedenceGraphNode :=
  mkPNode (obj n) (node_id n) (inlinks n) (outlinks n) o (duration n).

(** What the loop of [onsets()] reads and writes: the node objects
    (the [p_nodes] dictionary of [_infer_precedence_from_annotations]),
    the queue with its start index, the result table, the dictionary of
    delayed nodes, the [onset_beats] entries written into the wrapped
    symbols' [data], and the ids for which a desynchronisation warning
    was logged. *)
Record walk_state : Type := mkWalk {
  p_nodes : dict PrecedenceGraphNode;
  queue : list Z;
  qstart : nat;
  onsets : dict Q;
  delayed_prec_nodes : dict Z;
  onset_beats : dict Q;
  warnings : list Z
}.

Inductive step_outcome : Type :=
| Continue (s : walk_state)
| Break (s : walk_state)
| Raised (e : exn) (s : walk_state).

(** [for post_q in q.outlinks: if post_q not in queue: queue.append(post_q)];
    the test looks at the whole list, the processed part included. *)
Fixpoint enqueue_new (posts : list Z) (queue : list Z) : list Z :=
  match posts with
  | [] => queue
  | p :: t => enqueue_new t (if z_in p queue then queue else queue ++ [p])
  end.

(** [[pq.onset for pq in prec_qs]] and [[pq.duration for pq in prec_qs]] *)
Fixpoint prec_onsets_of (ps : dict PrecedenceGraphNode) (ids : list Z)
  : result (list (option Q)) :=
  match ids with
  | [] => Ok []
  | i :: t =>
      match dict_get i ps with
      | None => Raise KeyError
      | Some pq =>
          let* r := prec_onsets_of ps t in Ok (onset pq :: r)
      end
  end.

Fixpoint prec_durations_of (ps : dict PrecedenceGraphNode) (ids : list Z)
  : result (list Q) :=
  match ids with
  | [] => Ok []
  | i :: t =>
      match dict_get i ps with
      | None => Raise KeyError
      | Some pq =>
          let* r := prec_durations_of ps t in Ok (duration pq :: r)
      end
  end.

Definition has_None (l : list (option Q)) : bool :=
  existsb (fun o => match o with None => true | Some _ => false end) l.

(** [[o + d for o, d in zip(prec_onsets, prec_durations)]], once no
    onset is [None]. *)
Fixpoint proposals (os : list (option Q)) (ds : list Q) : list Q :=
  match os, ds with
  | Some o :: os', d :: ds' => (o + d) :: proposals os' ds'
  | None :: os', _ :: ds' => proposals os' ds'
  | _, _ => []
  end.

Fixpoint min_from (m : Q) (l : list Q) : Q :=
  match l with
  | [] => m
  | x :: t => min_from (if Qlt_le_dec x m then x else m) t
  end.

Fixpoint max_from (m : Q) (l : list Q) : Q :=
  match l with
  | [] => m
  | x :: t => max_from (if Qlt_le_dec m x then x else m) t
  end.

(** Every pending node's [obj.id] is formatted into a debug message. *)
Definition all_have_obj (ps : dict PrecedenceGraphNode) (ids : list Z) : bool :=
  forallb (fun i => match dict_get i ps with
                    | Some n => match obj n with Some _ => true | None => false end
                    | None => false
                    end) ids.

Definition set_queue (s : walk_state) (qu : list Z) (qs : nat) : walk_state :=
  mkWalk (p_nodes s) qu qs (onsets s) (delayed_prec_nodes s)
         (onset_beats s) (warnings s).

(** One turn of the [while] loop, entered with a non-empty rest of the
    queue. *)
Definition step (strategy : BaseOnsetsInferenceStrategy) (s : walk_state)
  : step_outcome :=
  match nth_error (queue s) (qstart s) with
  | None => Raised IndexError s
  | Some q_id =>
      match dict_get q_id (p_nodes s) with
      | None => Raised KeyError s
      | Some q =>
          match obj q with
          | None => Raised AttributeError s
          | Some q_obj_id =>
              let s1 := set_queue s (enqueue_new (outlinks q) (queue s))
                                  (S (qstart s)) in
              if negb (all_have_obj (p_nodes s1) (skipn (qstart s1) (queue s1)))
              then Raised AttributeError s1
              else
                match onset q with
                | Some o =>
                    if Qlt_le_dec 0 o then Break s1
                    else
                      Continue
                        (mkWalk (p_nodes s1) (queue s1) (qstart s1)
                                (dict_set q_obj_id o (onsets s1))
                                (delayed_prec_nodes s1) (onset_beats s1)
                                (warnings s1))
                | None =>
                    match prec_onsets_of (p_nodes s1) (inlinks q) with
                    | Raise e => Raised e s1
                    | Ok prec_onsets =>
                        if has_None prec_onsets then
                          (* [q in delayed_prec_nodes] tests a node
                             object against a dictionary keyed by ids:
                             it never holds, so the node is recorded
                             as delayed and the loop goes on. *)
                          Continue
                            (mkWalk (p_nodes s1) (queue s1 ++ [q_id])
                                    (qstart s1) (onsets s1)
                                    (dict_set q_obj_id q_id
                                              (delayed_prec_nodes s1))
                                    (onset_beats s1) (warnings s1))
                        else
                          match prec_durations_of (p_nodes s1) (inlinks q) with
                          | Raise e => Raised e s1
                          | Ok prec_durations =>
                              match proposals prec_onsets prec_durations with
                              | [] => Raised ValueError s1
                              | p0 :: ps =>
                                  let lo := min_from p0 ps in
                                  let hi := max_from p0 ps in
                                  let assign (o : Q) (w : list Z) :=
                                    Continue
                                      (mkWalk
                                         (dict_set q_id (with_onset q (Some o))
                                                   (p_nodes s1))
                                         (queue s1) (qstart s1)
                                         (dict_set q_obj_id o (onsets s1))
                                         (delayed_prec_nodes s1)
                                         (dict_set q_obj_id o (onset_beats s1))
                                         w) in
                                  if negb (Qeq_bool lo hi) then
                                    if permissive_desynchronization strategy
                                    then assign hi (warnings s1 ++ [q_obj_id])
                                    else Raised ValueError s1
                                  else assign p0 (warnings s1)
                              end
                          end
                    end
                end
          end
      end
  end.

(** [while (len(queue) - qstart) > 0: ...]; [None] when the fuel runs
    out before the loop ends. *)
Fixpoint walk (fuel : nat) (strategy : BaseOnsetsInferenceStrategy)
    (s : walk_state) : option (result walk_state) :=
  match fuel with
  | O => None
  | S fuel' =>
      if (qstart s <? List.length (queue s))%nat then
        match step strategy s with
        | Continue s' => walk fuel' strategy s'
        | Break s' => Some (Ok s')
        | Raised e _ => Some (Raise e)
        end
      else Some (Ok s)
  end.

(** The value [_infer_precedence_from_annotations] returns:
    [[n for n in p_nodes.values() if len(n.inlinks) == 0]]. *)
Definition source_nodes (ps : dict PrecedenceGraphNode) : list Z :=
  map fst (List.filter (fun kv => match inlinks (snd kv) with
                             | [] => true | _ => false end) ps).

(** [for node in precedence_graph: node.onset = 0] *)
Definition seed (precedence_graph : list Z) (ps : dict PrecedenceGraphNode)
  : dict PrecedenceGraphNode :=
  map (fun kv => if z_in (fst kv) precedence_graph
                 then (fst kv, with_onset (snd kv) (Some 0))
                 else kv) ps.

(** The initial queue: the members of [precedence_graph] without inlinks. *)
Definition initial_queue (precedence_graph : list Z)
    (ps : dict PrecedenceGraphNode) : list Z :=
  List.filter (fun i => match dict_get i ps with
                   | Some n => match inlinks n with [] => true | _ => false end
                   | None => false
                   end) precedence_graph.

Definition initial_state (ps : dict PrecedenceGraphNode) : walk_state :=
  let precedence_graph := source_nodes ps in
  let ps' := seed precedence_graph ps in
  mkWalk ps' (initial_queue precedence_graph ps') 0 [] [] [] [].

(** [onsets()] from the precedence nodes on. *)
Definition onsets_from (fuel : nat) (strategy : BaseOnsetsInferenceStrategy)
    (ps : dict PrecedenceGraphNode) : option (result (dict Q)) :=
  match walk fuel strategy (initial_state ps) with
  | None => None
  | Some (Ok s) => Some (Ok (onsets s))
  | Some (Raise e) => Some (Raise e)
  end.


(** *** Vocabulary for the properties of the walk *)

(** The state after the successors of [q] were put on the queue. *)
Definition after_enqueue (s : walk_state) (q : PrecedenceGraphNode)
  : walk_state :=
  set_queue s (enqueue_new (outlinks q) (queue s)) (S (qstart s)).

(** [q], wrapping the symbol [id], is the node the loop takes from
    the queue in state [s], and the loop gets past its debug output. *)
Definition dequeued (s : walk_state) (q_id : Z) (q : PrecedenceGraphNode)
    (id : Z) : Prop :=
  nth_error (queue s) (qstart s) = Some q_id /\
  dict_get q_id (p_nodes s) = Some q /\
  obj q = Some id /\
  all_have_obj (p_nodes s)
    (skipn (S (qstart s)) (enqueue_new (outlinks q) (queue s))) = true.

(** The walk records the onset [o] for [id] and goes on. *)
Definition records_and_continues (strategy : BaseOnsetsInferenceStrategy)
    (s : walk_state) (id : Z) (o : Q) : Prop :=
  exists s', step strategy s = Continue s' /\
             dict_get id (onsets s') = Some o.

Definition is_root (n : PrecedenceGraphNode) : bool :=
  match inlinks n with [] => true | _ => false end.


(** The state after [q] was given the onset [o]. *)
Definition resolved (s : walk_state) (q_id : Z) (q : PrecedenceGraphNode)
    (id : Z) (o : Q) (w : list Z) : walk_state :=
  mkWalk (dict_set q_id (with_onset q (Some o)) (p_nodes s))
         (enqueue_new (outlinks q) (queue s)) (S (qstart s))
         (dict_set id o (onsets s)) (delayed_prec_nodes s)
         (dict_set id o (onset_beats s)) w.

(** The ids that wait in the queue, and the ids already taken out. *)
Definition pending (s : walk_state) : list Z := skipn (qstart s) (queue s).
Definition processed (s : walk_state) : list Z := firstn (qstart s) (queue s).

(** The states the loop passes through, starting from [s0]. *)
Inductive walk_reaches (strategy : BaseOnsetsInferenceStrategy)
    (s0 : walk_state) : walk_state -> Prop :=
| walk_start : walk_reaches strategy s0 s0
| walk_turn s s' :
    walk_reaches strategy s0 s -> step strategy s = Continue s' ->
    walk_reaches strategy s0 s'.

(** No id waits twice, and a node that carries an onset other than 0
    was taken out and does not wait. *)
Definition settled (s : walk_state) : Prop :=
  List.NoDup (pending s) /\
  forall i n o,
    dict_get i (p_nodes s) = Some n -> onset n = Some o -> ~ o == 0 ->
    In i (processed s) /\ ~ In i (pending s).

(** The candidates of a node: for each predecessor, in order, its
    onset plus its duration. *)
Definition candidates_of (ps : dict PrecedenceGraphNode) (ids : list Z)
    (cands : list Q) : Prop :=
  Forall2 (fun i c => exists pq o,
               dict_get i ps = Some pq /\ onset pq = Some o /\
               c = o + duration pq) ids cands.

End Onsets.

(** ** [process_ties]

    The duration and onset tables are dictionary objects that the caller
    owns, so they live in a store of objects and are passed by
    reference. *)

Module Ties.
Import Py.

Local Open Scope Q_scope.

Abbreviation loc := nat.
Abbreviation heap := (gmap nat (dict Q)).

Abbreviation H := (SE heap).

(** A new dictionary object. *)
Definition alloc (d : dict Q) : H loc :=
  fun h => let l := fresh (dom h) in (Ok l, <[l := d]> h).

(** The contents of a dictionary object; a reference always denotes
    an object, the model raises on one that does not. *)
Definition contents (l : loc) : H (dict Q) :=
  fun h => match h !! l with
           | Some d => (Ok d, h)
           | None => (Raise AttributeError, h)
           end.

(** [copy.deepcopy(d)]: the values are immutable fractions. *)
Definition deepcopy (l : loc) : H loc :=
  do d <- contents l; alloc d.

(** [d[k]] *)
Definition getitem (l : loc) (k : Z) : H Q :=
  do d <- contents l;
  match dict_get k d with
  | Some v => ret v
  | None => raise KeyError
  end.

(** [d[k] = v] *)
Definition setitem (l : loc) (k : Z) (v : Q) : H unit :=
  do d <- contents l;
  fun h => (Ok tt, <[l := dict_set k v d]> h).

(** [del d[k]] *)
Definition delitem (l : loc) (k : Z) : H unit :=
  do d <- contents l;
  if dict_mem k d then fun h => (Ok tt, <[l := dict_del k d]> h)
  else raise KeyError.

Definition TIE_NOTE_CLASSES : list string :=
  [Const.NOTEHEAD_FULL; Const.NOTEHEAD_HALF; Const.NOTEHEAD_WHOLE].

(** The local function [__get_tie_notes]. *)
Definition get_tie_notes (graph : Graph.NotationGraph) (_tie : Node)
  : result (list Node) :=
  let* notes := Graph.parents graph (node_id _tie) (Some TIE_NOTE_CLASSES) in
  match notes with
  | [] => Raise NotationGraphError
  | [n] => Ok [n]
  | [_; _] => Ok (Durations.sorted Durations.by_left notes)
  | _ => Raise NotationGraphError
  end.

(** [max(ties, key=lambda x: x.left)]: the first of the rightmost. *)
Fixpoint rightmost_from (best : Node) (l : list Node) : Node :=
  match l with
  | [] => best
  | x :: t => rightmost_from (if (left best <? left x)%Z then x else best) t
  end.

(** [sorted(onsets, key=lambda x: onsets[x], reverse=True)]: the keys
    by falling onset; keys of equal onset keep their order. *)
Definition by_onset_desc (x y : Z * Q) : bool := Qle_bool (snd y) (snd x).

Definition processing_order (onsets : dict Q) : list Z :=
  map fst (Durations.sorted by_onset_desc onsets).

(** The body of the loop of [process_ties] for the key [k]. *)
Definition process_key (g : Graph.NotationGraph)
    (new_durations new_onsets : loc) (k : Z) : H unit :=
  do ties <- lift (Graph.children g k (Some [Const.TIE_CLASS_NAME]));
  match ties with
  | [] => ret tt
  | t0 :: rest =>
      let tie := match rest with
                 | [] => t0
                 | _ => rightmost_from t0 rest
                 end in
      do n <- lift (Graph.getitem g k);
      do tie_notes <- lift (get_tie_notes g tie);
      match tie_notes with
      | [l; r] =>
          if (node_id l =? node_id n)%Z then
            do dl <- getitem new_durations (node_id l);
            do dr <- getitem new_durations (node_id r);
            setitem new_durations (node_id l) (dl + dr) ;;
            delitem new_onsets (node_id r)
          else ret tt
      | _ => ret tt
      end
  end.

(** [{k: new_durations[k] for k in new_onsets}] *)
Fixpoint restrict (keys : list Z) (d acc : dict Q) : result (dict Q) :=
  match keys with
  | [] => Ok acc
  | k :: t =>
      match dict_get k d with
      | None => Raise KeyError
      | Some v => restrict t d (dict_set k v acc)
      end
  end.

Definition restrict_to (keys : list Z) (d : dict Q) : result (dict Q) :=
  restrict keys d [].

Definition process_ties (nodes : list Node) (durations onsets : loc)
  : H (loc * loc) :=
  let g := Graph.make nodes in
  do new_onsets <- deepcopy onsets;
  do new_durations <- deepcopy durations;
  do os <- contents onsets;
  for_each (processing_order os)
           (process_key g new_durations new_onsets) ;;
  do final_onsets <- contents new_onsets;
  do final_durations <- contents new_durations;
  do restricted <- lift (restrict_to (dict_keys final_onsets) final_durations);
  do new_durations' <- alloc restricted;
  ret (new_durations', new_onsets).

End Ties.

(** ** Sample graphs *)

Module Examples.

Definition node (i : Z) (cls : string) (ins outs : list Z) : Node :=
  mkNode i cls 0 0 10 10 ins outs None None.

Definition placed (i : Z) (cls : string) (t l b r : Z)
    (ins outs : list Z) : Node :=
  mkNode i cls t l b r ins outs None None.

Definition pnode (i : Z) (cls : string) (pins pouts : list Z) : Node :=
  mkNode i cls 0 0 10 10 [] [] (Some pins) (Some pouts).

(** A dotted notehead in a triplet: notehead 1 with tuple 2 and dot 3,
    the tuple carrying the numeral 4 ("3"). *)
Definition triplet_nodes : list Node :=
  [node 1 "noteheadFull" [] [2; 3];
   node 2 "tuple" [1] [4];
   node 3 "augmentationDot" [1] [];
   node 4 "numeral3" [2] []].
Definition triplet : Graph.NotationGraph := Graph.make triplet_nodes.

(** A time signature 10 with a "4" (11) over a "4" (12). *)
Definition four_four_nodes : list Node :=
  [placed 10 "timeSignature" 0 0 22 10 [] [11; 12];
   placed 11 "numeral4" 0 0 10 10 [10] [];
   placed 12 "numeral4" 12 0 22 10 [10] []].
Definition four_four : Graph.NotationGraph := Graph.make four_four_nodes.

Definition constant_dice (a b : Node) : Q := (1 # 2)%Q.

(** One edge 1 --> 2. *)
Definition one_edge : Graph.NotationGraph :=
  Graph.make [node 1 "staff" [] [2]; node 2 "staffLine" [1] []].

(** 1 --> 2 --> 5, 1 --> 3 --> 4 --> 5: node 1 is reached from 5 along
    paths of two and of three edges. *)
Definition uneven_diamond : Graph.NotationGraph :=
  Graph.make [node 1 "a" [] [2; 3]; node 2 "b" [1] [5];
              node 3 "c" [1] [4]; node 4 "d" [3] [5];
              node 5 "e" [2; 4] []].

(** An edge 1 --> 2 that node 1 lists twice and node 2 once. *)
Definition doubled_edge : Graph.NotationGraph :=
  Graph.make [node 1 "a" [] [2; 2]; node 2 "b" [1] []].

(** A precedence chain 1 --> 2 --> 3. *)
Definition chain : Graph.NotationGraph :=
  Graph.make [pnode 1 "noteheadFull" [] [2];
              pnode 2 "noteheadFull" [1] [3];
              pnode 3 "noteheadFull" [2] []].

(** A node that precedes itself. *)
Definition self_precedence : Graph.NotationGraph :=
  Graph.make [pnode 1 "noteheadFull" [1] [1]].

(** Node 2 lists its predecessor 1 twice, node 1 lists 2 once. *)
Definition repeated_predecessor : Graph.NotationGraph :=
  Graph.make [pnode 1 "noteheadFull" [] [2];
              pnode 2 "noteheadFull" [1; 1] []].

(** Node 2 lists a predecessor 7 that the graph does not hold. *)
Definition absent_predecessor : Graph.NotationGraph :=
  Graph.make [pnode 2 "noteheadFull" [7] []].

End Examples.

Module WalkExamples.
Import Onsets.

Definition pn (i : Z) (ins outs : list Z) (o : option Q) (d : Q)
  : PrecedenceGraphNode :=
  mkPNode (Some i) i ins outs o d.

(** A loop state whose next node, 2, already carries the onset 1. *)
Definition carried_positive : walk_state :=
  mkWalk [(1, pn 1 [] [2] (Some 0%Q) 1%Q);
          (2, pn 2 [1] [3] (Some 1%Q) 1%Q);
          (3, pn 3 [2] [] None 1%Q)]
         [1; 2] 1 [(1, 0%Q)] [] [] [].

(** The same state with node 2 carrying the onset 0. *)
Definition carried_zero : walk_state :=
  mkWalk [(1, pn 1 [] [2] (Some 0%Q) 1%Q);
          (2, pn 2 [1] [3] (Some 0%Q) 1%Q);
          (3, pn 3 [2] [] None 1%Q)]
         [1; 2] 1 [(1, 0%Q)] [] [] [].

(** Node 3 with the resolved predecessors 1 (onset 1, duration 1) and
    2 (onset 2, duration 0): the candidates agree on 2. *)
Definition converging_agree : walk_state :=
  mkWalk [(1, pn 1 [] [3] (Some 1%Q) 1%Q);
          (2, pn 2 [] [3] (Some 2%Q) 0%Q);
          (3, pn 3 [1; 2] [] None 1%Q)]
         [1; 2; 3] 2 [] [] [] [].

(** Node 3 with candidates 1 (from node 1) and 3 (from node 2). *)
Definition converging_disagree : walk_state :=
  mkWalk [(1, pn 1 [] [3] (Some 0%Q) 1%Q);
          (2, pn 2 [] [3] (Some 2%Q) 1%Q);
          (3, pn 3 [1; 2] [] None 1%Q)]
         [1; 2; 3] 2 [] [] [] [].

Definition strict_strategy : BaseOnsetsInferenceStrategy :=
  mkStrategy false true true true.

(** Three notes in a row, each lasting one beat. *)
Definition monophonic_chain : Py.dict PrecedenceGraphNode :=
  [(1, pn 1 [] [2] None 1%Q);
   (2, pn 2 [1] [3] None 1%Q);
   (3, pn 3 [2] [] None 1%Q)].

End WalkExamples.

Module TieExamples.

(** Two quarter notes, 1 and 2, joined by the tie 3. *)
Definition tied_pair : list Node :=
  [Examples.placed 1 "noteheadFull" 0 0 10 10 [] [3];
   Examples.placed 2 "noteheadFull" 0 20 10 30 [] [3];
   Examples.placed 3 "tie" 0 5 5 25 [1; 2] []].

(** The caller's tables: durations at 0, onsets at 1. *)
Definition tables : Ties.heap :=
  <[1%nat := [(1, 0%Q); (2, 1%Q)]]> (<[0%nat := [(1, 1%Q); (2, 1%Q)]]> ∅).

(** Three notes 1, 2, 3 tied in a chain by the ties 4 and 5. *)
Definition tied_chain : list Node :=
  [Examples.placed 1 "noteheadFull" 0 0 10 10 [] [4];
   Examples.placed 2 "noteheadFull" 0 20 10 30 [] [4; 5];
   Examples.placed 3 "noteheadFull" 0 40 10 50 [] [5];
   Examples.placed 4 "tie" 0 5 5 25 [1; 2] [];
   Examples.placed 5 "tie" 0 25 5 45 [2; 3] []].

Definition chain_tables : Ties.heap :=
  <[1%nat := [(1, 0%Q); (2, 1%Q); (3, 2%Q)]]>
    (<[0%nat := [(1, 1%Q); (2, 1%Q); (3, 1%Q)]]> ∅).

End TieExamples.

Module TieSpec.
Import Py Ties.

(** Every object of [h0] is in [h], with the contents it has in [h0]. *)
Definition extends (h0 h : heap) : Prop :=
  forall l d, h0 !! l = Some d -> h !! l = Some d.

(** A computation that leaves the objects of [h0] as they are. *)
Definition keeps (h0 : heap) {A} (m : H A) : Prop :=
  forall h, extends h0 h -> extends h0 (snd (m h)).

(** The tie the loop of [process_ties] looks at for a note with the
    ties [t0 :: rest]. *)
Definition chosen_tie (t0 : Node) (rest : list Node) : Node :=
  match rest with
  | [] => t0
  | _ => rightmost_from t0 rest
  end.

(** The left note of two: the one with the smaller left edge, the
    first one when the edges coincide. *)
Definition left_right (a b : Node) : Node * Node :=
  if (left a <=? left b)%Z then (a, b) else (b, a).

End TieSpec.

Module GraphSpec.
Import Py Graph.

(** The two edge relations a graph carries on one set of ids. *)
Inductive kind : Type := Attachment | Precedence.

Definition get_in (K : kind) : Node -> list Z :=
  match K with
  | Attachment => inlinks
  | Precedence => precedence_inlinks
  end.

Definition get_out (K : kind) : Node -> list Z :=
  match K with
  | Attachment => outlinks
  | Precedence => precedence_outlinks
  end.

Definition set_in (K : kind) : Node -> list Z -> Node :=
  match K with
  | Attachment => with_inlinks
  | Precedence => set_precedence_inlinks
  end.

Definition set_out (K : kind) : Node -> list Z -> Node :=
  match K with
  | Attachment => with_outlinks
  | Precedence => set_precedence_outlinks
  end.

(** An edge is listed as often at its source as at its target. *)
Definition balanced (K : kind) (g : NotationGraph) : Prop :=
  forall a b na nb,
    id_to_node_mapping g !! a = Some na ->
    id_to_node_mapping g !! b = Some nb ->
    occ b (get_out K na) = occ a (get_in K nb).

(** Reciprocity of one relation, as membership. *)
Definition reciprocal (K : kind) (g : NotationGraph) : Prop :=
  forall a b na nb,
    id_to_node_mapping g !! a = Some na ->
    id_to_node_mapping g !! b = Some nb ->
    (In b (get_out K na) <-> In a (get_in K nb)).

(** The index is right and the relations selected by [Ks] are
    balanced. *)
Definition consistent_on (Ks : kind -> Prop) (g : NotationGraph) : Prop :=
  index_ok g /\ forall K, Ks K -> balanced K g.

Definition all_kinds (K : kind) : Prop := True.

Definition consistent (g : NotationGraph) : Prop :=
  consistent_on all_kinds g.

(** The graph after the node object [i] was changed by [f]. *)
Definition upd (f : Node -> Node) (i : Z) (g : NotationGraph)
  : NotationGraph :=
  {| nodes := nodes g;
     id_to_node_mapping := alter f i (id_to_node_mapping g) |}.

Definition present (g : NotationGraph) (i : Z) : Prop :=
  is_Some (id_to_node_mapping g !! i).

(** Node [i] is in the graph and its [data] holds the key of the
    precedence inlinks (outlinks). *)
Definition has_in_key (g : NotationGraph) (i : Z) : Prop :=
  exists n l, id_to_node_mapping g !! i = Some n /\
              data_precedence_inlinks n = Some l.

Definition has_out_key (g : NotationGraph) (i : Z) : Prop :=
  exists n l, id_to_node_mapping g !! i = Some n /\
              data_precedence_outlinks n = Some l.

(** [p] lists [d] among its precedence outlinks and [d] lists [p]
    among its precedence inlinks. *)
Definition linked (g : NotationGraph) (p d : Z) : Prop :=
  exists np nd,
    id_to_node_mapping g !! p = Some np /\
    id_to_node_mapping g !! d = Some nd /\
    In d (precedence_outlinks np) /\ In p (precedence_inlinks nd).

(** Node [i] has no precedence links left. *)
Definition unlinked (g : NotationGraph) (i : Z) : Prop :=
  exists n, id_to_node_mapping g !! i = Some n /\
            precedence_inlinks n = [] /\ precedence_outlinks n = [].

(** From [g] to [g'] every node stays, its precedence lists only gain
    entries and the keys of its [data] stay. *)
Definition grows (g g' : NotationGraph) : Prop :=
  forall c n,
    id_to_node_mapping g !! c = Some n ->
    exists n',
      id_to_node_mapping g' !! c = Some n' /\
      incl (precedence_outlinks n) (precedence_outlinks n') /\
      incl (precedence_inlinks n) (precedence_inlinks n') /\
      (is_Some (data_precedence_inlinks n) ->
       is_Some (data_precedence_inlinks n')) /\
      (is_Some (data_precedence_outlinks n) ->
       is_Some (data_precedence_outlinks n')).

(** A change of a node object that stores a new list of outgoing
    (incoming) links of the relation [K] and nothing else. *)
Definition out_setter (K : kind) (f : Node -> Node) : Prop :=
  forall n, exists l, f n = set_out K n l.

Definition in_setter (K : kind) (f : Node -> Node) : Prop :=
  forall n, exists l, f n = set_in K n l.

End GraphSpec.

(** Further examples. *)
Module TupleExamples.


(** A time signature 10 whose numerals stand side by side and read
    "12" from left to right: the "2" (node 11) is the higher one and
    stands on the right, the "1" (node 12) stands on the left. *)
Definition twelve_nodes : list Node :=
  [Examples.placed 10 "timeSignature" 0 0 12 20 [] [11; 12];
   Examples.placed 11 "numeral2" 0 12 10 20 [10] [];
   Examples.placed 12 "numeral1" 2 0 12 8 [10] []].
Definition twelve : Graph.NotationGraph := Graph.make twelve_nodes.
End TupleExamples.

(** ** [NotationGraph]: further queries, and [group_by_chord] *)

Module GraphQueries.
Import Py Graph.

(** [has_children], [has_parents] *)
Definition has_children (g : NotationGraph) (i : Z)
    (class_filter : option (list string)) : result bool :=
  let* cs := children g i class_filter in
  Ok (0 <? List.length cs)%nat.

Definition has_parents (g : NotationGraph) (i : Z)
    (class_filter : option (list string)) : result bool :=
  let* ps := parents g i class_filter in
  Ok (0 <? List.length ps)%nat.

(** [is_child_of]: only the parent is looked up. *)
Definition is_child_of (g : NotationGraph) (child_id parent_id : Z)
  : result bool :=
  let* parent := getitem g parent_id in
  Ok (z_in child_id (outlinks parent)).

Definition is_parent_of (g : NotationGraph) (parent_id child_id : Z)
  : result bool :=
  is_child_of g child_id parent_id.

(** [max(xs)] of a list of ids: [ValueError] on the empty list. *)
Definition py_max (l : list Z) : result Z :=
  match l with
  | [] => Raise ValueError
  | x :: t => Ok (fold_left Z.max t x)
  end.

(** [next_node_id]: [max([c.id for c in self.vertices]) + 1] *)
Definition next_node_id (g : NotationGraph) : result Z :=
  let* m := py_max (nodes g) in
  Ok (m + 1).

(** The loop of [group_by_chord]: [closure] collects the nodes without
    a stem or with several stems, each in a list of its own, and
    [chord_mapping] collects the nodes with one stem under the id of
    that stem. *)
Fixpoint chord_loop (g : NotationGraph) (nodes : list Node)
    (closure : list (list Node)) (chord_mapping : dict (list Node))
  : result (list (list Node) * dict (list Node)) :=
  match nodes with
  | [] => Ok (closure, chord_mapping)
  | node :: t =>
      let* stems := children g (node_id node) (Some [Const.STEM]) in
      match stems with
      | [] => chord_loop g t (closure ++ [[node]]) chord_mapping
      | [stem] =>
          match dict_get (node_id stem) chord_mapping with
          | None =>
              chord_loop g t closure
                (dict_set (node_id stem) [node] chord_mapping)
          | Some chord =>
              chord_loop g t closure
                (dict_set (node_id stem) (chord ++ [node]) chord_mapping)
          end
      | _ => chord_loop g t (closure ++ [[node]]) chord_mapping
      end
  end.

Definition group_by_chord (g : NotationGraph) (nodes : list Node)
  : result (list (list Node)) :=
  let* r := chord_loop g nodes [] [] in
  Ok (fst r ++ map snd (snd r)).

End GraphQueries.

(** Vocabulary for the properties of vertex removal. *)
Module GraphDetach.
Import Py Graph.

(** The list [l] without the entries [i]. *)
Definition without (i : Z) (l : list Z) : list Z :=
  List.filter (fun x => negb (Z.eqb x i)) l.

(** The node [n] once every attachment link to [i] is taken out of
    its lists. *)
Definition detached (i : Z) (n : Node) : Node :=
  with_inlinks (with_outlinks n (without i (outlinks n)))
               (without i (inlinks n)).

(** Between [g0] and [g] the vertex list and the set of ids stay, and
    every node other than [i] changes at most in the entries [i] of
    its attachment lists. *)
Definition agrees (i : Z) (g0 g : NotationGraph) : Prop :=
  nodes g = nodes g0 /\
  forall c,
    match id_to_node_mapping g0 !! c with
    | None => id_to_node_mapping g !! c = None
    | Some n0 =>
        exists n, id_to_node_mapping g !! c = Some n /\
                  (c <> i -> detached i n = detached i n0)
    end.
End GraphDetach.

(** ** [PitchInferenceEngineState.pitch_name] and its tables *)

Module PitchNames.
Import Py Pitch.

(** [InferenceEngineConstants.PITCH_STEPS]: two turns of the scale. *)
Definition PITCH_STEPS : list string :=
  ["C"; "D"; "E"; "F"; "G"; "A"; "B"; "C"; "D"; "E"; "F"; "G"; "A"; "B"].

(** [InferenceEngineConstants.ACCIDENTAL_CODES], keyed by the class
    names of the accidentals. *)
Definition ACCIDENTAL_SHAPR := "accidentalSharp".
Definition ACCIDENTAL_FLAT := "accidentalFlat".
Definition ACCIDENTAL_NATURAL := "accidentalNatural".
Definition ACCIDENTAL_DOUBLE_SHARP := "accidentalDoubleSharp".
Definition ACCIDENTAL_DOUBLE_FLAT := "accidentalDoubleFlat".

Definition ACCIDENTAL_CODES : list (string * string) :=
  [(ACCIDENTAL_SHAPR, "#"); (ACCIDENTAL_FLAT, "b");
   (ACCIDENTAL_DOUBLE_SHARP, "x"); (ACCIDENTAL_DOUBLE_FLAT, "bb")].

(** The keys of [InferenceEngineConstants.ACCIDENTAL_CLASS_NAMES]. *)
Definition ACCIDENTAL_CLASS_NAMES : list string :=
  [ACCIDENTAL_SHAPR; ACCIDENTAL_FLAT; ACCIDENTAL_NATURAL;
   ACCIDENTAL_DOUBLE_SHARP; ACCIDENTAL_DOUBLE_FLAT].

(** [InferenceEngineConstants.MIDI_CODE_RESIDUES_FOR_PITCH_STEPS] *)
Definition MIDI_CODE_RESIDUES_FOR_PITCH_STEPS : dict string :=
  [(0, "C"); (1, "C#"); (2, "D"); (3, "Eb"); (4, "E"); (5, "F");
   (6, "F#"); (7, "G"); (8, "Ab"); (9, "A"); (10, "Bb"); (11, "B")].

(** [table[key]] on a dictionary keyed by strings. *)
Fixpoint str_getitem (key : string) (table : list (string * string))
  : result string :=
  match table with
  | [] => Raise KeyError
  | (k, v) :: t => if String.eqb key k then Ok v else str_getitem key t
  end.

(** [pitch_name(delta)]; the fourth test repeats [accidental == 2]. *)
Definition pitch_name (s : PitchInferenceEngineState) (delta : Z)
  : result (string * Z) :=
  let delta := delta + current_clef_delta_shift s in
  match base_pitch_step s, base_pitch_octave s with
  | Some step, Some octave =>
      match nth_error PITCH_STEPS (Z.to_nat ((step + delta) mod 7)) with
      | None => Raise IndexError
      | Some output_step =>
          let output_octave := octave + (delta + step) / 7 in
          let accidental := accidental s delta in
          let* output_mod :=
            if accidental =? 1 then str_getitem "sharp" ACCIDENTAL_CODES
            else if accidental =? 2
                 then str_getitem "double_sharp" ACCIDENTAL_CODES
            else if accidental =? -1 then str_getitem "flat" ACCIDENTAL_CODES
            else if accidental =? 2
                 then str_getitem "double_flat" ACCIDENTAL_CODES
            else Ok "" in
          Ok (String.append output_step output_mod, output_octave)
      end
  | _, _ => Raise TypeError
  end.

(** *** Vocabulary for the properties of the pitch state *)

(** The pitch of a staff position before accidentals. *)
Definition step_pitch (bp : Z) (steps : list Z) (delta : Z) : Z :=
  bp + sum_Z (slice_to (delta mod 7 + 1) steps) + delta / 7 * 12.

(** The value of [accidental] from the two entries it reads. *)
Definition accidental_of (key inline : option string) : Z :=
  let pitch_mod :=
    match key with
    | Some a =>
        if String.eqb a "sharp" then 1
        else if String.eqb a "double_sharp" then 2
        else if String.eqb a "flat" then -1
        else if String.eqb a "double_flat" then -2
        else 0
    | None => 0
    end in
  match inline with
  | Some a =>
      if String.eqb a "natural" then 0
      else if String.eqb a "sharp" then 1
      else if String.eqb a "double_sharp" then 2
      else if String.eqb a "flat" then -1
      else if String.eqb a "double_flat" then -2
      else pitch_mod
  | None => pitch_mod
  end.

(** The state holds the tables of the clef [c]. *)
Definition set_up_for (s : PitchInferenceEngineState) (c : option Node)
  : Prop :=
  exists bp steps step octave,
    clef_table c = Ok (bp, steps, step, octave) /\
    base_pitch s = Some bp /\ current_delta_steps s = Some steps /\
    base_pitch_step s = Some step /\ base_pitch_octave s = Some octave /\
    current_clef s = c.

(** The accidental maps are dictionaries, and the key accidentals are
    keyed by steps 0 to 6. *)
Definition maps_well_keyed (s : PitchInferenceEngineState) : Prop :=
  List.NoDup (dict_keys (key_accidentals s)) /\
  List.NoDup (dict_keys (inline_accidentals s)) /\
  Forall (fun k => 0 <= k < 7) (dict_keys (key_accidentals s)).

(** The letters of the sharps and of the flats of a key signature, in
    the order of [KEY_TABLE_SHARPS] and [KEY_TABLE_FLATS], as indices
    into [PITCH_STEPS]: F C G D A E B and B E A D G C F. *)
Definition SHARP_ORDER : list Z := [3; 0; 4; 1; 5; 2; 6].
Definition FLAT_ORDER : list Z := [6; 2; 5; 1; 4; 0; 3].

End PitchNames.

(** Vocabulary for the properties of the tables of [process_ties]. *)
Module TieTables.
Import Py Ties.

(** What the loop of [process_ties] keeps true of the new onset
    table at [no]: its keys stay distinct and its entries are entries
    of the caller's table [os]. *)
Definition onsets_shrink (os : dict Q) (no : loc) (h : heap) : Prop :=
  exists O, h !! no = Some O /\ List.NoDup (dict_keys O) /\
            forall k v, dict_get k O = Some v -> dict_get k os = Some v.
End TieTables.

(** Vocabulary for the outcome of [process_ties]. *)
Module TieOutcome.
Import Py Ties.

End TieOutcome.

(** Vocabulary for the runs of [onsets()] that wait for ever. *)
Module WalkBlocked.
Import Py Onsets.

(** Node [i] has no onset and waits for a predecessor without onset,
    and the nodes it puts on the queue are among [B]. *)
Definition blocked (ps : dict PrecedenceGraphNode) (B : list Z) (i : Z)
  : Prop :=
  exists q id os,
    dict_get i ps = Some q /\ obj q = Some id /\ onset q = None /\
    prec_onsets_of ps (inlinks q) = Ok os /\ has_None os = true /\
    incl (outlinks q) B.

(** A first note 1, followed by the notes 2 and 3, which precede each
    other. *)
Definition precedence_cycle : dict PrecedenceGraphNode :=
  [(1, WalkExamples.pn 1 [] [2] None 1%Q);
   (2, WalkExamples.pn 2 [1; 3] [3] None 1%Q);
   (3, WalkExamples.pn 3 [2] [2] None 1%Q)].
End WalkBlocked.

(** Vocabulary for the properties of [ancestors]. *)
Module GraphClimb.
Import Py Graph.

(** [j] is reached from [i] by going from a node to one of its
    parents that pass the class filter, once or several times. *)
Inductive climbs (g : NotationGraph) (class_filter : option (list string))
    (i : Z) : Z -> Prop :=
| climbs_parent n ps :
    parents g i class_filter = Ok ps -> In n ps ->
    climbs g class_filter i (node_id n)
| climbs_further j n ps :
    climbs g class_filter i j ->
    parents g j class_filter = Ok ps -> In n ps ->
    climbs g class_filter i (node_id n).
End GraphClimb.

(** Vocabulary for the onsets of notes that follow one another. *)
Module WalkChain.
Import Py Onsets.
Local Open Scope Q_scope.

(** The precedence nodes of a row of notes with the durations [ds],
    numbered from [i] on: each note precedes the next one. *)
Fixpoint chain_from (i : Z) (first : bool) (ds : list Q)
  : dict PrecedenceGraphNode :=
  match ds with
  | [] => []
  | d :: t =>
      (i, mkPNode (Some i) i
                  (if first then [] else [i - 1])
                  (match t with [] => [] | _ => [i + 1] end)
                  None d)%Z
      :: chain_from (i + 1) false t
  end.

Definition chain (ds : list Q) : dict PrecedenceGraphNode :=
  chain_from 1 true ds.

(** The running sums of the durations: note [i] starts at [o], the
    next one at [o] plus the duration of note [i], and so on. *)
Fixpoint running (i : Z) (o : Q) (ds : list Q) : dict Q :=
  match ds with
  | [] => []
  | d :: t => (i, o) :: running (i + 1) (o + d) t
  end.
End WalkChain.

(** * Properties *)

Import Py.

Section MonadFacts.
Context {S : Type}.

Lemma post_ret {A} (a : A) (s : S) Q : Q (Ok a) s -> post (ret a) s Q.
Proof. exact (fun H => H). Qed.

Lemma post_raise {A} e (s : S) (Q : result A -> S -> Prop) :
  Q (Raise e) s -> post (raise e) s Q.
Proof. exact (fun H => H). Qed.

Lemma post_lift {A} (r : result A) (s : S) Q : Q r s -> post (lift r) s Q.
Proof. exact (fun H => H). Qed.

Lemma post_bind {A B} (m : SE S A) (k : A -> SE S B) s Q :
  post m s (fun r s' => match r with
                        | Ok a => post (k a) s' Q
                        | Raise e => Q (Raise e) s'
                        end) ->
  post (bindS m k) s Q.
Proof.
  unfold post, bindS. destruct (m s) as [[a|e] s']; simpl; exact (fun H => H).
Qed.

Lemma post_weaken {A} (m : SE S A) s (Q Q' : result A -> S -> Prop) :
  post m s Q -> (forall r s', Q r s' -> Q' r s') -> post m s Q'.
Proof. unfold post. auto. Qed.

(** The rule for loops: [I rest] holds before the elements [rest] are
    processed, [E] when the loop is left by an exception. *)
Lemma post_for_each {A} (body : A -> SE S unit)
    (I : list A -> S -> Prop) (E : exn -> S -> Prop) :
  (forall x rest s, I (x :: rest) s ->
     post (body x) s (fun r s' => match r with
                                  | Ok _ => I rest s'
                                  | Raise e => E e s'
                                  end)) ->
  forall xs s, I xs s ->
    post (for_each xs body) s (fun r s' => match r with
                                           | Ok _ => I [] s'
                                           | Raise e => E e s'
                                           end).
Proof.
  intros Hbody. induction xs as [|x t IH]; intros s HI.
  - exact HI.
  - simpl. apply post_bind. eapply post_weaken; [apply Hbody, HI|].
    intros [[]|e] s' H; [apply IH, H|exact H].
Qed.
End MonadFacts.

Section SortedFacts.
Import Durations.
Context {A : Type} (le : A -> A -> bool).

Lemma insert_sorted_Forall (P : A -> Prop) x l :
  P x -> Forall P l -> Forall P (insert_sorted le x l).
Proof.
  intros Hx Hl. induction Hl as [|y t Hy Ht IH]; simpl.
  - constructor; [assumption|constructor].
  - destruct (le x y); repeat constructor; assumption.
Qed.

Lemma sorted_Forall (P : A -> Prop) l :
  Forall P l -> Forall P (sorted le l).
Proof.
  induction 1 as [|x t Hx Ht IH]; simpl; [constructor|].
  apply insert_sorted_Forall; assumption.
Qed.

Lemma insert_sorted_length x l :
  List.length (insert_sorted le x l) = S (List.length l).
Proof.
  induction l as [|y t IH]; simpl; [reflexivity|].
  destruct (le x y); simpl; [reflexivity|]. now rewrite IH.
Qed.

Lemma sorted_length l : List.length (sorted le l) = List.length l.
Proof.
  induction l as [|x t IH]; simpl; [reflexivity|].
  now rewrite insert_sorted_length, IH.
Qed.

Lemma insert_sorted_perm x l : Permutation (insert_sorted le x l) (x :: l).
Proof.
  induction l as [|y t IH]; simpl; [reflexivity|].
  destruct (le x y); [reflexivity|].
  rewrite IH. apply perm_swap.
Qed.

Lemma sorted_perm l : Permutation (sorted le l) l.
Proof.
  induction l as [|x t IH]; simpl; [reflexivity|].
  rewrite insert_sorted_perm. now constructor.
Qed.

Hypothesis le_total : forall x y, le x y = true \/ le y x = true.
Hypothesis le_trans : forall x y z, le x y = true -> le y z = true -> le x z = true.




End SortedFacts.

Section NumeralFacts.
Import Durations.

Lemma collect_Forall g f ids :
  Forall (fun n => str_in (class_name n) f = true)
         (Graph.collect g (Some f) ids).
Proof.
  induction ids as [|i t IH]; simpl; [constructor|].
  destruct (Graph.id_to_node_mapping g !! i) as [n|]; [|assumption].
  destruct (str_in (class_name n) f) eqn:E; [|assumption].
  constructor; assumption.
Qed.



Lemma numeral_has_digit s :
  str_in s Const.NUMERALS = true ->
  Const.digit_of s Const.numeral_to_digit = Some (digit_value s).
Proof.
  unfold digit_value. intros H.
  destruct (Const.digit_of s Const.numeral_to_digit) eqn:E; [reflexivity|].
  exfalso. revert H E. unfold str_in, Const.NUMERALS, Const.numeral_to_digit.
  simpl.
  repeat (destruct (String.eqb s _); [discriminate|]). simpl. discriminate.
Qed.

Lemma interpret_loop_numerals names : forall acc,
  Forall (fun s => str_in s Const.NUMERALS = true) names ->
  Const.interpret_loop names acc =
  Some (fold_left (fun a d => a * 10 + d) (map digit_value names) acc).
Proof.
  induction names as [|s t IH]; intros acc Hall; [reflexivity|].
  inversion Hall as [|? ? Hs Ht]; subst.
  cbn [Const.interpret_loop map fold_left].
  rewrite (numeral_has_digit s Hs). apply IH; assumption.
Qed.

Lemma interpret_numerals_reading (numerals : list Node) :
  Forall (fun n => str_in (class_name n) Const.NUMERALS = true) numerals ->
  interpret_numerals numerals =
  Ok (match numerals with
      | [] => None
      | _ => Some (decimal (map digit_value
                      (map class_name (sorted by_left numerals))))
      end).
Proof.
  intros Hall. unfold interpret_numerals.
  assert (Hb : forallb (fun n => str_in (class_name n) Const.NUMERALS) numerals = true).
  { apply forallb_forall. intros n Hn. rewrite List.Forall_forall in Hall. auto. }
  rewrite Hb. f_equal.
  destruct numerals as [|n0 t]; [reflexivity|].
  unfold Const.interpret.
  assert (Hlen : List.length (map class_name (sorted by_left (n0 :: t))) = S (List.length t)).
  { rewrite length_map, sorted_length. reflexivity. }
  destruct (map class_name (sorted by_left (n0 :: t))) as [|s ss] eqn:E; [discriminate|].
  rewrite <- E. unfold decimal. apply interpret_loop_numerals.
  apply Forall_map. apply sorted_Forall. assumption.
Qed.

End NumeralFacts.

Section DurationFacts.
Import Durations.
Local Open Scope Q_scope.








End DurationFacts.


(** The examples of the specification: one dot gives 3/2, two dots give
    7/4, and an undotted note outside a tuple keeps its value. *)
Example dot_modifier_values :
  (Durations.dot_loop [tt] 0 1 == 3 # 2)%Q /\
  (Durations.dot_loop [tt; tt] 0 1 == 7 # 4)%Q /\
  (Durations.dot_loop (@nil unit) 0 1 == 1)%Q.
Proof. repeat split; reflexivity. Qed.

Section PitchFacts.
Import Pitch.

Lemma init_g_clef (c : Node) :
  class_name c = Const.G_CLEF ->
  init_base_pitch init (Some c) 0 =
  Ok {| base_pitch := Some 71; base_pitch_step := Some 6;
        base_pitch_octave := Some 4; current_clef := Some c;
        current_delta_steps := Some [0; 1; 2; 2; 1; 2; 2; 2];
        current_clef_delta_shift := 0;
        key_accidentals := []; inline_accidentals := [] |}.
Proof.
  intros Hc. unfold init_base_pitch, init_base_pitch_default_staffline, clef_table.
  rewrite Hc. reflexivity.
Qed.

(** C9. A state initialised for a G-clef in its default position, with
    no key signature and no inline accidentals, gives pitch 71 for
    delta 0; once a sharp is registered as key accidental for the step
    class of delta 0, directly or by a key signature of seven sharps,
    it gives 72. *)
Theorem pitch_center_line_g_clef (c : Node) :
  class_name c = Const.G_CLEF ->
  exists s,
    init_base_pitch init (Some c) 0 = Ok s /\
    key_accidentals s = [] /\ inline_accidentals s = [] /\
    current_clef_delta_shift s = 0 /\
    pitch s 0 = Ok 71 /\
    pitch (with_key_accidentals s
             (dict_set (0 mod 7) "sharp" (key_accidentals s))) 0 = Ok 72 /\
    (exists s7, set_key s 7 0 = Ok s7 /\
                dict_get (0 mod 7) (key_accidentals s7) = Some "sharp" /\
                pitch s7 0 = Ok 72).
Proof.
  intros Hc. eexists. split; [apply (init_g_clef c Hc)|].
  repeat split; try reflexivity.
  unfold set_key; cbn. unfold key_deltas. cbn. rewrite Hc. cbn.
  eexists; split; [reflexivity|]. split; reflexivity.
Qed.

(** The staff sweep starts from [init_base_pitch()] without a clef,
    which is read as a G-clef. *)
Example pitch_center_line_no_clef :
  exists s, init_base_pitch init None 0 = Ok s /\ pitch s 0 = Ok 71.
Proof. eexists. split; reflexivity. Qed.
End PitchFacts.

Lemma pitch_center_line_g_clef_witness :
  exists s,
    Pitch.init_base_pitch Pitch.init
      (Some (Examples.node 1 "gClef" [] [7])) 0 = Ok s /\
    Pitch.pitch s 0 = Ok 71 /\
    Pitch.pitch (Pitch.with_key_accidentals s
                   (dict_set (0 mod 7) "sharp" (Pitch.key_accidentals s))) 0
    = Ok 72.
Proof.
  destruct (pitch_center_line_g_clef (Examples.node 1 "gClef" [] [7]) eq_refl)
    as (s & H1 & _ & _ & _ & H2 & H3 & _).
  exists s. repeat split; assumption.
Defined.

Section TimeSignatureFacts.
Import Durations.
Variable dice : Node -> Node -> Q.

Lemma existsb_sorted {A} (le : A -> A -> bool) (p : A -> bool) l :
  existsb p l = false -> existsb p (sorted le l) = false.
Proof.
  intros H.
  destruct (existsb p (sorted le l)) eqn:E; [|reflexivity].
  apply existsb_exists in E. destruct E as (x & Hx & Hp).
  apply (Permutation_in _ (sorted_perm le l)) in Hx.
  assert (existsb p l = true) by (apply existsb_exists; eauto). congruence.
Qed.

(** A member of a time signature is never the separator glyph: the
    members are collected under a class filter that leaves it out. *)
Lemma members_without_letter_other g ts cs :
  Graph.children g ts (Some Const.TIME_SIGNATURE_MEMBERS) = Ok cs ->
  List.filter (fun m => String.eqb (class_name m) Const.LETTER_OTHER)
              (sorted by_top cs) = [].
Proof.
  intros Hc.
  assert (Hall : Forall (fun n => str_in (class_name n) Const.TIME_SIGNATURE_MEMBERS = true)
                        (sorted by_top cs)).
  { apply sorted_Forall. unfold Graph.children in Hc.
    destruct (Graph.id_to_node_mapping g !! ts); [|discriminate].
    injection Hc as <-. apply collect_Forall. }
  induction Hall as [|m t Hm Ht IH]; [reflexivity|]. simpl.
  destruct (String.eqb_spec (class_name m) Const.LETTER_OTHER) as [E|_]; [|exact IH].
  rewrite E in Hm. vm_compute in Hm. discriminate.
Qed.

Lemma overlaps_nonempty (members : list Node) :
  (2 <= List.length members)%nat -> vertical_overlaps dice members <> [].
Proof.
  destruct members as [|m1 [|m2 t]]; simpl; try lia. intros _.
  unfold vertical_overlaps, drop_last. simpl. discriminate.
Qed.

(** C3. Called without a threshold, [interpret_time_signature] raises
    [TypeError] on every time signature that has at least two members
    and no common or cut-common glyph: the least overlap is compared
    with [None]. *)
Theorem interpret_time_signature_default_raises g (ts : Node) cs :
  Graph.children g (node_id ts) (Some Const.TIME_SIGNATURE_MEMBERS) = Ok cs ->
  (2 <= List.length cs)%nat ->
  existsb (fun m => String.eqb (class_name m) Const.TIME_SIG_COMMON) cs = false ->
  existsb (fun m => String.eqb (class_name m) Const.TIME_SIG_CUT_COMMON) cs = false ->
  interpret_time_signature_default dice g ts = Raise TypeError.
Proof.
  intros Hc Hlen Hw Hb.
  unfold interpret_time_signature_default, interpret_time_signature.
  rewrite Hc. cbn [bind].
  pose proof (sorted_length by_top cs) as Hsl.
  pose proof (existsb_sorted by_top _ cs Hw) as Hw'.
  pose proof (existsb_sorted by_top _ cs Hb) as Hb'.
  pose proof (members_without_letter_other g (node_id ts) cs Hc) as Hlo.
  assert (Hne : vertical_overlaps dice (sorted by_top cs) <> []).
  { apply overlaps_nonempty. rewrite sorted_length. exact Hlen. }
  destruct (sorted by_top cs) as [|m0 ms] eqn:Es.
  { simpl in Hsl. lia. }
  rewrite Hw', Hb'. cbn [orb]. unfold is_fraction_like_of.
  assert (Hl2 : (List.length (m0 :: ms) <? 2)%nat = false).
  { apply Nat.ltb_ge. rewrite Hsl. exact Hlen. }
  rewrite Hlo, Hl2. cbn [List.length Nat.ltb Nat.leb].
  unfold py_min. destruct (vertical_overlaps dice (m0 :: ms)); [congruence|].
  reflexivity.
Qed.

(** With an explicit threshold the same signatures are fraction-like
    exactly when the least pairwise overlap is below it. *)
Lemma is_fraction_like_with_threshold g ts cs (t : Q) :
  Graph.children g ts (Some Const.TIME_SIGNATURE_MEMBERS) = Ok cs ->
  (2 <= List.length cs)%nat ->
  exists least,
    py_min (vertical_overlaps dice (sorted by_top cs)) = Ok least /\
    is_fraction_like_of dice (sorted by_top cs) (Some t) =
    Ok (if Qlt_le_dec least t then true else false).
Proof.
  intros Hc Hlen. unfold is_fraction_like_of.
  assert (Hl2 : (List.length (sorted by_top cs) <? 2)%nat = false).
  { apply Nat.ltb_ge. rewrite sorted_length. exact Hlen. }
  rewrite (members_without_letter_other g ts cs Hc), Hl2.
  cbn [List.length Nat.ltb Nat.leb].
  assert (Hne : vertical_overlaps dice (sorted by_top cs) <> []).
  { apply overlaps_nonempty. rewrite sorted_length. exact Hlen. }
  unfold py_min. destruct (vertical_overlaps dice (sorted by_top cs)); [congruence|].
  eexists. split; reflexivity.
Qed.

(** Fewer than two members: not fraction-like, whatever the threshold. *)
Lemma single_member_not_fraction_like g ts c threshold :
  Graph.children g ts (Some Const.TIME_SIGNATURE_MEMBERS) = Ok [c] ->
  is_fraction_like_of dice (sorted by_top [c]) threshold = Ok false.
Proof.
  intros Hc. unfold is_fraction_like_of.
  rewrite (members_without_letter_other g ts [c] Hc). reflexivity.
Qed.
End TimeSignatureFacts.

Lemma interpret_time_signature_default_raises_witness :
  Durations.interpret_time_signature_default Examples.constant_dice
    Examples.four_four
    (Examples.placed 10 "timeSignature" 0 0 22 10 [] [11; 12])
  = Raise TypeError.
Proof.
  apply (interpret_time_signature_default_raises Examples.constant_dice
           Examples.four_four
           (Examples.placed 10 "timeSignature" 0 0 22 10 [] [11; 12])
           [Examples.placed 11 "numeral4" 0 0 10 10 [10] [];
            Examples.placed 12 "numeral4" 12 0 22 10 [10] []]).
  - vm_compute. reflexivity.
  - simpl. lia.
  - reflexivity.
  - reflexivity.
Defined.

(** The same time signature is read as 4 beats once the documented
    default threshold is passed explicitly. *)
Example four_four_with_explicit_threshold :
  Durations.interpret_time_signature
    (fun _ _ => 0%Q) Examples.four_four
    (Examples.placed 10 "timeSignature" 0 0 22 10 [] [11; 12])
    (Some Durations._DEFAULT_FRACTIONAL_VERTICAL_IOU_THRESHOLD)
  = Ok (inject_Z 16 / inject_Z 4)%Q.
Proof. vm_compute. reflexivity. Qed.

Section ClosureFacts.
Import Graph.

Lemma put_new_in_Queue ids queue :
  put_new in_Queue ids queue =
  match ids with [] => Ok queue | _ => Raise TypeError end.
Proof. destruct ids; reflexivity. Qed.

(** [descendants] raises [TypeError] as soon as the start node has a
    child that passes the filter. *)
Lemma descendants_raises_with_child fuel g i class_filter c cs :
  children g i class_filter = Ok (c :: cs) ->
  descendants (S fuel) g i class_filter = Some (Raise TypeError).
Proof.
  intros Hc. unfold descendants. cbn [closure_loop]. rewrite Hc.
  rewrite put_new_in_Queue. reflexivity.
Qed.

(** It returns, with no nodes, only for a start node without such
    children. *)
Lemma descendants_without_children fuel g i class_filter :
  children g i class_filter = Ok [] ->
  descendants (S (S fuel)) g i class_filter = Some (Ok []).
Proof.
  intros Hc. unfold descendants. cbn [closure_loop]. rewrite Hc.
  cbn [map put_new]. rewrite Z.eqb_refl. reflexivity.
Qed.

(** C2. On the graph with the single edge 1 --> 2, [descendants(1)]
    raises [TypeError] instead of returning node 2, whatever the fuel;
    [ancestors(2)] on the same graph returns node 1. *)
Theorem descendants_one_edge_raises :
  (forall fuel,
     descendants (S fuel) Examples.one_edge 1 None = Some (Raise TypeError)) /\
  ancestors 3 Examples.one_edge 2 None
  = Some (Ok [Examples.node 1 "staff" [] [2]]).
Proof.
  split.
  - intros fuel.
    apply (descendants_raises_with_child fuel Examples.one_edge 1 None
             (Examples.node 2 "staffLine" [1] []) []).
    vm_compute. reflexivity.
  - vm_compute. reflexivity.
Qed.

(** [ancestors] only skips a parent that is waiting in the queue at
    that moment: a node reached again after it was taken out is listed
    once more. *)
Example ancestors_lists_a_node_twice :
  ancestors 10 Examples.uneven_diamond 5 None
  = Some (Ok [Examples.node 2 "b" [1] [5]; Examples.node 4 "d" [3] [5];
              Examples.node 1 "a" [] [2; 3]; Examples.node 3 "c" [1] [4];
              Examples.node 1 "a" [] [2; 3]]).
Proof. vm_compute. reflexivity. Qed.
End ClosureFacts.

Section WalkFacts.
Import Onsets.
Local Open Scope Q_scope.

Lemma max_from_ge l : forall m,
  m <= max_from m l /\ Forall (fun x => x <= max_from m l) l.
Proof.
  induction l as [|x t IH]; intros m; simpl.
  - split; [apply Qle_refl|constructor].
  - destruct (Qlt_le_dec m x) as [Hlt|Hle].
    + destruct (IH x) as [H1 H2]. split; [|constructor; assumption].
      eapply Qle_trans; [apply Qlt_le_weak; exact Hlt|exact H1].
    + destruct (IH m) as [H1 H2]. split; [assumption|constructor; [|assumption]].
      eapply Qle_trans; eassumption.
Qed.

Lemma max_from_in l : forall m, In (max_from m l) (m :: l).
Proof.
  induction l as [|x t IH]; intros m; simpl; [now left|].
  destruct (Qlt_le_dec m x).
  - destruct (IH x) as [H|H]; [right; left; exact H|right; right; exact H].
  - destruct (IH m) as [H|H]; [left; exact H|right; right; exact H].
Qed.

Lemma min_from_le l : forall m,
  min_from m l <= m /\ Forall (fun x => min_from m l <= x) l.
Proof.
  induction l as [|x t IH]; intros m; simpl.
  - split; [apply Qle_refl|constructor].
  - destruct (Qlt_le_dec x m) as [Hlt|Hle].
    + destruct (IH x) as [H1 H2]. split; [|constructor; assumption].
      eapply Qle_trans; [exact H1|apply Qlt_le_weak; exact Hlt].
    + destruct (IH m) as [H1 H2]. split; [assumption|constructor; [|assumption]].
      eapply Qle_trans; eassumption.
Qed.

(** When the least and the largest candidate coincide, every
    candidate has that value. *)
Lemma all_agree p0 ps :
  min_from p0 ps == max_from p0 ps ->
  Forall (fun x => x == p0) (p0 :: ps).
Proof.
  intros Heq.
  destruct (min_from_le ps p0) as [Hm1 Hm2].
  destruct (max_from_ge ps p0) as [HM1 HM2].
  assert (H0 : max_from p0 ps == p0).
  { apply Qle_antisym; [rewrite <- Heq; exact Hm1|exact HM1]. }
  constructor; [reflexivity|].
  rewrite List.Forall_forall in *. intros x Hx.
  apply Qle_antisym.
  - rewrite <- H0. apply HM2, Hx.
  - rewrite <- H0, <- Heq. apply Hm2, Hx.
Qed.

Lemma candidates_computed ps ids cands :
  candidates_of ps ids cands ->
  exists os ds,
    prec_onsets_of ps ids = Ok os /\ has_None os = false /\
    prec_durations_of ps ids = Ok ds /\ proposals os ds = cands.
Proof.
  induction 1 as [|i c ids cands (pq & o & Hg & Ho & Hc) _ (os & ds & H1 & H2 & H3 & H4)].
  - exists [], []. repeat split; reflexivity.
  - exists (Some o :: os), (duration pq :: ds). simpl.
    rewrite Hg, H1, H3. simpl. rewrite Ho. repeat split; try assumption.
    simpl. rewrite H4, Hc. reflexivity.
Qed.
End WalkFacts.

Section WalkStep.
Import Onsets.
Local Open Scope Q_scope.

Lemma dict_get_set_eq {V} (k : Z) (v : V) (d : dict V) :
  dict_get k (dict_set k v d) = Some v.
Proof.
  induction d as [|[k' v'] t IH]; simpl.
  - now rewrite Z.eqb_refl.
  - destruct (Z.eqb k k') eqn:E; simpl; rewrite ?Z.eqb_refl, ?E; auto.
Qed.

Lemma dict_get_set_ne {V} (k j : Z) (v : V) (d : dict V) :
  k <> j -> dict_get j (dict_set k v d) = dict_get j d.
Proof.
  intros Hne. induction d as [|[k' v'] t IH]; simpl.
  - destruct (Z.eqb_spec j k); [congruence|reflexivity].
  - destruct (Z.eqb_spec k k') as [->|Hkk']; simpl.
    + destruct (Z.eqb_spec j k'); [congruence|reflexivity].
    + destruct (Z.eqb_spec j k'); [reflexivity|exact IH].
Qed.

Lemma step_carried strategy s q_id q id o :
  dequeued s q_id q id -> onset q = Some o ->
  step strategy s =
  if Qlt_le_dec 0 o then Break (after_enqueue s q)
  else Continue
         (mkWalk (p_nodes s) (enqueue_new (outlinks q) (queue s))
                 (S (qstart s)) (dict_set id o (onsets s))
                 (delayed_prec_nodes s) (onset_beats s) (warnings s)).
Proof.
  intros (Hq & Hg & Hobj & Hall) Ho.
  unfold step. rewrite Hq, Hg, Hobj. cbn [set_queue p_nodes qstart queue].
  rewrite Hall. cbn [negb]. rewrite Ho. reflexivity.
Qed.

Lemma dict_get_map_values {V} (h : Z * V -> Z * V) (d : dict V) i :
  (forall kv, fst (h kv) = fst kv) ->
  dict_get i (map h d)
  = option_map (fun v => snd (h (i, v))) (dict_get i d).
Proof.
  intros Hh. induction d as [|[k v] t IH]; simpl; [reflexivity|].
  specialize (Hh (k, v)). destruct (h (k, v)) as [k' v'] eqn:E.
  simpl in Hh. subst k'.
  destruct (Z.eqb_spec i k) as [->|_]; [simpl; now rewrite E|exact IH].
Qed.

Lemma dict_get_In {V} (d : dict V) i v :
  dict_get i d = Some v -> In (i, v) d.
Proof.
  induction d as [|[k w] t IH]; simpl; [discriminate|].
  destruct (Z.eqb_spec i k) as [->|_].
  - intros [= ->]. now left.
  - intros H. right. auto.
Qed.

Lemma NoDup_keys_unique {V} (d : dict V) i v w :
  List.NoDup (dict_keys d) -> In (i, v) d -> In (i, w) d -> v = w.
Proof.
  unfold dict_keys. induction d as [|[k u] t IH]; simpl; [tauto|].
  intros Hnd. apply List.NoDup_cons_iff in Hnd as [Hk Hnd].
  intros [Hv|Hv] [Hw|Hw].
  - congruence.
  - exfalso. apply Hk. injection Hv as -> _.
    apply (in_map fst) in Hw. exact Hw.
  - exfalso. apply Hk. injection Hw as -> _.
    apply (in_map fst) in Hv. exact Hv.
  - auto.
Qed.

Lemma z_in_In x l : z_in x l = true <-> In x l.
Proof.
  unfold z_in. rewrite existsb_exists. split.
  - intros (y & Hy & E). apply Z.eqb_eq in E. now subst.
  - intros H. exists x. split; [assumption|apply Z.eqb_refl].
Qed.

Lemma source_nodes_spec ps i n :
  List.NoDup (dict_keys ps) -> dict_get i ps = Some n ->
  z_in i (source_nodes ps) = is_root n.
Proof.
  intros Hnd Hg. apply dict_get_In in Hg.
  destruct (is_root n) eqn:E.
  - apply z_in_In. unfold source_nodes. apply in_map_iff.
    exists (i, n). split; [reflexivity|]. apply filter_In. split; [assumption|].
    exact E.
  - destruct (z_in i (source_nodes ps)) eqn:Z; [|reflexivity].
    apply z_in_In in Z. unfold source_nodes in Z. apply in_map_iff in Z.
    destruct Z as ([k m] & Hk & Hm). simpl in Hk. subst k.
    apply filter_In in Hm as [Hm Hr]. simpl in Hr.
    assert (m = n) by (eapply NoDup_keys_unique; eassumption). subst m.
    unfold is_root in E. congruence.
Qed.

(** Seeding: in the state the loop starts from, exactly the nodes
    without inlinks carry the onset 0; the other nodes are as the
    precedence graph has them. *)
Lemma seeding ps i n :
  List.NoDup (dict_keys ps) -> dict_get i ps = Some n ->
  dict_get i (p_nodes (initial_state ps))
  = Some (if is_root n then with_onset n (Some 0) else n).
Proof.
  intros Hnd Hg. unfold initial_state. cbn [p_nodes]. unfold seed.
  rewrite dict_get_map_values.
  - rewrite Hg. simpl. rewrite (source_nodes_spec ps i n Hnd Hg).
    destruct (is_root n); reflexivity.
  - intros [k v]. simpl. destruct (z_in k (source_nodes ps)); reflexivity.
Qed.

(** One turn of the loop on a node that carries an onset, in any
    state: an onset which is not positive is recorded in the result
    table and the walk goes on; the guard on a positive onset halts
    the walk and nothing is recorded for the node.  Only the nodes
    without inlinks are seeded, with onset 0. *)
Lemma carried_onset_turn strategy s q_id q id o :
  dequeued s q_id q id -> onset q = Some o ->
  (~ 0 < o ->
     records_and_continues strategy s id o /\
     exists s', step strategy s = Continue s' /\
                onsets s' = dict_set id o (onsets s) /\
                p_nodes s' = p_nodes s /\
                queue s' = enqueue_new (outlinks q) (queue s) /\
                qstart s' = S (qstart s)) /\
  (0 < o ->
     ~ records_and_continues strategy s id o /\
     exists s', step strategy s = Break s' /\ onsets s' = onsets s) /\
  (forall ps i n,
      List.NoDup (dict_keys ps) -> dict_get i ps = Some n ->
      dict_get i (p_nodes (initial_state ps))
      = Some (if is_root n then with_onset n (Some 0) else n)).
Proof.
  intros Hd Ho. pose proof (step_carried strategy s q_id q id o Hd Ho) as Hs.
  split; [|split].
  - intros Hn. destruct (Qlt_le_dec 0 o) as [Hlt|_]; [contradiction|].
    split.
    + eexists. split; [exact Hs|]. cbn [onsets]. apply dict_get_set_eq.
    + eexists. split; [exact Hs|]. repeat split.
  - intros Hp. destruct (Qlt_le_dec 0 o) as [_|Hle].
    + split.
      * intros (s' & Hc & _). rewrite Hs in Hc. discriminate.
      * eexists. split; [exact Hs|]. reflexivity.
    + exfalso. eapply Qlt_not_le; eassumption.
  - intros ps i n. apply seeding.
Qed.

Lemma step_resolving strategy s q_id q id cands p0 ps :
  dequeued s q_id q id -> onset q = None ->
  Onsets.candidates_of (p_nodes s) (inlinks q) cands -> cands = p0 :: ps ->
  step strategy s =
  if negb (Qeq_bool (min_from p0 ps) (max_from p0 ps)) then
    if permissive_desynchronization strategy
    then Continue (resolved s q_id q id (max_from p0 ps) (warnings s ++ [id]))
    else Raised ValueError (after_enqueue s q)
  else Continue (resolved s q_id q id p0 (warnings s)).
Proof.
  intros (Hq & Hg & Hobj & Hall) Ho Hc ->.
  destruct (candidates_computed _ _ _ Hc) as (os & ds & H1 & H2 & H3 & H4).
  unfold step. rewrite Hq, Hg, Hobj. cbn [set_queue p_nodes qstart queue].
  rewrite Hall. cbn [negb]. rewrite Ho, H1, H2, H3, H4. reflexivity.
Qed.

Lemma min_from_in l : forall m, In (min_from m l) (m :: l).
Proof.
  induction l as [|x t IH]; intros m; simpl; [now left|].
  destruct (Qlt_le_dec x m).
  - destruct (IH x) as [H|H]; [right; left; exact H|right; right; exact H].
  - destruct (IH m) as [H|H]; [left; exact H|right; right; exact H].
Qed.

Lemma agree_min_max p0 ps :
  Forall (fun c => c == p0) (p0 :: ps) ->
  min_from p0 ps == max_from p0 ps.
Proof.
  intros Hall. rewrite List.Forall_forall in Hall.
  rewrite (Hall _ (min_from_in ps p0)), (Hall _ (max_from_in ps p0)).
  reflexivity.
Qed.

(** C5. A node without an onset whose predecessors are all resolved
    gets its candidates, predecessor onset plus predecessor duration.
    When they all agree, the node is given the common value.  When
    they disagree, the permissive policy (the default) gives it the
    largest candidate and logs a warning, and the strict policy raises
    [ValueError]. *)
Theorem desynchronised_candidates_policy strategy s q_id q id cands p0 ps :
  dequeued s q_id q id -> onset q = None ->
  Onsets.candidates_of (p_nodes s) (inlinks q) cands -> cands = p0 :: ps ->
  (Forall (fun c => c == p0) cands ->
     step strategy s = Continue (resolved s q_id q id p0 (warnings s))) /\
  (~ Forall (fun c => c == p0) cands ->
     let hi := max_from p0 ps in
     In hi cands /\ Forall (fun c => c <= hi) cands /\
     (permissive_desynchronization strategy = true ->
        step strategy s
        = Continue (resolved s q_id q id hi (warnings s ++ [id]))) /\
     (permissive_desynchronization strategy = false ->
        step strategy s = Raised ValueError (after_enqueue s q))) /\
  permissive_desynchronization default_strategy = true.
Proof.
  intros Hd Ho Hc Hcs.
  pose proof (step_resolving strategy s q_id q id cands p0 ps Hd Ho Hc Hcs) as Hs.
  subst cands. split; [|split; [|reflexivity]].
  - intros Hall. apply agree_min_max in Hall.
    apply Qeq_bool_iff in Hall. rewrite Hall in Hs. exact Hs.
  - intros Hdis hi.
    assert (Hne : Qeq_bool (min_from p0 ps) (max_from p0 ps) = false).
    { destruct (Qeq_bool (min_from p0 ps) (max_from p0 ps)) eqn:E; [|reflexivity].
      exfalso. apply Hdis. apply all_agree. apply Qeq_bool_iff. exact E. }
    rewrite Hne in Hs. cbn [negb] in Hs.
    split; [apply max_from_in|]. split.
    + destruct (max_from_ge ps p0) as [H1 H2]. constructor; assumption.
    + split; intros Hp; rewrite Hp in Hs; exact Hs.
Qed.
End WalkStep.

(** The guard on a positive carried onset, on a state written by hand
    (no run of [onsets()] on fresh precedence nodes reaches one like
    it): node 2 carries the onset 1 when it is taken from the queue,
    and the walk neither records it nor goes on. *)
Example guard_on_positive_onset :
  Onsets.dequeued WalkExamples.carried_positive 2
    (WalkExamples.pn 2 [1] [3] (Some 1%Q) 1%Q) 2 /\
  ~ Onsets.records_and_continues Onsets.default_strategy
      WalkExamples.carried_positive 2 1%Q.
Proof.
  split; [repeat split|].
  intros (s' & Hs & _). vm_compute in Hs. discriminate.
Qed.

Lemma desynchronised_candidates_policy_witness :
  Onsets.step Onsets.default_strategy WalkExamples.converging_disagree
  = Onsets.Continue
      (Onsets.resolved WalkExamples.converging_disagree 3
         (WalkExamples.pn 3 [1; 2] [] None 1%Q) 3 3%Q [3]) /\
  Onsets.step WalkExamples.strict_strategy WalkExamples.converging_disagree
  = Onsets.Raised ValueError
      (Onsets.after_enqueue WalkExamples.converging_disagree
         (WalkExamples.pn 3 [1; 2] [] None 1%Q)).
Proof.
  assert (Hd : Onsets.dequeued WalkExamples.converging_disagree 3
                 (WalkExamples.pn 3 [1; 2] [] None 1%Q) 3).
  { repeat split. }
  assert (Hc : Onsets.candidates_of (Onsets.p_nodes WalkExamples.converging_disagree)
                 [1; 2] [(0 + 1)%Q; (2 + 1)%Q]).
  { repeat constructor.
    - exists (WalkExamples.pn 1 [] [3] (Some 0%Q) 1%Q), 0%Q. repeat split.
    - exists (WalkExamples.pn 2 [] [3] (Some 2%Q) 1%Q), 2%Q. repeat split. }
  assert (Hdis : ~ Forall (fun c => (c == 0 + 1)%Q) [(0 + 1)%Q; (2 + 1)%Q]).
  { intros H. inversion H as [|? ? _ H2]; subst.
    inversion H2 as [|? ? H3 _]; subst. vm_compute in H3. discriminate. }
  split.
  - exact (proj1 (proj2 (proj2
      (proj1 (proj2 (desynchronised_candidates_policy Onsets.default_strategy
                       _ _ _ _ _ _ _ Hd eq_refl Hc eq_refl)) Hdis))) eq_refl).
  - exact (proj2 (proj2 (proj2
      (proj1 (proj2 (desynchronised_candidates_policy WalkExamples.strict_strategy
                       _ _ _ _ _ _ _ Hd eq_refl Hc eq_refl)) Hdis))) eq_refl).
Defined.

(** The examples of the specification: agreeing candidates 1+1 and 2+0
    give the onset 2; three notes of one beat in a row start at 0, 1, 2. *)
Example converging_agree_resolves :
  Onsets.step Onsets.default_strategy WalkExamples.converging_agree
  = Onsets.Continue
      (Onsets.resolved WalkExamples.converging_agree 3
         (WalkExamples.pn 3 [1; 2] [] None 1%Q) 3 (1 + 1)%Q []).
Proof. reflexivity. Qed.

Example monophonic_chain_onsets :
  Onsets.onsets_from 10 Onsets.default_strategy WalkExamples.monophonic_chain
  = Some (Ok [(1, 0%Q); (2, (0 + 1)%Q); (3, (0 + 1 + 1)%Q)]).
Proof. reflexivity. Qed.


Section WalkRuns.
Import Onsets.
Local Open Scope Q_scope.

(** What [enqueue_new] appends: ids that the queue did not hold, each
    once. *)
Lemma enqueue_new_appends posts : forall queue,
  exists extra,
    enqueue_new posts queue = queue ++ extra /\
    List.NoDup extra /\ forall x, In x extra -> ~ In x queue.
Proof.
  induction posts as [|p t IH]; intros queue; simpl.
  - exists []. rewrite app_nil_r. split; [reflexivity|].
    split; [constructor|]. intros x [].
  - destruct (z_in p queue) eqn:E.
    + apply IH.
    + destruct (IH (queue ++ [p])) as (extra & He & Hnd & Hdis).
      exists (p :: extra). split; [rewrite He, <- app_assoc; reflexivity|].
      split.
      * constructor; [|exact Hnd]. intros Hin.
        apply (Hdis p Hin). apply in_or_app. right. now left.
      * intros x [<-|Hx].
        -- intros Hin. apply z_in_In in Hin. congruence.
        -- intros Hin. apply (Hdis x Hx). apply in_or_app. now left.
Qed.

Lemma advance (queue : list Z) n q_id extra :
  nth_error queue n = Some q_id ->
  skipn n queue = q_id :: skipn (S n) queue /\
  skipn (S n) (queue ++ extra) = skipn (S n) queue ++ extra /\
  firstn (S n) (queue ++ extra) = firstn n queue ++ [q_id].
Proof.
  revert n. induction queue as [|x t IH]; intros [|n] H; simpl in H;
    try discriminate.
  - injection H as ->. repeat split.
  - destruct (IH n H) as (H1 & H2 & H3). repeat split.
    + exact H1.
    + exact H2.
    + change (x :: firstn (S n) (t ++ extra) = x :: firstn n t ++ [q_id]).
      now rewrite H3.
Qed.

Lemma In_skipn_In {A} n (l : list A) x : In x (skipn n l) -> In x l.
Proof.
  intros H. rewrite <- (List.firstn_skipn n l). apply in_or_app. now right.
Qed.

Lemma In_firstn_In {A} n (l : list A) x : In x (firstn n l) -> In x l.
Proof.
  intros H. rewrite <- (List.firstn_skipn n l). apply in_or_app. now left.
Qed.

(** One turn of the loop from a settled state, in the shape the three
    continuing branches share. *)
Lemma settled_turn s q_id extra tail ps' :
  settled s ->
  nth_error (queue s) (qstart s) = Some q_id ->
  List.NoDup extra -> (forall x, In x extra -> ~ In x (queue s)) ->
  (tail = [] \/ tail = [q_id]) ->
  (forall i n o, dict_get i ps' = Some n -> onset n = Some o -> ~ o == 0 ->
     (i = q_id /\ tail = []) \/
     (i <> q_id /\ exists n0, dict_get i (p_nodes s) = Some n0 /\
                              onset n0 = Some o)) ->
  forall s',
    p_nodes s' = ps' -> queue s' = (queue s ++ extra) ++ tail ->
    qstart s' = S (qstart s) -> settled s'.
Proof.
  intros [Hnd Hpos] Hq Hex Hdis Htail Hps s' E1 E2 E3.
  unfold settled, pending, processed in *. rewrite E1, E2, E3.
  destruct (advance (queue s) (qstart s) q_id extra Hq) as (A1 & A2 & A3).
  assert (A4 : skipn (S (qstart s)) ((queue s ++ extra) ++ tail)
               = (skipn (S (qstart s)) (queue s) ++ extra) ++ tail).
  { rewrite List.skipn_app, A2.
    replace (S (qstart s) - List.length (queue s ++ extra))%nat with 0%nat.
    - reflexivity.
    - pose proof (proj1 (List.nth_error_Some (queue s) (qstart s))) as Hl.
      rewrite Hq in Hl. specialize (Hl ltac:(discriminate)).
      rewrite length_app. lia. }
  assert (A5 : firstn (S (qstart s)) ((queue s ++ extra) ++ tail)
               = firstn (qstart s) (queue s) ++ [q_id]).
  { rewrite List.firstn_app, A3.
    replace (S (qstart s) - List.length (queue s ++ extra))%nat with 0%nat.
    - simpl. now rewrite app_nil_r.
    - pose proof (proj1 (List.nth_error_Some (queue s) (qstart s))) as Hl.
      rewrite Hq in Hl. specialize (Hl ltac:(discriminate)).
      rewrite length_app. lia. }
  rewrite A4, A5. rewrite A1 in Hnd, Hpos.
  apply List.NoDup_cons_iff in Hnd as [Hhead Hrest].
  assert (Hqq : In q_id (queue s)) by (eapply nth_error_In; exact Hq).
  split.
  - apply List.NoDup_app.
    + apply List.NoDup_app; [exact Hrest|exact Hex|].
      intros a Ha Hb. apply (Hdis a Hb). eapply In_skipn_In; exact Ha.
    + destruct Htail as [->| ->]; [constructor|].
      constructor; [intros []|constructor].
    + intros a Ha Hb. destruct Htail as [->| ->]; [destruct Hb|].
      destruct Hb as [<-|[]].
      apply in_app_or in Ha as [Ha|Ha]; [exact (Hhead Ha)|].
      exact (Hdis _ Ha Hqq).
  - intros i n o Hi Ho Hne.
    destruct (Hps i n o Hi Ho Hne) as [[-> ->]|(Hiq & n0 & Hi0 & Ho0)].
    + split; [apply in_or_app; right; now left|].
      rewrite app_nil_r. intros Ha.
      apply in_app_or in Ha as [Ha|Ha]; [exact (Hhead Ha)|].
      exact (Hdis _ Ha Hqq).
    + destruct (Hpos i n0 o Hi0 Ho0 Hne) as [Hin Hnot].
      split; [apply in_or_app; now left|].
      intros Ha. apply in_app_or in Ha as [Ha|Ha].
      * apply in_app_or in Ha as [Ha|Ha].
        -- apply Hnot. now right.
        -- apply (Hdis _ Ha). eapply In_firstn_In; exact Hin.
      * destruct Htail as [->| ->]; [destruct Ha|].
        destruct Ha as [<-|[]]. now apply Hiq.
Qed.

Lemma waiting_head s q_id :
  nth_error (queue s) (qstart s) = Some q_id -> In q_id (pending s).
Proof.
  intros Hq. unfold pending.
  destruct (advance (queue s) (qstart s) q_id [] Hq) as (-> & _). now left.
Qed.

Lemma settled_nodes_stay s q_id :
  settled s -> nth_error (queue s) (qstart s) = Some q_id ->
  forall i n o,
    dict_get i (p_nodes s) = Some n -> onset n = Some o -> ~ o == 0 ->
    i <> q_id /\ exists n0, dict_get i (p_nodes s) = Some n0 /\
                            onset n0 = Some o.
Proof.
  intros Hs Hq i n o Hi Ho Hne. split; [|eauto].
  intros ->. destruct (proj2 Hs q_id n o Hi Ho Hne) as [_ Hnot].
  apply Hnot, waiting_head, Hq.
Qed.

(** A turn of the loop that goes on keeps the state settled. *)
Lemma settled_step strategy s s' :
  settled s -> step strategy s = Continue s' -> settled s'.
Proof.
  intros Hs. unfold step.
  destruct (nth_error (queue s) (qstart s)) as [q_id|] eqn:Hq; [|discriminate].
  destruct (dict_get q_id (p_nodes s)) as [q|] eqn:Hg; [|discriminate].
  destruct (obj q) as [q_obj_id|]; [|discriminate].
  cbn [set_queue p_nodes queue qstart onsets delayed_prec_nodes onset_beats warnings].
  destruct (negb _); [discriminate|].
  destruct (enqueue_new_appends (outlinks q) (queue s)) as (extra & He & Hnd & Hdis).
  pose proof (settled_nodes_stay s q_id Hs Hq) as Hstay.
  destruct (onset q) as [o|] eqn:Ho.
  - destruct (Qlt_le_dec 0 o); [discriminate|]. intros [= <-].
    apply (settled_turn s q_id extra [] (p_nodes s) Hs Hq Hnd Hdis);
      [now left| |reflexivity| |reflexivity].
    + intros i n o' Hi Ho' Hne. right. eapply Hstay; eassumption.
    + cbn [queue]. rewrite He, app_nil_r. reflexivity.
  - destruct (prec_onsets_of (p_nodes s) (inlinks q)) as [prec_onsets|e];
      [|discriminate].
    destruct (has_None prec_onsets).
    + intros [= <-].
      apply (settled_turn s q_id extra [q_id] (p_nodes s) Hs Hq Hnd Hdis);
        [now right| |reflexivity| |reflexivity].
      * intros i n o' Hi Ho' Hne. right. eapply Hstay; eassumption.
      * cbn [queue]. rewrite He. reflexivity.
    + destruct (prec_durations_of (p_nodes s) (inlinks q)) as [prec_durations|e];
        [|discriminate].
      destruct (proposals prec_onsets prec_durations) as [|p0 ps]; [discriminate|].
      assert (Hassign : forall o w s1,
                s1 = mkWalk (dict_set q_id (with_onset q (Some o)) (p_nodes s))
                       (enqueue_new (outlinks q) (queue s)) (S (qstart s))
                       (dict_set q_obj_id o (onsets s)) (delayed_prec_nodes s)
                       (dict_set q_obj_id o (onset_beats s)) w ->
                settled s1).
      { intros o w s1 ->.
        apply (settled_turn s q_id extra []
                 (dict_set q_id (with_onset q (Some o)) (p_nodes s))
                 Hs Hq Hnd Hdis);
          [now left| |reflexivity| |reflexivity].
        - intros i n o' Hi Ho' Hne.
          destruct (Z.eq_dec i q_id) as [->|Hiq]; [left; now split|].
          right. rewrite dict_get_set_ne in Hi by congruence.
          eapply Hstay; eassumption.
        - cbn [queue]. rewrite He, app_nil_r. reflexivity. }
      cbv zeta.
      destruct (negb (Qeq_bool (min_from p0 ps) (max_from p0 ps))).
      * destruct (permissive_desynchronization strategy); [|discriminate].
        intros [= <-]. eapply Hassign. reflexivity.
      * intros [= <-]. eapply Hassign. reflexivity.
Qed.

Lemma NoDup_keys_filter {V} (f : Z * V -> bool) (d : dict V) :
  List.NoDup (dict_keys d) -> List.NoDup (map fst (List.filter f d)).
Proof.
  unfold dict_keys. induction d as [|kv t IH]; simpl; [constructor|].
  intros Hnd. apply List.NoDup_cons_iff in Hnd as [Hh Ht].
  destruct (f kv); [|auto]. simpl. constructor; [|auto].
  intros Hin. apply Hh. apply in_map_iff in Hin as (x & Hx & Hf).
  apply in_map_iff. exists x. split; [exact Hx|].
  apply List.filter_In in Hf. tauto.
Qed.

(** The state [onsets()] enters its loop with is settled, when the
    precedence nodes are fresh (no onset yet). *)
Lemma settled_initial ps :
  List.NoDup (dict_keys ps) ->
  (forall i n, dict_get i ps = Some n -> onset n = None) ->
  settled (initial_state ps).
Proof.
  intros Hnd Hfresh. split.
  - unfold pending, initial_state. cbn [qstart queue skipn].
    unfold initial_queue. apply List.NoDup_filter.
    unfold source_nodes. apply NoDup_keys_filter, Hnd.
  - intros i n o Hi Ho Hne. exfalso.
    unfold initial_state in Hi. cbn [p_nodes] in Hi. unfold seed in Hi.
    rewrite dict_get_map_values in Hi.
    + destruct (dict_get i ps) as [n0|] eqn:E; [|discriminate].
      simpl in Hi. injection Hi as <-.
      destruct (z_in i (source_nodes ps)); simpl in Ho.
      * injection Ho as <-. apply Hne. reflexivity.
      * rewrite (Hfresh i n0 E) in Ho. discriminate.
    + intros [k v]. simpl. destruct (z_in k (source_nodes ps)); reflexivity.
Qed.

Lemma reaches_settled strategy s0 s :
  settled s0 -> walk_reaches strategy s0 s -> settled s.
Proof.
  intros H0 Hr. induction Hr as [|s s' Hr IH Hstep]; [exact H0|].
  exact (settled_step strategy s s' IH Hstep).
Qed.

(** In a run of [onsets()] on fresh precedence nodes, a node that
    carries an onset when it is taken from the queue carries 0, so the
    onset is recorded and the walk goes on: the loop never leaves
    through the guard on a positive carried onset. *)
Lemma carried_onsets_are_zero strategy ps s q_id q id o :
  List.NoDup (dict_keys ps) ->
  (forall i n, dict_get i ps = Some n -> onset n = None) ->
  walk_reaches strategy (initial_state ps) s ->
  dequeued s q_id q id -> onset q = Some o ->
  o == 0 /\ records_and_continues strategy s id o.
Proof.
  intros Hnd Hfresh Hr Hd Ho.
  pose proof (reaches_settled strategy _ s (settled_initial ps Hnd Hfresh) Hr)
    as Hs.
  assert (Hz : o == 0).
  { destruct (Qeq_dec o 0) as [E|E]; [exact E|exfalso].
    destruct Hd as (Hq & Hg & _).
    destruct (proj2 Hs q_id q o Hg Ho E) as [_ Hnot].
    apply Hnot, waiting_head, Hq. }
  split; [exact Hz|].
  pose proof (step_carried strategy s q_id q id o Hd Ho) as Hstep.
  destruct (Qlt_le_dec 0 o) as [Hlt|_].
  - rewrite Hz in Hlt. exfalso. exact (Qlt_irrefl 0 Hlt).
  - eexists. split; [exact Hstep|]. cbn [onsets]. apply dict_get_set_eq.
Qed.

(** C1. In a run of [onsets()], which starts from precedence nodes
    without onsets and seeds the nodes without inlinks, and only
    them, with the onset 0: a node that carries an onset when it is
    taken from the queue has that onset recorded in the result table
    under the id of its symbol, and the walk goes on with the rest of
    the queue, its successors put on the queue; this is so whatever
    the value of the onset. *)
Theorem carried_onset_recorded strategy ps s q_id q id o :
  List.NoDup (dict_keys ps) ->
  (forall i n, dict_get i ps = Some n -> onset n = None) ->
  walk_reaches strategy (initial_state ps) s ->
  dequeued s q_id q id -> onset q = Some o ->
  (records_and_continues strategy s id o /\
   exists s', step strategy s = Continue s' /\
              onsets s' = dict_set id o (onsets s) /\
              p_nodes s' = p_nodes s /\
              queue s' = enqueue_new (outlinks q) (queue s) /\
              qstart s' = S (qstart s)) /\
  (forall i n,
      dict_get i ps = Some n ->
      dict_get i (p_nodes (initial_state ps))
      = Some (if is_root n then with_onset n (Some 0) else n)).
Proof.
  intros Hnd Hfresh Hr Hd Ho.
  destruct (carried_onsets_are_zero strategy ps s q_id q id o
              Hnd Hfresh Hr Hd Ho) as [Hz Hrec].
  split; [|intros i n; apply seeding, Hnd].
  split; [exact Hrec|].
  pose proof (step_carried strategy s q_id q id o Hd Ho) as Hstep.
  destruct (Qlt_le_dec 0 o) as [Hlt|_].
  - rewrite Hz in Hlt. exfalso. exact (Qlt_irrefl 0 Hlt).
  - eexists. split; [exact Hstep|]. repeat split.
Qed.
End WalkRuns.

Lemma carried_onset_recorded_witness :
  exists s1,
    Onsets.step Onsets.default_strategy
      (Onsets.initial_state WalkExamples.monophonic_chain) = Onsets.Continue s1 /\
    Onsets.dequeued (Onsets.initial_state WalkExamples.monophonic_chain) 1
      (WalkExamples.pn 1 [] [2] (Some 0%Q) 1%Q) 1 /\
    Onsets.onsets s1 = [(1, 0%Q)].
Proof.
  assert (Hd : Onsets.dequeued
                 (Onsets.initial_state WalkExamples.monophonic_chain) 1
                 (WalkExamples.pn 1 [] [2] (Some 0%Q) 1%Q) 1).
  { repeat split. }
  destruct (carried_onset_recorded Onsets.default_strategy
              WalkExamples.monophonic_chain
              (Onsets.initial_state WalkExamples.monophonic_chain)
              1 (WalkExamples.pn 1 [] [2] (Some 0%Q) 1%Q) 1 0%Q)
    as [[_ (s1 & Hs & Ho & _)] _].
  - repeat constructor; simpl; intuition lia.
  - intros i n. simpl.
    repeat (destruct (Z.eqb i _); [intros [= <-]; reflexivity|]).
    discriminate.
  - apply Onsets.walk_start.
  - exact Hd.
  - reflexivity.
  - exists s1. split; [exact Hs|]. split; [exact Hd|]. exact Ho.
Defined.

Section TieFacts.
Import Ties.
Local Open Scope Q_scope.

Example tie_merge :
  exists nd no h',
    process_ties TieExamples.tied_pair 0%nat 1%nat TieExamples.tables
    = (Ok (nd, no), h') /\
    h' !! nd = Some [(1%Z, 1 + 1)] /\ h' !! no = Some [(1%Z, 0)].
Proof. vm_compute. do 3 eexists. repeat split; reflexivity. Qed.

Example tie_chain_merge :
  exists nd no h',
    process_ties TieExamples.tied_chain 0%nat 1%nat TieExamples.chain_tables
    = (Ok (nd, no), h') /\
    h' !! nd = Some [(1%Z, 1 + (1 + 1))] /\ h' !! no = Some [(1%Z, 0)].
Proof. vm_compute. do 3 eexists. repeat split; reflexivity. Qed.
End TieFacts.

Section TieFrame.
Import Ties TieSpec.
Local Open Scope Q_scope.

Lemma extends_refl h : extends h h.
Proof. intros l d H. exact H. Qed.

Lemma extends_insert_fresh h0 h l d :
  extends h0 h -> h0 !! l = None -> extends h0 (<[l := d]> h).
Proof.
  intros He Hl l' d' H'. destruct (decide (l = l')) as [->|Hne].
  - congruence.
  - rewrite lookup_insert_ne by exact Hne. apply He, H'.
Qed.

Lemma fresh_not_in (h : heap) : h !! fresh (dom h) = None.
Proof. apply not_elem_of_dom. apply is_fresh. Qed.

Lemma extends_fresh h0 h : extends h0 h -> h0 !! fresh (dom h) = None.
Proof.
  intros He. destruct (h0 !! fresh (dom h)) as [d|] eqn:E; [|reflexivity].
  apply He in E. rewrite fresh_not_in in E. discriminate.
Qed.

Lemma keeps_ret h0 {A} (a : A) : keeps h0 (ret a).
Proof. intros h He. exact He. Qed.

Lemma keeps_raise h0 {A} e : keeps h0 (raise e : H A).
Proof. intros h He. exact He. Qed.

Lemma keeps_lift h0 {A} (r : result A) : keeps h0 (lift r).
Proof. intros h He. exact He. Qed.

Lemma keeps_bind h0 {A B} (m : H A) (k : A -> H B) :
  keeps h0 m -> (forall a, keeps h0 (k a)) -> keeps h0 (bindS m k).
Proof.
  intros Hm Hk h He. unfold bindS. specialize (Hm h He).
  destruct (m h) as [[a|e] h']; simpl in *; [apply Hk, Hm|exact Hm].
Qed.

Lemma keeps_contents h0 l : keeps h0 (contents l).
Proof. intros h He. unfold contents. destruct (h !! l); exact He. Qed.

Lemma keeps_getitem h0 l k : keeps h0 (getitem l k).
Proof.
  apply keeps_bind; [apply keeps_contents|]. intros d.
  destruct (dict_get k d); [apply keeps_ret|apply keeps_raise].
Qed.

Lemma keeps_setitem h0 l k v : h0 !! l = None -> keeps h0 (setitem l k v).
Proof.
  intros Hl. apply keeps_bind; [apply keeps_contents|]. intros d h He.
  simpl. apply extends_insert_fresh; assumption.
Qed.

Lemma keeps_delitem h0 l k : h0 !! l = None -> keeps h0 (delitem l k).
Proof.
  intros Hl. apply keeps_bind; [apply keeps_contents|]. intros d.
  destruct (dict_mem k d); [|apply keeps_raise].
  intros h He. simpl. apply extends_insert_fresh; assumption.
Qed.

Lemma keeps_alloc h0 d : keeps h0 (alloc d).
Proof.
  intros h He. unfold alloc. simpl.
  apply extends_insert_fresh; [exact He|apply extends_fresh, He].
Qed.

Lemma keeps_for_each h0 {A} (xs : list A) (body : A -> H unit) :
  (forall x, keeps h0 (body x)) -> keeps h0 (for_each xs body).
Proof.
  intros Hb. induction xs as [|x t IH]; simpl; [apply keeps_ret|].
  apply keeps_bind; [apply Hb|]. intros _. exact IH.
Qed.

Lemma keeps_process_key h0 g nd no k :
  h0 !! nd = None -> h0 !! no = None -> keeps h0 (process_key g nd no k).
Proof.
  intros Hnd Hno. unfold process_key.
  apply keeps_bind; [apply keeps_lift|]. intros [|t0 rest]; [apply keeps_ret|].
  apply keeps_bind; [apply keeps_lift|]. intros n.
  apply keeps_bind; [apply keeps_lift|]. intros [|l [|r [|x t]]]; try apply keeps_ret.
  destruct (node_id l =? node_id n)%Z; [|apply keeps_ret].
  apply keeps_bind; [apply keeps_getitem|]. intros dl.
  apply keeps_bind; [apply keeps_getitem|]. intros dr.
  apply keeps_bind; [apply keeps_setitem; exact Hnd|]. intros _.
  apply keeps_delitem; exact Hno.
Qed.

Lemma post_contents l (h : heap) Q :
  match h !! l with
  | Some d => Q (Ok d) h
  | None => Q (Raise AttributeError) h
  end ->
  post (contents l) h Q.
Proof. unfold post, contents. destruct (h !! l); exact (fun H => H). Qed.

Lemma post_alloc d (h : heap) Q :
  Q (Ok (fresh (dom h))) (<[fresh (dom h) := d]> h) -> post (alloc d) h Q.
Proof. exact (fun H => H). Qed.

Lemma keeps_post h0 {A} (m : H A) h :
  keeps h0 m -> extends h0 h -> post m h (fun _ h' => extends h0 h').
Proof. intros Hk He. exact (Hk h He). Qed.

(** C10. [process_ties] changes none of the objects that exist when
    it is called, the caller's duration and onset tables among them,
    whether it returns or raises; the two tables it returns are
    objects that did not exist before, and they are distinct. *)
Theorem process_ties_leaves_arguments nodes durations onsets (h0 : heap) :
  let out := process_ties nodes durations onsets h0 in
  extends h0 (snd out) /\
  (forall d, h0 !! durations = Some d -> snd out !! durations = Some d) /\
  (forall o, h0 !! onsets = Some o -> snd out !! onsets = Some o) /\
  forall nd no, fst out = Ok (nd, no) ->
    h0 !! nd = None /\ h0 !! no = None /\ nd <> no /\
    is_Some (snd out !! nd) /\ is_Some (snd out !! no).
Proof.
  cbv zeta.
  assert (Hmain : post (process_ties nodes durations onsets) h0
            (fun r h' => extends h0 h' /\
               forall nd no, r = Ok (nd, no) ->
                 h0 !! nd = None /\ h0 !! no = None /\ nd <> no /\
                 is_Some (h' !! nd) /\ is_Some (h' !! no))).
  { unfold process_ties, deepcopy.
    apply post_bind, post_bind, post_contents.
    destruct (h0 !! onsets) as [O|] eqn:EO;
      [|split; [apply extends_refl|discriminate]].
    apply post_alloc.
    set (no := fresh (dom h0)). set (h1 := <[no := O]> h0).
    assert (Hno : h0 !! no = None) by apply fresh_not_in.
    assert (He1 : extends h0 h1).
    { apply extends_insert_fresh; [apply extends_refl|exact Hno]. }
    apply post_bind, post_bind, post_contents.
    destruct (h1 !! durations) as [D|] eqn:ED; [|split; [exact He1|discriminate]].
    apply post_alloc.
    set (nd := fresh (dom h1)). set (h2 := <[nd := D]> h1).
    assert (Hnd : h0 !! nd = None) by (apply extends_fresh, He1).
    assert (He2 : extends h0 h2).
    { apply extends_insert_fresh; assumption. }
    apply post_bind, post_contents.
    destruct (h2 !! onsets) as [os|] eqn:Eos; [|split; [exact He2|discriminate]].
    apply post_bind.
    eapply post_weaken.
    { apply (keeps_post h0 _ h2); [|exact He2].
      apply keeps_for_each. intros k. apply keeps_process_key; assumption. }
    intros [[]|e] h3 He3; [|split; [exact He3|discriminate]].
    apply post_bind, post_contents.
    destruct (h3 !! no) as [fo|] eqn:Efo; [|split; [exact He3|discriminate]].
    apply post_bind, post_contents.
    destruct (h3 !! nd) as [fd|] eqn:Efd; [|split; [exact He3|discriminate]].
    apply post_bind, post_lift.
    destruct (restrict_to (dict_keys fo) fd) as [rd|e]; [|split; [exact He3|discriminate]].
    apply post_bind, post_alloc, post_ret.
    split.
    - apply extends_insert_fresh; [exact He3|apply extends_fresh, He3].
    - intros nd' no' [= <- <-].
      assert (Hne : fresh (dom h3) <> no).
      { intros E. pose proof (fresh_not_in h3) as F. rewrite E in F. congruence. }
      repeat split.
      + apply extends_fresh, He3.
      + exact Hno.
      + exact Hne.
      + rewrite lookup_insert_eq. eauto.
      + rewrite lookup_insert_ne by exact Hne. rewrite Efo. eauto. }
  destruct Hmain as [He Hres]. split; [exact He|]. split; [|split; [|exact Hres]].
  - intros d. apply He.
  - intros o. apply He.
Qed.
End TieFrame.

Section TieMerge.
Import Ties TieSpec.
Local Open Scope Q_scope.




Lemma process_key_with_tie g nd no k t0 rest n :
  Graph.children g k (Some [Const.TIE_CLASS_NAME]) = Ok (t0 :: rest) ->
  Graph.getitem g k = Ok n ->
  process_key g nd no k =
  (do tie_notes <- lift (get_tie_notes g (chosen_tie t0 rest));
   match tie_notes with
   | [l; r] =>
       if (node_id l =? node_id n)%Z then
         do dl <- getitem nd (node_id l);
         do dr <- getitem nd (node_id r);
         setitem nd (node_id l) (dl + dr) ;; delitem no (node_id r)
       else ret tt
   | _ => ret tt
   end).
Proof.
  intros Hc Hn. unfold process_key. rewrite Hc, Hn. reflexivity.
Qed.

Lemma get_tie_notes_cases g tie notes :
  Graph.parents g (node_id tie) (Some TIE_NOTE_CLASSES) = Ok notes ->
  get_tie_notes g tie =
  match notes with
  | [] => Raise NotationGraphError
  | [n] => Ok [n]
  | [a; b] => Ok [fst (left_right a b); snd (left_right a b)]
  | _ => Raise NotationGraphError
  end.
Proof.
  intros Hp. unfold get_tie_notes. rewrite Hp. cbn [bind].
  destruct notes as [|a [|b [|c t]]]; try reflexivity.
  unfold left_right. simpl. unfold Durations.by_left.
  destruct (left a <=? left b)%Z; reflexivity.
Qed.

(** One turn of the loop of [process_ties], in any state of the two
    new tables, on a note that has a tie: what [process_key] does by
    the number of notes of the chosen tie. *)
Lemma process_key_cases g nd no k t0 rest n notes :
  Graph.children g k (Some [Const.TIE_CLASS_NAME]) = Ok (t0 :: rest) ->
  Graph.getitem g k = Ok n ->
  Graph.parents g (node_id (chosen_tie t0 rest)) (Some TIE_NOTE_CLASSES)
  = Ok notes ->
  match notes with
  | [] => forall h, process_key g nd no k h = (Raise NotationGraphError, h)
  | [_] => forall h, process_key g nd no k h = (Ok tt, h)
  | [a; b] =>
      let l := fst (left_right a b) in
      let r := snd (left_right a b) in
      (node_id l = node_id n ->
       forall (h : heap) D O dl dr,
         nd <> no -> h !! nd = Some D -> h !! no = Some O ->
         dict_get (node_id l) D = Some dl ->
         dict_get (node_id r) D = Some dr ->
         dict_mem (node_id r) O = true ->
         process_key g nd no k h
         = (Ok tt, <[no := dict_del (node_id r) O]>
                     (<[nd := dict_set (node_id l) (dl + dr) D]> h))) /\
      (node_id l <> node_id n ->
       forall h, process_key g nd no k h = (Ok tt, h))
  | _ => forall h, process_key g nd no k h = (Raise NotationGraphError, h)
  end.
Proof.
  intros Hc Hn Hp.
  rewrite (process_key_with_tie g nd no k t0 rest n Hc Hn).
  rewrite (get_tie_notes_cases g _ notes Hp).
  destruct notes as [|a [|b [|c t]]]; try (intros h; reflexivity).
  cbv zeta. split.
  - intros Hl h D O dl dr Hne HD HO Hdl Hdr Hm.
    unfold bindS, lift. cbn [fst snd].
    apply Z.eqb_eq in Hl. rewrite Hl.
    unfold getitem, setitem, delitem, contents, bindS, ret.
    repeat first [ rewrite HD | rewrite Hdl | rewrite Hdr
                 | rewrite (lookup_insert_ne _ _ _ _ Hne)
                 | rewrite HO | rewrite Hm | progress cbn [fst snd] ].
    reflexivity.
  - intros Hl h. unfold bindS, lift. cbn [fst snd].
    apply Z.eqb_neq in Hl. rewrite Hl. reflexivity.
Qed.

Lemma dict_del_absent {V} (d : dict V) k :
  List.NoDup (dict_keys d) -> dict_get k (dict_del k d) = None.
Proof.
  unfold dict_keys. induction d as [|[k' v] t IH]; simpl; [reflexivity|].
  intros Hnd. apply List.NoDup_cons_iff in Hnd as [Hk Hnd].
  destruct (Z.eqb_spec k k') as [->|Hne].
  - destruct (dict_get k' t) as [w|] eqn:E; [|reflexivity].
    exfalso. apply Hk. apply dict_get_In in E.
    apply (in_map fst) in E. exact E.
  - simpl. destruct (Z.eqb_spec k k'); [congruence|]. apply IH, Hnd.
Qed.
End TieMerge.

Example process_key_tied_pair :
  Ties.process_key (Graph.make TieExamples.tied_pair) 0%nat 1%nat 1
    TieExamples.tables
  = (Ok tt,
     <[1%nat := dict_del 2 [(1, 0%Q); (2, 1%Q)]]>
       (<[0%nat := dict_set 1 (1 + 1)%Q [(1, 1%Q); (2, 1%Q)]]>
          TieExamples.tables)).
Proof.
  destruct (process_key_cases (Graph.make TieExamples.tied_pair)
              0%nat 1%nat 1
              (Examples.placed 3 "tie" 0 5 5 25 [1; 2] []) []
              (Examples.placed 1 "noteheadFull" 0 0 10 10 [] [3])
              [Examples.placed 1 "noteheadFull" 0 0 10 10 [] [3];
               Examples.placed 2 "noteheadFull" 0 20 10 30 [] [3]]
              eq_refl eq_refl eq_refl) as [Hmerge _].
  apply (Hmerge eq_refl TieExamples.tables
           [(1, 1%Q); (2, 1%Q)] [(1, 0%Q); (2, 1%Q)] 1%Q 1%Q);
    first [ discriminate | reflexivity ].
Defined.

Lemma process_ties_leaves_arguments_witness :
  snd (Ties.process_ties TieExamples.tied_pair 0%nat 1%nat TieExamples.tables)
    !! 0%nat = Some [(1, 1%Q); (2, 1%Q)].
Proof.
  apply (proj1 (proj2 (process_ties_leaves_arguments TieExamples.tied_pair
                         0%nat 1%nat TieExamples.tables))).
  reflexivity.
Defined.


Section ListFacts.
Import Graph.

Lemma z_in_occ x l : z_in x l = true <-> (0 < occ x l)%nat.
Proof. rewrite z_in_In. unfold occ. apply count_occ_In. Qed.

Lemma z_in_false_occ x l : z_in x l = false <-> occ x l = 0%nat.
Proof.
  split; intros H.
  - destruct (occ x l) eqn:E; [reflexivity|].
    assert (z_in x l = true) by (apply z_in_occ; lia). congruence.
  - destruct (z_in x l) eqn:E; [|reflexivity].
    apply z_in_occ in E. lia.
Qed.

Lemma In_occ x l : In x l <-> (0 < occ x l)%nat.
Proof. unfold occ. apply count_occ_In. Qed.

Lemma occ_app_one y l x :
  occ y (l ++ [x]) = (occ y l + if Z.eq_dec x y then 1 else 0)%nat.
Proof.
  unfold occ. rewrite count_occ_app. simpl.
  destruct (Z.eq_dec x y); reflexivity.
Qed.

Lemma list_remove_occ x l l' :
  list_remove x l = Some l' ->
  forall y, occ y l' = if Z.eq_dec x y then pred (occ y l) else occ y l.
Proof.
  revert l'. induction l as [|z t IH]; intros l' H y; simpl in H; [discriminate|].
  destruct (Z.eqb_spec x z) as [->|Hne].
  - injection H as <-. unfold occ. simpl.
    destruct (Z.eq_dec z y); reflexivity.
  - destruct (list_remove x t) as [t'|] eqn:E; [|discriminate].
    injection H as <-. specialize (IH t' eq_refl y).
    unfold occ in *. simpl. rewrite IH.
    destruct (Z.eq_dec z y) as [->|]; destruct (Z.eq_dec x y); try congruence; try reflexivity.
Qed.

Lemma list_remove_Some x l :
  (0 < occ x l)%nat -> exists l', list_remove x l = Some l'.
Proof.
  induction l as [|z t IH]; unfold occ; simpl; [lia|].
  destruct (Z.eqb_spec x z) as [->|Hne]; [eauto|].
  destruct (Z.eq_dec z x); [congruence|]. intros H.
  destruct (IH H) as [t' ->]. eauto.
Qed.

Lemma list_remove_pos x l l' :
  list_remove x l = Some l' -> (0 < occ x l)%nat.
Proof.
  revert l'. induction l as [|z t IH]; intros l'; simpl; [discriminate|].
  unfold occ. simpl. destruct (Z.eqb_spec x z) as [->|Hne].
  - intros _. destruct (Z.eq_dec z z); [lia|congruence].
  - destruct (list_remove x t) as [t'|] eqn:E; [|discriminate].
    intros _. destruct (Z.eq_dec z x); [lia|]. eapply IH. reflexivity.
Qed.

Lemma list_remove_head x l : list_remove x (x :: l) = Some l.
Proof. simpl. now rewrite Z.eqb_refl. Qed.
End ListFacts.

Section KindFacts.
Import Graph GraphSpec.

Lemma get_out_set_out K n l : get_out K (set_out K n l) = l.
Proof. destruct K, n; reflexivity. Qed.
Lemma get_in_set_in K n l : get_in K (set_in K n l) = l.
Proof. destruct K, n; reflexivity. Qed.
Lemma get_in_set_out K K' n l : get_in K' (set_out K n l) = get_in K' n.
Proof. destruct K, K', n; reflexivity. Qed.
Lemma get_out_set_in K K' n l : get_out K' (set_in K n l) = get_out K' n.
Proof. destruct K, K', n; reflexivity. Qed.
Lemma get_out_set_out_other K K' n l :
  K <> K' -> get_out K' (set_out K n l) = get_out K' n.
Proof. destruct K, K', n; intros H; try reflexivity; congruence. Qed.
Lemma get_in_set_in_other K K' n l :
  K <> K' -> get_in K' (set_in K n l) = get_in K' n.
Proof. destruct K, K', n; intros H; try reflexivity; congruence. Qed.
Lemma node_id_set_out K n l : node_id (set_out K n l) = node_id n.
Proof. destruct K, n; reflexivity. Qed.
Lemma node_id_set_in K n l : node_id (set_in K n l) = node_id n.
Proof. destruct K, n; reflexivity. Qed.

Lemma lookup_upd f i g j :
  id_to_node_mapping (upd f i g) !! j =
  if decide (i = j) then f <$> id_to_node_mapping g !! i
  else id_to_node_mapping g !! j.
Proof. unfold upd. simpl. apply lookup_alter. Qed.

Lemma lookup_upd_eq f i g :
  id_to_node_mapping (upd f i g) !! i = f <$> id_to_node_mapping g !! i.
Proof. unfold upd. simpl. apply lookup_alter_eq. Qed.

Lemma lookup_upd_ne f i g j :
  i <> j -> id_to_node_mapping (upd f i g) !! j = id_to_node_mapping g !! j.
Proof. unfold upd. simpl. apply lookup_alter_ne. Qed.

Lemma lookup_upd_inv f i g j n' :
  id_to_node_mapping (upd f i g) !! j = Some n' ->
  exists n, id_to_node_mapping g !! j = Some n /\
            n' = if decide (i = j) then f n else n.
Proof.
  rewrite lookup_upd. destruct (decide (i = j)) as [->|Hne].
  - destruct (id_to_node_mapping g !! j) as [n|]; simpl; [|discriminate].
    intros [= <-]. eauto.
  - intros H. eauto.
Qed.

Lemma index_ok_upd f i g :
  (forall n, node_id (f n) = node_id n) ->
  index_ok g -> index_ok (upd f i g).
Proof.
  intros Hf Hok j n' H. apply lookup_upd_inv in H as (n & Hn & ->).
  destruct (decide (i = j)); [rewrite Hf|]; apply Hok, Hn.
Qed.

(** A change that leaves the lists of a relation alone keeps its
    balance. *)
Lemma balanced_frame K f i g :
  (forall n, get_in K (f n) = get_in K n) ->
  (forall n, get_out K (f n) = get_out K n) ->
  balanced K g -> balanced K (upd f i g).
Proof.
  intros Hin Hout Hb a b na' nb' Ha Hb'.
  apply lookup_upd_inv in Ha as (na & Ha & ->).
  apply lookup_upd_inv in Hb' as (nb & Hb' & ->).
  specialize (Hb a b na nb Ha Hb').
  destruct (decide (i = a)), (decide (i = b)); rewrite ?Hin, ?Hout; exact Hb.
Qed.

(** The change of one edge [a --> b] on both sides: the count of [b]
    at the source and the count of [a] at the target both go from [c]
    to [d c]. *)
Lemma balanced_pair K (d : nat -> nat) fo fi a b g na nb1 :
  balanced K g ->
  id_to_node_mapping g !! a = Some na ->
  id_to_node_mapping (upd fo a g) !! b = Some nb1 ->
  get_in K (fo na) = get_in K na ->
  get_out K (fi nb1) = get_out K nb1 ->
  (forall y, occ y (get_out K (fo na)) =
             if Z.eq_dec b y then d (occ y (get_out K na))
             else occ y (get_out K na)) ->
  (forall y, occ y (get_in K (fi nb1)) =
             if Z.eq_dec a y then d (occ y (get_in K nb1))
             else occ y (get_in K nb1)) ->
  balanced K (upd fi b (upd fo a g)).
Proof.
  intros Hbal Ha Hb Hfo_in Hfi_out Hfo Hfi x y nx' ny' Hx Hy.
  (* the nodes of the intermediate graph *)
  apply lookup_upd_inv in Hx as (nx1 & Hx1 & ->).
  apply lookup_upd_inv in Hy as (ny1 & Hy1 & ->).
  assert (Hb1 : forall c n1, id_to_node_mapping (upd fo a g) !! c = Some n1 ->
            exists n, id_to_node_mapping g !! c = Some n /\
                      n1 = if decide (a = c) then fo n else n).
  { intros c n1. apply lookup_upd_inv. }
  destruct (Hb1 _ _ Hx1) as (nx & Hgx & Ex).
  destruct (Hb1 _ _ Hy1) as (ny & Hgy & Ey).
  destruct (Hb1 _ _ Hb) as (nb & Hgb & Eb).
  pose proof (Hbal x y nx ny Hgx Hgy) as Hxy.
  (* out-list of x in the final graph *)
  assert (Hout : occ y (get_out K (if decide (b = x) then fi nx1 else nx1))
                 = if decide (a = x) then
                     (if Z.eq_dec b y then d (occ y (get_out K nx))
                      else occ y (get_out K nx))
                   else occ y (get_out K nx)).
  { assert (E1 : get_out K (if decide (b = x) then fi nx1 else nx1) = get_out K nx1).
    { destruct (decide (b = x)) as [->|]; [|reflexivity].
      rewrite Hb in Hx1. injection Hx1 as <-. exact Hfi_out. }
    rewrite E1, Ex. destruct (decide (a = x)) as [->|]; [|reflexivity].
    rewrite Ha in Hgx. injection Hgx as <-. apply Hfo. }
  assert (Hin : occ x (get_in K (if decide (b = y) then fi ny1 else ny1))
                = if decide (b = y) then
                    (if Z.eq_dec a x then d (occ x (get_in K ny))
                     else occ x (get_in K ny))
                  else occ x (get_in K ny)).
  { assert (E1 : get_in K ny1 = get_in K ny).
    { rewrite Ey. destruct (decide (a = y)) as [->|]; [|reflexivity].
      rewrite Ha in Hgy. injection Hgy as <-. exact Hfo_in. }
    destruct (decide (b = y)) as [->|]; [|now rewrite E1].
    rewrite Hb in Hy1. injection Hy1 as <-. rewrite Hfi, E1. reflexivity. }
  rewrite Hout, Hin, Hxy.
  destruct (decide (a = x)), (decide (b = y)), (Z.eq_dec b y), (Z.eq_dec a x);
    congruence.
Qed.
End KindFacts.

Section PairFacts.
Import Graph GraphSpec.
Variable Ks : kind -> Prop.
Local Abbreviation consistent := (consistent_on Ks).

Lemma post_node_at i g (Q : result Node -> NotationGraph -> Prop) :
  match id_to_node_mapping g !! i with
  | Some n => Q (Ok n) g
  | None => Q (Raise KeyError) g
  end ->
  post (node_at i) g Q.
Proof.
  unfold post, node_at, getitem. simpl.
  destruct (id_to_node_mapping g !! i); exact (fun H => H).
Qed.

Lemma post_alter_node f i g (Q : result unit -> NotationGraph -> Prop) :
  Q (Ok tt) (upd f i g) -> post (alter_node f i) g Q.
Proof. exact (fun H => H). Qed.

Lemma contains_present g i : contains g i = true <-> present g i.
Proof.
  unfold contains, present. destruct (id_to_node_mapping g !! i); split;
    intros H; try reflexivity; try discriminate; eauto.
  destruct H as [? H]. discriminate.
Qed.

Lemma present_upd f i g j : present (upd f i g) j <-> present g j.
Proof.
  unfold present. rewrite lookup_upd. destruct (decide (i = j)) as [->|]; [|reflexivity].
  destruct (id_to_node_mapping g !! j); simpl; split; intros [? H]; eauto; discriminate.
Qed.

Lemma out_setter_const K l : out_setter K (fun n => set_out K n l).
Proof. intros n. eauto. Qed.

Lemma in_setter_const K l : in_setter K (fun n => set_in K n l).
Proof. intros n. eauto. Qed.

Lemma out_setter_app K x : out_setter K (fun n => set_out K n (get_out K n ++ [x])).
Proof. intros n. eauto. Qed.

Lemma in_setter_app K x : in_setter K (fun n => set_in K n (get_in K n ++ [x])).
Proof. intros n. eauto. Qed.

(** The change of one edge on both sides keeps a consistent graph
    consistent. *)
Lemma pair_consistent K (d : nat -> nat) fo fi a b g na nb1 :
  Ks K ->
  consistent g ->
  id_to_node_mapping g !! a = Some na ->
  id_to_node_mapping (upd fo a g) !! b = Some nb1 ->
  out_setter K fo -> in_setter K fi ->
  (forall y, occ y (get_out K (fo na)) =
             if Z.eq_dec b y then d (occ y (get_out K na))
             else occ y (get_out K na)) ->
  (forall y, occ y (get_in K (fi nb1)) =
             if Z.eq_dec a y then d (occ y (get_in K nb1))
             else occ y (get_in K nb1)) ->
  consistent (upd fi b (upd fo a g)).
Proof.
  intros HKs (Hok & Hbal) Ha Hb Hfo Hfi Hco Hci.
  assert (Fo_in : forall K' n, get_in K' (fo n) = get_in K' n).
  { intros K' n. destruct (Hfo n) as [l ->]. apply get_in_set_out. }
  assert (Fi_out : forall K' n, get_out K' (fi n) = get_out K' n).
  { intros K' n. destruct (Hfi n) as [l ->]. apply get_out_set_in. }
  split.
  - apply index_ok_upd; [intros n; destruct (Hfi n) as [l ->]; apply node_id_set_in|].
    apply index_ok_upd; [intros n; destruct (Hfo n) as [l ->]; apply node_id_set_out|exact Hok].
  - intros K' HK'.
    assert (Hdec : K' = K \/ K' <> K) by (destruct K, K'; auto; right; discriminate).
    destruct Hdec as [->|Hne].
    + apply (balanced_pair K d _ _ a b g na nb1); auto.
    + apply balanced_frame; auto.
      * intros n. destruct (Hfi n) as [l ->]. apply get_in_set_in_other. congruence.
      * apply balanced_frame; auto.
        intros n. destruct (Hfo n) as [l ->]. apply get_out_set_out_other. congruence.
Qed.

(** Removing the edge [a --> b] on both sides. *)
Lemma pair_removed_consistent K a b g na l1 nb1 l2 :
  Ks K ->
  consistent g ->
  id_to_node_mapping g !! a = Some na ->
  list_remove b (get_out K na) = Some l1 ->
  id_to_node_mapping (upd (fun n => set_out K n l1) a g) !! b = Some nb1 ->
  list_remove a (get_in K nb1) = Some l2 ->
  consistent (upd (fun n => set_in K n l2) b
                  (upd (fun n => set_out K n l1) a g)).
Proof.
  intros HKs Hc Ha Hl1 Hb Hl2.
  apply (pair_consistent K pred _ _ a b g na nb1); try assumption.
  - apply out_setter_const.
  - apply in_setter_const.
  - intros y. rewrite get_out_set_out. apply list_remove_occ, Hl1.
  - intros y. rewrite get_in_set_in. apply list_remove_occ, Hl2.
Qed.

(** Under balance the second removal finds its entry. *)
Lemma second_removal K a b g na l1 :
  balanced K g ->
  id_to_node_mapping g !! a = Some na ->
  list_remove b (get_out K na) = Some l1 ->
  present g b ->
  exists nb nb1 l2,
    id_to_node_mapping g !! b = Some nb /\
    id_to_node_mapping (upd (fun n => set_out K n l1) a g) !! b = Some nb1 /\
    get_in K nb1 = get_in K nb /\
    list_remove a (get_in K nb1) = Some l2.
Proof.
  intros Hbal Ha Hl1 [nb Hb].
  assert (Hpos : (0 < occ a (get_in K nb))%nat).
  { rewrite <- (Hbal a b na nb Ha Hb). eapply list_remove_pos, Hl1. }
  assert (Hb1 : exists nb1, id_to_node_mapping (upd (fun n => set_out K n l1) a g) !! b = Some nb1
                            /\ get_in K nb1 = get_in K nb).
  { rewrite lookup_upd. destruct (decide (a = b)) as [->|].
    - rewrite Hb. simpl. eexists. split; [reflexivity|]. apply get_in_set_out.
    - eauto. }
  destruct Hb1 as (nb1 & Hb1 & Ein).
  rewrite <- Ein in Hpos. destruct (list_remove_Some _ _ Hpos) as [l2 Hl2].
  exists nb, nb1, l2. auto.
Qed.

(** Appending the edge [a --> b] on both sides. *)
Lemma pair_appended_consistent K a b g fo fi na nb1 :
  Ks K ->
  consistent g ->
  id_to_node_mapping g !! a = Some na ->
  id_to_node_mapping (upd fo a g) !! b = Some nb1 ->
  out_setter K fo -> in_setter K fi ->
  get_out K (fo na) = get_out K na ++ [b] ->
  get_in K (fi nb1) = get_in K nb1 ++ [a] ->
  consistent (upd fi b (upd fo a g)).
Proof.
  intros HKs Hc Ha Hb Hfo Hfi Eo Ei.
  apply (pair_consistent K S _ _ a b g na nb1); try assumption.
  - intros y. rewrite Eo, occ_app_one. destruct (Z.eq_dec b y); lia.
  - intros y. rewrite Ei, occ_app_one. destruct (Z.eq_dec a y); lia.
Qed.
End PairFacts.

Section MutatorFacts.
Import Graph GraphSpec.
Variable Ks : kind -> Prop.
Local Abbreviation consistent := (consistent_on Ks).

Abbreviation keeps m := (forall g, consistent g -> post m g (fun _ g' => consistent g')).

Lemma remove_pair_keeps K a b g :
  Ks K -> consistent g -> present g b ->
  post (remove_from (get_out K) (set_out K) a b ;;
        remove_from (get_in K) (set_in K) b a) g
       (fun _ g' => consistent g').
Proof.
  intros HKs Hc Hb. apply post_bind. unfold remove_from at 1.
  apply post_bind, post_node_at.
  destruct (id_to_node_mapping g !! a) as [na|] eqn:Ha; [|exact Hc].
  destruct (list_remove b (get_out K na)) as [l1|] eqn:Hl1; [|exact Hc].
  apply post_alter_node.
  assert (HbK : balanced K g) by (apply (proj2 Hc), HKs).
  destruct (second_removal K a b g na l1 HbK Ha Hl1 Hb)
    as (nb & nb1 & l2 & Hgb & Hb1 & Ein & Hl2).
  unfold remove_from. apply post_bind, post_node_at. rewrite Hb1, Hl2.
  apply post_alter_node.
  eapply pair_removed_consistent; eassumption.
Qed.

Lemma remove_body_keeps K a b suppress g :
  Ks K -> consistent g -> present g a -> present g b ->
  post (do from_node <- node_at a;
        do to_node <- node_at b;
        if suppress && negb (z_in b (get_out K from_node)) then ret tt
        else if suppress && negb (z_in a (get_in K to_node)) then ret tt
        else
          remove_from (get_out K) (set_out K) a b ;;
          remove_from (get_in K) (set_in K) b a) g
       (fun _ g' => consistent g').
Proof.
  intros HKs Hc [na Ha] Hb. pose proof Hb as [nb Hgb].
  apply post_bind, post_node_at. rewrite Ha.
  apply post_bind, post_node_at. rewrite Hgb.
  destruct (suppress && negb (z_in b (get_out K na))); [exact Hc|].
  destruct (suppress && negb (z_in a (get_in K nb))); [exact Hc|].
  apply remove_pair_keeps; assumption.
Qed.

Lemma remove_edge_keeps a b s : Ks Attachment -> keeps (remove_edge a b s).
Proof.
  intros HKs g Hc. unfold post, remove_edge.
  destruct (contains g a) eqn:Ea; [|exact Hc].
  destruct (contains g b) eqn:Eb; [|exact Hc].
  cbn [negb]. apply contains_present in Ea, Eb.
  exact (remove_body_keeps Attachment a b s g HKs Hc Ea Eb).
Qed.

Lemma remove_precedence_edge_keeps a b s :
  Ks Precedence -> keeps (remove_precedence_edge a b s).
Proof.
  intros HKs g Hc. unfold post, remove_precedence_edge.
  destruct (contains g a) eqn:Ea; [|exact Hc].
  destruct (contains g b) eqn:Eb; [|exact Hc].
  cbn [negb]. apply contains_present in Ea, Eb.
  exact (remove_body_keeps Precedence a b s g HKs Hc Ea Eb).
Qed.

Lemma add_body_keeps K a b g :
  Ks K -> consistent g -> present g a -> present g b ->
  post (do from_node <- node_at a;
        do to_node <- node_at b;
        if z_in b (get_out K from_node) then
          if z_in a (get_in K to_node) then ret tt
          else raise NotationGraphError
        else if z_in a (get_in K to_node) then raise NotationGraphError
        else
          alter_node (fun n => set_out K n (get_out K n ++ [b])) a ;;
          alter_node (fun n => set_in K n (get_in K n ++ [a])) b) g
       (fun _ g' => consistent g').
Proof.
  intros HKs Hc [na Ha] [nb Hgb].
  apply post_bind, post_node_at. rewrite Ha.
  apply post_bind, post_node_at. rewrite Hgb.
  destruct (z_in b (get_out K na)).
  { destruct (z_in a (get_in K nb)); exact Hc. }
  destruct (z_in a (get_in K nb)); [exact Hc|].
  apply post_bind, post_alter_node, post_alter_node.
  assert (Hb1 : exists nb1, id_to_node_mapping
                  (upd (fun n => set_out K n (get_out K n ++ [b])) a g) !! b = Some nb1).
  { apply present_upd. eexists; eassumption. }
  destruct Hb1 as [nb1 Hb1].
  eapply (pair_appended_consistent Ks K a b g _ _ na nb1); try eassumption.
  - apply out_setter_app.
  - apply in_setter_app.
  - apply get_out_set_out.
  - apply get_in_set_in.
Qed.

Lemma add_edge_keeps a b : Ks Attachment -> keeps (add_edge a b).
Proof.
  intros HKs g Hc. unfold post, add_edge.
  destruct (contains g a) eqn:Ea; [|exact Hc].
  destruct (contains g b) eqn:Eb; [|exact Hc].
  cbn [negb]. apply contains_present in Ea, Eb.
  exact (add_body_keeps Attachment a b g HKs Hc Ea Eb).
Qed.

Lemma add_precedence_edge_keeps a b :
  Ks Precedence -> keeps (add_precedence_edge a b).
Proof.
  intros HKs g Hc. unfold post, add_precedence_edge.
  destruct (contains g a) eqn:Ea; [|exact Hc].
  destruct (contains g b) eqn:Eb; [|exact Hc].
  cbn [negb]. apply contains_present in Ea, Eb.
  exact (add_body_keeps Precedence a b g HKs Hc Ea Eb).
Qed.

Lemma for_each_keeps {A} (xs : list A) (body : A -> M unit) :
  (forall x, keeps (body x)) -> keeps (for_each xs body).
Proof.
  intros Hb g Hc.
  eapply post_weaken.
  - apply (post_for_each body (fun _ g' => consistent g') (fun _ g' => consistent g')).
    + intros x rest s Hs. eapply post_weaken; [apply Hb, Hs|].
      intros [[]|e] s' H; exact H.
    + exact Hc.
  - intros [[]|e] s' H; exact H.
Qed.

Lemma remove_edges_for_vertex_keeps i :
  Ks Attachment -> keeps (remove_edges_for_vertex i).
Proof.
  intros HKs g Hc. unfold post, remove_edges_for_vertex.
  destruct (contains g i) eqn:Ei; [|exact Hc]. cbn [negb].
  change (post (do node <- node_at i;
                for_each (inlinks node) (fun inlink => remove_edge inlink i false) ;;
                do node' <- node_at i;
                for_each (outlinks node') (fun outlink => remove_edge i outlink false))
               g (fun _ g' => consistent g')).
  apply post_bind, post_node_at.
  destruct (id_to_node_mapping g !! i) as [node|]; [|exact Hc].
  apply post_bind. eapply post_weaken.
  { apply for_each_keeps; [|exact Hc]. intros x. apply remove_edge_keeps, HKs. }
  intros [[]|e] g1 Hc1; [|exact Hc1].
  apply post_bind, post_node_at.
  destruct (id_to_node_mapping g1 !! i) as [node'|]; [|exact Hc1].
  eapply post_weaken.
  { apply for_each_keeps; [|exact Hc1]. intros x. apply remove_edge_keeps, HKs. }
  intros r g2 Hc2. exact Hc2.
Qed.

Lemma consistent_delete g i ns :
  consistent g ->
  consistent {| nodes := ns;
                id_to_node_mapping := delete i (id_to_node_mapping g) |}.
Proof.
  intros (Hok & Hbal).
  assert (Hsub : forall j n,
            delete i (id_to_node_mapping g) !! j = Some n ->
            id_to_node_mapping g !! j = Some n).
  { intros j n. rewrite lookup_delete. destruct (decide (i = j)); [discriminate|auto]. }
  split.
  - intros j n H. apply Hok, Hsub, H.
  - intros K HK a b na nb Ha Hb. simpl in Ha, Hb. eapply Hbal; eauto.
Qed.

Lemma remove_vertex_keeps i : Ks Attachment -> keeps (remove_vertex i).
Proof.
  intros HKs g Hc. unfold remove_vertex. apply post_bind.
  eapply post_weaken; [apply remove_edges_for_vertex_keeps; [exact HKs|exact Hc]|].
  intros [[]|e] g1 Hc1; [|exact Hc1].
  apply post_bind, post_node_at.
  destruct (id_to_node_mapping g1 !! i) as [node|]; [|exact Hc1].
  unfold post. destruct (list_remove i (nodes g1)) as [ns|]; [|exact Hc1].
  simpl. apply consistent_delete, Hc1.
Qed.
End MutatorFacts.

Section UnlinkFacts.
Import Graph GraphSpec.
Variable Ks : kind -> Prop.
Hypothesis HKs : Ks Precedence.
Local Abbreviation consistent := (consistent_on Ks).

Lemma data_in_key n l :
  data_precedence_inlinks n = Some l -> precedence_inlinks n = l.
Proof. unfold precedence_inlinks. now intros ->. Qed.

Lemma data_out_key n l :
  data_precedence_outlinks n = Some l -> precedence_outlinks n = l.
Proof. unfold precedence_outlinks. now intros ->. Qed.

Lemma removable_in_key n x l :
  list_remove x (precedence_inlinks n) = Some l ->
  data_precedence_inlinks n = Some (precedence_inlinks n).
Proof.
  unfold precedence_inlinks. destruct (data_precedence_inlinks n); [reflexivity|].
  discriminate.
Qed.

Lemma removable_out_key n x l :
  list_remove x (precedence_outlinks n) = Some l ->
  data_precedence_outlinks n = Some (precedence_outlinks n).
Proof.
  unfold precedence_outlinks. destruct (data_precedence_outlinks n); [reflexivity|].
  discriminate.
Qed.

Lemma upd_swap K a b l1 l2 g :
  upd (fun n => set_out K n l1) a (upd (fun n => set_in K n l2) b g)
  = upd (fun n => set_in K n l2) b (upd (fun n => set_out K n l1) a g).
Proof.
  unfold upd. simpl. f_equal. apply map_eq. intros j.
  rewrite !lookup_alter.
  repeat (case_decide; subst); try congruence;
    destruct (id_to_node_mapping g !! j) as [n|]; simpl; try reflexivity.
  f_equal. destruct K, n; reflexivity.
Qed.

(** The removal at the target first, then at the source. *)
Lemma first_removal K a b g nb l2 :
  balanced K g ->
  id_to_node_mapping g !! b = Some nb ->
  list_remove a (get_in K nb) = Some l2 ->
  present g a ->
  exists na na1 l1,
    id_to_node_mapping g !! a = Some na /\
    id_to_node_mapping (upd (fun n => set_in K n l2) b g) !! a = Some na1 /\
    get_out K na1 = get_out K na /\
    list_remove b (get_out K na1) = Some l1.
Proof.
  intros Hbal Hb Hl2 [na Ha].
  assert (Hpos : (0 < occ b (get_out K na))%nat).
  { rewrite (Hbal a b na nb Ha Hb). eapply list_remove_pos, Hl2. }
  assert (Ha1 : exists na1, id_to_node_mapping (upd (fun n => set_in K n l2) b g) !! a = Some na1
                            /\ get_out K na1 = get_out K na).
  { rewrite lookup_upd. destruct (decide (b = a)) as [->|].
    - rewrite Ha. simpl. eexists. split; [reflexivity|]. apply get_out_set_in.
    - eauto. }
  destruct Ha1 as (na1 & Ha1 & Eout).
  rewrite <- Eout in Hpos. destruct (list_remove_Some _ _ Hpos) as [l1 Hl1].
  exists na, na1, l1. auto.
Qed.

Lemma pair_removed_consistent' K a b g nb l2 na1 l1 :
  Ks K ->
  consistent g ->
  id_to_node_mapping g !! b = Some nb ->
  list_remove a (get_in K nb) = Some l2 ->
  id_to_node_mapping (upd (fun n => set_in K n l2) b g) !! a = Some na1 ->
  list_remove b (get_out K na1) = Some l1 ->
  consistent (upd (fun n => set_out K n l1) a
                  (upd (fun n => set_in K n l2) b g)).
Proof.
  intros HK Hc Hb Hl2 Ha1 Hl1. rewrite upd_swap.
  apply lookup_upd_inv in Ha1 as (na & Ha & Ena).
  assert (Eout : get_out K na1 = get_out K na).
  { rewrite Ena. destruct (decide (b = a)); [apply get_out_set_in|reflexivity]. }
  rewrite Eout in Hl1.
  assert (Hb1 : exists nb1, id_to_node_mapping (upd (fun n => set_out K n l1) a g) !! b = Some nb1
                            /\ get_in K nb1 = get_in K nb).
  { rewrite lookup_upd. destruct (decide (a = b)) as [->|].
    - rewrite Hb. simpl. eexists. split; [reflexivity|]. apply get_in_set_out.
    - eauto. }
  destruct Hb1 as (nb1 & Hb1 & Ein).
  eapply (pair_removed_consistent Ks K a b g na l1 nb1 l2); try eassumption.
  rewrite Ein. exact Hl2.
Qed.

Lemma data_outlinks_remove_run i x g n l l' :
  id_to_node_mapping g !! i = Some n ->
  data_precedence_outlinks n = Some l ->
  list_remove x l = Some l' ->
  data_outlinks_remove i x g
  = (Ok tt, upd (fun n => set_out Precedence n l') i g).
Proof.
  intros Hn Hk Hl.
  unfold data_outlinks_remove, data_outlinks, bindS, node_at, getitem.
  rewrite Hn. cbn [fst snd]. rewrite Hk. unfold ret. cbn [fst snd].
  rewrite Hl. reflexivity.
Qed.

Lemma data_inlinks_remove_run i x g n l l' :
  id_to_node_mapping g !! i = Some n ->
  data_precedence_inlinks n = Some l ->
  list_remove x l = Some l' ->
  data_inlinks_remove i x g
  = (Ok tt, upd (fun n => set_in Precedence n l') i g).
Proof.
  intros Hn Hk Hl.
  unfold data_inlinks_remove, data_inlinks, bindS, node_at, getitem.
  rewrite Hn. cbn [fst snd]. rewrite Hk. unfold ret. cbn [fst snd].
  rewrite Hl. reflexivity.
Qed.

Lemma In_precedence_out_key n x :
  In x (precedence_outlinks n) ->
  data_precedence_outlinks n = Some (precedence_outlinks n).
Proof.
  unfold precedence_outlinks. destruct (data_precedence_outlinks n); [reflexivity|].
  intros [].
Qed.

Lemma In_precedence_in_key n x :
  In x (precedence_inlinks n) ->
  data_precedence_inlinks n = Some (precedence_inlinks n).
Proof.
  unfold precedence_inlinks. destruct (data_precedence_inlinks n); [reflexivity|].
  intros [].
Qed.

(** One turn of the first loop of [remove_from_precedence], for a
    predecessor that lists the node: the edge is taken out on both
    sides. *)
Lemma unlink_predecessor_ok node i p g np :
  consistent g -> present g i -> node_id node = i ->
  id_to_node_mapping g !! p = Some np ->
  In i (precedence_outlinks np) ->
  exists l1 ni1 l2,
    list_remove i (precedence_outlinks np) = Some l1 /\
    id_to_node_mapping (upd (fun n => set_out Precedence n l1) p g) !! i
    = Some ni1 /\
    list_remove p (precedence_inlinks ni1) = Some l2 /\
    unlink_predecessor node i p g
    = (Ok tt, upd (fun n => set_in Precedence n l2) i
                  (upd (fun n => set_out Precedence n l1) p g)) /\
    consistent (upd (fun n => set_in Precedence n l2) i
                    (upd (fun n => set_out Precedence n l1) p g)).
Proof.
  intros Hc Hi Hid Hp Hin.
  pose proof (In_precedence_out_key np i Hin) as Ek.
  pose proof (proj2 (z_in_In _ _) Hin) as Ez.
  destruct (list_remove_Some i (precedence_outlinks np)
              (proj1 (In_occ _ _) Hin)) as [l1 Hl1].
  destruct (second_removal Precedence p i g np l1 (proj2 Hc Precedence HKs) Hp Hl1 Hi)
    as (ni & ni1 & l2 & Hgi & Hi1 & Ein & Hl2).
  simpl in Hl2. exists l1, ni1, l2.
  split; [exact Hl1|]. split; [exact Hi1|]. split; [exact Hl2|]. split.
  - unfold unlink_predecessor. rewrite Hid.
    unfold bindS at 1. unfold node_at at 1, getitem. rewrite Hp.
    cbn [fst snd]. rewrite Ek, Ez. cbn [negb]. unfold bindS.
    rewrite (data_outlinks_remove_run p i g np _ l1 Hp Ek Hl1).
    rewrite (data_inlinks_remove_run i p _ ni1 _ l2 Hi1
               (removable_in_key ni1 p l2 Hl2) Hl2).
    reflexivity.
  - eapply (pair_removed_consistent Ks Precedence p i g np l1 ni1 l2); eassumption.
Qed.

Lemma unlink_descendant_ok node i d g nd :
  consistent g -> present g i -> node_id node = i ->
  id_to_node_mapping g !! d = Some nd ->
  In i (precedence_inlinks nd) ->
  exists l2 ni1 l1,
    list_remove i (precedence_inlinks nd) = Some l2 /\
    id_to_node_mapping (upd (fun n => set_in Precedence n l2) d g) !! i
    = Some ni1 /\
    list_remove d (precedence_outlinks ni1) = Some l1 /\
    unlink_descendant node i d g
    = (Ok tt, upd (fun n => set_out Precedence n l1) i
                  (upd (fun n => set_in Precedence n l2) d g)) /\
    consistent (upd (fun n => set_out Precedence n l1) i
                    (upd (fun n => set_in Precedence n l2) d g)).
Proof.
  intros Hc Hi Hid Hd Hin.
  pose proof (In_precedence_in_key nd i Hin) as Ek.
  pose proof (proj2 (z_in_In _ _) Hin) as Ez.
  destruct (list_remove_Some i (precedence_inlinks nd)
              (proj1 (In_occ _ _) Hin)) as [l2 Hl2].
  destruct (first_removal Precedence i d g nd l2 (proj2 Hc Precedence HKs) Hd Hl2 Hi)
    as (ni & ni1 & l1 & Hgi & Hi1 & Eout & Hl1).
  simpl in Hl1. exists l2, ni1, l1.
  split; [exact Hl2|]. split; [exact Hi1|]. split; [exact Hl1|]. split.
  - unfold unlink_descendant. rewrite Hid.
    unfold bindS at 1. unfold node_at at 1, getitem. rewrite Hd.
    cbn [fst snd]. rewrite Ek, Ez. cbn [negb]. unfold bindS.
    rewrite (data_inlinks_remove_run d i g nd _ l2 Hd Ek Hl2).
    rewrite (data_outlinks_remove_run i d _ ni1 _ l1 Hi1
               (removable_out_key ni1 d l1 Hl1) Hl1).
    reflexivity.
  - eapply (pair_removed_consistent' Precedence i d g nd l2 ni1 l1); eassumption.
Qed.

(** A turn of either loop raises and leaves the graph as it is, or
    returns and leaves a consistent graph. *)
Lemma unlink_predecessor_cases node i p g :
  consistent g -> present g i -> node_id node = i ->
  (exists e, unlink_predecessor node i p g = (Raise e, g)) \/
  (exists np l1 l2,
      id_to_node_mapping g !! p = Some np /\
      unlink_predecessor node i p g
      = (Ok tt, upd (fun n => set_in Precedence n l2) i
                    (upd (fun n => set_out Precedence n l1) p g)) /\
      consistent (upd (fun n => set_in Precedence n l2) i
                      (upd (fun n => set_out Precedence n l1) p g))).
Proof.
  intros Hc Hi Hid.
  destruct (id_to_node_mapping g !! p) as [np|] eqn:Hp.
  - destruct (z_in i (precedence_outlinks np)) eqn:Ez.
    + right. apply z_in_In in Ez.
      destruct (unlink_predecessor_ok node i p g np Hc Hi Hid Hp Ez)
        as (l1 & ni1 & l2 & _ & _ & _ & Hrun & Hcons).
      exists np, l1, l2. auto.
    + left. exists ValueError. unfold unlink_predecessor. rewrite Hid.
      unfold bindS, node_at, getitem. rewrite Hp. cbn [fst snd].
      destruct (data_precedence_outlinks np) as [outs|] eqn:Ek; [|reflexivity].
      rewrite (data_out_key np outs Ek) in Ez. rewrite Ez. reflexivity.
  - left. exists KeyError. unfold unlink_predecessor, bindS, node_at, getitem.
    rewrite Hp. reflexivity.
Qed.

Lemma unlink_descendant_cases node i d g :
  consistent g -> present g i -> node_id node = i ->
  (exists e, unlink_descendant node i d g = (Raise e, g)) \/
  (exists nd l2 l1,
      id_to_node_mapping g !! d = Some nd /\
      unlink_descendant node i d g
      = (Ok tt, upd (fun n => set_out Precedence n l1) i
                    (upd (fun n => set_in Precedence n l2) d g)) /\
      consistent (upd (fun n => set_out Precedence n l1) i
                      (upd (fun n => set_in Precedence n l2) d g))).
Proof.
  intros Hc Hi Hid.
  destruct (id_to_node_mapping g !! d) as [nd|] eqn:Hd.
  - destruct (z_in i (precedence_inlinks nd)) eqn:Ez.
    + right. apply z_in_In in Ez.
      destruct (unlink_descendant_ok node i d g nd Hc Hi Hid Hd Ez)
        as (l2 & ni1 & l1 & _ & _ & _ & Hrun & Hcons).
      exists nd, l2, l1. auto.
    + left. exists ValueError. unfold unlink_descendant. rewrite Hid.
      unfold bindS, node_at, getitem. rewrite Hd. cbn [fst snd].
      destruct (data_precedence_inlinks nd) as [ins|] eqn:Ek; [|reflexivity].
      rewrite (data_in_key nd ins Ek) in Ez. rewrite Ez. reflexivity.
  - left. exists KeyError. unfold unlink_descendant, bindS, node_at, getitem.
    rewrite Hd. reflexivity.
Qed.
End UnlinkFacts.

Section BridgeFacts.
Import Graph GraphSpec.
Variable Ks : kind -> Prop.
Hypothesis HKs : Ks Precedence.
Local Abbreviation consistent := (consistent_on Ks).

Lemma grows_refl g : grows g g.
Proof.
  intros c n H. exists n. repeat split; auto using incl_refl.
Qed.

Lemma grows_trans g1 g2 g3 : grows g1 g2 -> grows g2 g3 -> grows g1 g3.
Proof.
  intros H12 H23 c n H.
  destruct (H12 c n H) as (n2 & H2 & Ho & Hi & Hki & Hko).
  destruct (H23 c n2 H2) as (n3 & H3 & Ho' & Hi' & Hki' & Hko').
  exists n3. repeat split; eauto using incl_tran.
Qed.

Lemma has_out_key_grows g g' c : grows g g' -> has_out_key g c -> has_out_key g' c.
Proof.
  intros Hg (n & l & Hn & Hk).
  destruct (Hg c n Hn) as (n' & Hn' & _ & _ & _ & Hko).
  destruct Hko as [l' Hl']; [rewrite Hk; eauto|]. exists n', l'. auto.
Qed.

Lemma has_in_key_grows g g' c : grows g g' -> has_in_key g c -> has_in_key g' c.
Proof.
  intros Hg (n & l & Hn & Hk).
  destruct (Hg c n Hn) as (n' & Hn' & _ & _ & Hki & _).
  destruct Hki as [l' Hl']; [rewrite Hk; eauto|]. exists n', l'. auto.
Qed.

Lemma linked_grows g g' p d : grows g g' -> linked g p d -> linked g' p d.
Proof.
  intros Hg (np & nd & Hp & Hd & Ho & Hi).
  destruct (Hg p np Hp) as (np' & Hp' & Hop & _).
  destruct (Hg d nd Hd) as (nd' & Hd' & _ & Hid & _).
  exists np', nd'. repeat split; auto.
Qed.

Lemma present_grows g g' c : grows g g' -> present g c -> present g' c.
Proof.
  intros Hg [n Hn]. destruct (Hg c n Hn) as (n' & Hn' & _). eexists; eauto.
Qed.

(** Appending to the precedence outlinks (inlinks) of a node that has
    the key makes the graph grow. *)
Lemma grows_append_out i x g n l :
  id_to_node_mapping g !! i = Some n ->
  data_precedence_outlinks n = Some l ->
  grows g (upd (fun n => set_out Precedence n (l ++ [x])) i g).
Proof.
  intros Hn Hk c m Hm. rewrite lookup_upd.
  destruct (decide (i = c)) as [<-|Hne].
  - rewrite Hn. simpl. eexists. split; [reflexivity|].
    rewrite Hn in Hm. injection Hm as <-.
    pose proof (data_out_key n l Hk) as E.
    destruct n; simpl in *. subst. repeat split; eauto using incl_refl.
    apply incl_appl, incl_refl.
  - exists m. repeat split; auto using incl_refl.
Qed.

Lemma grows_append_in i x g n l :
  id_to_node_mapping g !! i = Some n ->
  data_precedence_inlinks n = Some l ->
  grows g (upd (fun n => set_in Precedence n (l ++ [x])) i g).
Proof.
  intros Hn Hk c m Hm. rewrite lookup_upd.
  destruct (decide (i = c)) as [<-|Hne].
  - rewrite Hn. simpl. eexists. split; [reflexivity|].
    rewrite Hn in Hm. injection Hm as <-.
    pose proof (data_in_key n l Hk) as E.
    destruct n; simpl in *. subst. repeat split; eauto using incl_refl.
    apply incl_appl, incl_refl.
  - exists m. repeat split; auto using incl_refl.
Qed.

Lemma data_outlinks_add_new_run p d g n l :
  id_to_node_mapping g !! p = Some n ->
  data_precedence_outlinks n = Some l ->
  data_outlinks_add_new p d g
  = (Ok tt, if z_in d l then g
            else upd (fun n => set_out Precedence n (l ++ [d])) p g).
Proof.
  intros Hn Hk.
  unfold data_outlinks_add_new, data_outlinks, bindS, node_at, getitem.
  rewrite Hn. cbn [fst snd]. rewrite Hk. unfold ret. cbn [fst snd].
  destruct (z_in d l); reflexivity.
Qed.

Lemma data_inlinks_add_new_run d p g n l :
  id_to_node_mapping g !! d = Some n ->
  data_precedence_inlinks n = Some l ->
  data_inlinks_add_new d p g
  = (Ok tt, if z_in p l then g
            else upd (fun n => set_in Precedence n (l ++ [p])) d g).
Proof.
  intros Hn Hk.
  unfold data_inlinks_add_new, data_inlinks, bindS, node_at, getitem.
  rewrite Hn. cbn [fst snd]. rewrite Hk. unfold ret. cbn [fst snd].
  destruct (z_in p l); reflexivity.
Qed.

(** One turn of the inner loop of the bridging: afterwards [p] and
    [d] are linked; nodes other than [p] and [d] are untouched. *)
Lemma bridge_step_ok p d g :
  consistent g -> has_out_key g p -> has_in_key g d ->
  exists g',
    (do descendant <- node_at d;
     data_outlinks_add_new p d ;; data_inlinks_add_new d p) g = (Ok tt, g') /\
    consistent g' /\ linked g' p d /\ grows g g' /\
    (forall c, c <> p -> c <> d ->
       id_to_node_mapping g' !! c = id_to_node_mapping g !! c).
Proof.
  intros Hc (np & lo & Hp & Hko) (nd & li & Hd & Hki).
  pose proof (data_out_key np lo Hko) as Eo.
  pose proof (data_in_key nd li Hki) as Ei.
  pose proof (proj2 Hc Precedence HKs p d np nd Hp Hd) as Hbal. simpl in Hbal.
  rewrite Eo, Ei in Hbal.
  unfold bindS at 1. unfold node_at at 1, getitem. rewrite Hd. cbn [fst snd].
  unfold bindS. rewrite (data_outlinks_add_new_run p d g np lo Hp Hko).
  destruct (z_in d lo) eqn:Ezo.
  - (* already linked on both sides *)
    assert (Ezi : z_in p li = true).
    { apply z_in_occ. rewrite <- Hbal. apply z_in_occ, Ezo. }
    rewrite (data_inlinks_add_new_run d p g nd li Hd Hki), Ezi.
    exists g. split; [reflexivity|]. split; [exact Hc|]. split; [|split].
    + exists np, nd. rewrite Eo, Ei. repeat split; auto; apply z_in_In; assumption.
    + apply grows_refl.
    + reflexivity.
  - assert (Ezi : z_in p li = false).
    { apply z_in_false_occ. rewrite <- Hbal. apply z_in_false_occ, Ezo. }
    set (g1 := upd (fun n => set_out Precedence n (lo ++ [d])) p g).
    assert (Hd1 : exists nd1, id_to_node_mapping g1 !! d = Some nd1 /\
                    data_precedence_inlinks nd1 = Some li).
    { unfold g1. rewrite lookup_upd. destruct (decide (p = d)) as [->|].
      - rewrite Hd. simpl. eexists. split; [reflexivity|].
        destruct nd; simpl in *. exact Hki.
      - eauto. }
    destruct Hd1 as (nd1 & Hd1 & Hki1).
    rewrite (data_inlinks_add_new_run d p g1 nd1 li Hd1 Hki1), Ezi.
    eexists. split; [reflexivity|].
    assert (Hg01 : grows g g1) by (eapply grows_append_out; eassumption).
    assert (Hg12 : grows g1 (upd (fun n => set_in Precedence n (li ++ [p])) d g1))
      by (eapply grows_append_in; eassumption).
    split; [|split; [|split]].
    + eapply (pair_appended_consistent Ks Precedence p d g _ _ np nd1); try eassumption.
      * apply out_setter_const.
      * apply in_setter_const.
      * simpl. rewrite Eo. destruct np; reflexivity.
      * simpl. rewrite (data_in_key nd1 li Hki1). destruct nd1; reflexivity.
    + (* linked *)
      assert (Hp2 : exists np2, id_to_node_mapping
                      (upd (fun n => set_in Precedence n (li ++ [p])) d g1) !! p = Some np2 /\
                      In d (precedence_outlinks np2)).
      { assert (Hp1 : exists np1, id_to_node_mapping g1 !! p = Some np1 /\
                        In d (precedence_outlinks np1)).
        { unfold g1. rewrite lookup_upd_eq, Hp. simpl. eexists. split; [reflexivity|].
          destruct np; simpl. apply in_or_app. right. now left. }
        destruct Hp1 as (np1 & Hp1 & Hin1).
        destruct (Hg12 p np1 Hp1) as (np2 & Hp2 & Ho & _). eauto. }
      destruct Hp2 as (np2 & Hp2 & Hin2).
      exists np2. eexists. split; [exact Hp2|]. split.
      * rewrite lookup_upd_eq, Hd1. reflexivity.
      * split; [exact Hin2|]. destruct nd1; simpl. apply in_or_app. right. now left.
    + eapply grows_trans; eassumption.
    + intros c Hcp Hcd. unfold g1. rewrite !lookup_upd_ne by congruence. reflexivity.
Qed.
End BridgeFacts.

Section KeyFacts.
Import Graph GraphSpec.

Lemma has_out_key_upd_out l i g c :
  has_out_key g c -> has_out_key (upd (fun n => set_out Precedence n l) i g) c.
Proof.
  intros (n & l0 & Hn & Hk). unfold has_out_key. rewrite lookup_upd.
  destruct (decide (i = c)) as [->|]; [|eauto].
  rewrite Hn. simpl. do 2 eexists. split; [reflexivity|]. destruct n; reflexivity.
Qed.

Lemma has_out_key_upd_in l i g c :
  has_out_key g c -> has_out_key (upd (fun n => set_in Precedence n l) i g) c.
Proof.
  intros (n & l0 & Hn & Hk). unfold has_out_key. rewrite lookup_upd.
  destruct (decide (i = c)) as [->|]; [|eauto].
  rewrite Hn. simpl. do 2 eexists. split; [reflexivity|].
  destruct n; simpl in *. exact Hk.
Qed.

Lemma has_in_key_upd_in l i g c :
  has_in_key g c -> has_in_key (upd (fun n => set_in Precedence n l) i g) c.
Proof.
  intros (n & l0 & Hn & Hk). unfold has_in_key. rewrite lookup_upd.
  destruct (decide (i = c)) as [->|]; [|eauto].
  rewrite Hn. simpl. do 2 eexists. split; [reflexivity|]. destruct n; reflexivity.
Qed.

Lemma has_in_key_upd_out l i g c :
  has_in_key g c -> has_in_key (upd (fun n => set_out Precedence n l) i g) c.
Proof.
  intros (n & l0 & Hn & Hk). unfold has_in_key. rewrite lookup_upd.
  destruct (decide (i = c)) as [->|]; [|eauto].
  rewrite Hn. simpl. do 2 eexists. split; [reflexivity|].
  destruct n; simpl in *. exact Hk.
Qed.

Lemma has_out_key_here l i g :
  present g i -> has_out_key (upd (fun n => set_out Precedence n l) i g) i.
Proof.
  intros [n Hn]. unfold has_out_key. rewrite lookup_upd_eq, Hn. simpl.
  do 2 eexists. split; [reflexivity|]. destruct n; reflexivity.
Qed.

Lemma has_in_key_here l i g :
  present g i -> has_in_key (upd (fun n => set_in Precedence n l) i g) i.
Proof.
  intros [n Hn]. unfold has_in_key. rewrite lookup_upd_eq, Hn. simpl.
  do 2 eexists. split; [reflexivity|]. destruct n; reflexivity.
Qed.

Lemma has_out_key_present g c : has_out_key g c -> present g c.
Proof. intros (n & l & Hn & _). eexists; eauto. Qed.

Lemma has_in_key_present g c : has_in_key g c -> present g c.
Proof. intros (n & l & Hn & _). eexists; eauto. Qed.
End KeyFacts.

Section BridgeLoops.
Import Graph GraphSpec.
Variable Ks : kind -> Prop.
Hypothesis HKs : Ks Precedence.
Local Abbreviation consistent := (consistent_on Ks).

Lemma bridge_inner_ok p D : forall g,
  consistent g -> has_out_key g p ->
  (forall d, In d D -> has_in_key g d) ->
  exists g',
    for_each D (fun descendant_id =>
      do descendant <- node_at descendant_id;
      data_outlinks_add_new p descendant_id ;;
      data_inlinks_add_new descendant_id p) g = (Ok tt, g') /\
    consistent g' /\ (forall d, In d D -> linked g' p d) /\ grows g g' /\
    (forall c, c <> p -> ~ In c D ->
       id_to_node_mapping g' !! c = id_to_node_mapping g !! c).
Proof.
  induction D as [|d t IH]; intros g Hc Hp HD.
  - exists g. split; [reflexivity|]. split; [exact Hc|].
    split; [intros d []|]. split; [apply grows_refl|reflexivity].
  - destruct (bridge_step_ok Ks HKs p d g Hc Hp (HD d (or_introl eq_refl)))
      as (g1 & Hrun & Hc1 & Hl1 & Hg1 & Hsame1).
    destruct (IH g1 Hc1 (has_out_key_grows _ _ _ Hg1 Hp)) as (g2 & Hrun2 & Hc2 & Hl2 & Hg2 & Hsame2).
    { intros d' Hd'. eapply has_in_key_grows; [exact Hg1|]. apply HD. now right. }
    exists g2. split.
    { cbn [for_each]. unfold bindS at 1. rewrite Hrun. exact Hrun2. }
    split; [exact Hc2|]. split; [|split].
    + intros d' [<-|Hd']; [eapply linked_grows; eassumption|apply Hl2, Hd'].
    + eapply grows_trans; eassumption.
    + intros c Hcp Hcd. rewrite Hsame2, Hsame1; auto.
      * intros ->. apply Hcd. now left.
      * intros H. apply Hcd. now right.
Qed.

Lemma bridge_ok P D : forall g,
  consistent g ->
  (forall p, In p P -> has_out_key g p) ->
  (forall d, In d D -> has_in_key g d) ->
  exists g',
    bridge P D g = (Ok tt, g') /\
    consistent g' /\
    (forall p d, In p P -> In d D -> linked g' p d) /\ grows g g' /\
    (forall c, ~ In c P -> ~ In c D ->
       id_to_node_mapping g' !! c = id_to_node_mapping g !! c).
Proof.
  unfold bridge. induction P as [|p t IH]; intros g Hc HP HD.
  - exists g. split; [reflexivity|]. split; [exact Hc|].
    split; [intros p d []|]. split; [apply grows_refl|reflexivity].
  - pose proof (HP p (or_introl eq_refl)) as Hp.
    destruct (bridge_inner_ok p D g Hc Hp HD)
      as (g1 & Hrun & Hc1 & Hl1 & Hg1 & Hsame1).
    destruct (IH g1 Hc1) as (g2 & Hrun2 & Hc2 & Hl2 & Hg2 & Hsame2).
    { intros p' Hp'. eapply has_out_key_grows; [exact Hg1|]. apply HP. now right. }
    { intros d' Hd'. eapply has_in_key_grows; [exact Hg1|]. apply HD, Hd'. }
    exists g2. split.
    { cbn [for_each]. unfold bindS at 1. unfold bindS at 1.
      destruct (has_out_key_present _ _ Hp) as [np Hnp].
      unfold node_at at 1, getitem. rewrite Hnp. cbn [fst snd].
      rewrite Hrun. exact Hrun2. }
    split; [exact Hc2|]. split; [|split].
    + intros p' d' [<-|Hp'] Hd'; [|apply Hl2; assumption].
      eapply linked_grows; [exact Hg2|]. apply Hl1, Hd'.
    + eapply grows_trans; eassumption.
    + intros c Hcp Hcd. rewrite Hsame2, Hsame1; auto.
      * intros ->. apply Hcp. now left.
      * intros H. apply Hcp. now right.
Qed.
End BridgeLoops.

Section PrecedenceRemoval.
Import Graph GraphSpec.
Variable Ks : kind -> Prop.
Hypothesis HKs : Ks Precedence.
Local Abbreviation consistent := (consistent_on Ks).

Lemma predecessors_eq n :
  (if nonempty (data_precedence_inlinks n) then precedence_inlinks n else [])
  = precedence_inlinks n.
Proof.
  unfold precedence_inlinks, nonempty.
  destruct (data_precedence_inlinks n) as [[|x l]|]; reflexivity.
Qed.

Lemma descendants_eq n :
  (if nonempty (data_precedence_outlinks n) then precedence_outlinks n else [])
  = precedence_outlinks n.
Proof.
  unfold precedence_outlinks, nonempty.
  destruct (data_precedence_outlinks n) as [[|x l]|]; reflexivity.
Qed.

Lemma nonempty_in n :
  nonempty (data_precedence_inlinks n) = false -> precedence_inlinks n = [].
Proof.
  unfold precedence_inlinks, nonempty.
  destruct (data_precedence_inlinks n) as [[|x l]|]; auto; discriminate.
Qed.

Lemma nonempty_out n :
  nonempty (data_precedence_outlinks n) = false -> precedence_outlinks n = [].
Proof.
  unfold precedence_outlinks, nonempty.
  destruct (data_precedence_outlinks n) as [[|x l]|]; auto; discriminate.
Qed.

(** The first loop, on any consistent graph: it leaves a consistent
    graph, and when it returns every predecessor has its key. *)
Lemma unlink_predecessors_weak node i P : forall g,
  consistent g -> present g i -> node_id node = i ->
  let out := for_each P (unlink_predecessor node i) g in
  consistent (snd out) /\ present (snd out) i /\
  (forall c, has_in_key g c -> has_in_key (snd out) c) /\
  (forall c, has_out_key g c -> has_out_key (snd out) c) /\
  (fst out = Ok tt -> forall p, In p P -> has_out_key (snd out) p).
Proof.
  induction P as [|p t IH]; intros g Hc Hi Hid; cbv zeta.
  - simpl. split; [exact Hc|]. split; [exact Hi|]. split; [auto|].
    split; [auto|]. intros _ q [].
  - destruct (unlink_predecessor_cases Ks HKs node i p g Hc Hi Hid)
      as [[e He]|(np & l1 & l2 & Hp & Hrun & Hc1)].
    + assert (E : for_each (p :: t) (unlink_predecessor node i) g = (Raise e, g)).
      { cbn [for_each]. unfold bindS. rewrite He. reflexivity. }
      rewrite E. simpl. split; [exact Hc|]. split; [exact Hi|].
      split; [auto|]. split; [auto|]. discriminate.
    + assert (E : for_each (p :: t) (unlink_predecessor node i) g
                  = for_each t (unlink_predecessor node i)
                      (upd (fun n => set_in Precedence n l2) i
                         (upd (fun n => set_out Precedence n l1) p g))).
      { cbn [for_each]. unfold bindS. rewrite Hrun. reflexivity. }
      rewrite E. clear E.
      set (g1 := upd (fun n => set_in Precedence n l2) i
                     (upd (fun n => set_out Precedence n l1) p g)) in *.
      assert (Hi1 : present g1 i) by (unfold g1; rewrite !present_upd; exact Hi).
      destruct (IH g1 Hc1 Hi1 Hid) as (Hc2 & Hi2 & Hkin & Hkout & HP).
      split; [exact Hc2|]. split; [exact Hi2|]. split; [|split].
      * intros c Hk. apply Hkin. unfold g1.
        apply has_in_key_upd_in, has_in_key_upd_out, Hk.
      * intros c Hk. apply Hkout. unfold g1.
        apply has_out_key_upd_in, has_out_key_upd_out, Hk.
      * intros Hok q [Hq|Hq]; [subst q|apply HP; assumption].
        apply Hkout. unfold g1. apply has_out_key_upd_in, has_out_key_here.
        eexists; eassumption.
Qed.

Lemma unlink_descendants_weak node i D : forall g,
  consistent g -> present g i -> node_id node = i ->
  let out := for_each D (unlink_descendant node i) g in
  consistent (snd out) /\ present (snd out) i /\
  (forall c, has_in_key g c -> has_in_key (snd out) c) /\
  (forall c, has_out_key g c -> has_out_key (snd out) c) /\
  (fst out = Ok tt -> forall d, In d D -> has_in_key (snd out) d).
Proof.
  induction D as [|d t IH]; intros g Hc Hi Hid; cbv zeta.
  - simpl. split; [exact Hc|]. split; [exact Hi|]. split; [auto|].
    split; [auto|]. intros _ q [].
  - destruct (unlink_descendant_cases Ks HKs node i d g Hc Hi Hid)
      as [[e He]|(nd & l2 & l1 & Hd & Hrun & Hc1)].
    + assert (E : for_each (d :: t) (unlink_descendant node i) g = (Raise e, g)).
      { cbn [for_each]. unfold bindS. rewrite He. reflexivity. }
      rewrite E. simpl. split; [exact Hc|]. split; [exact Hi|].
      split; [auto|]. split; [auto|]. discriminate.
    + assert (E : for_each (d :: t) (unlink_descendant node i) g
                  = for_each t (unlink_descendant node i)
                      (upd (fun n => set_out Precedence n l1) i
                         (upd (fun n => set_in Precedence n l2) d g))).
      { cbn [for_each]. unfold bindS. rewrite Hrun. reflexivity. }
      rewrite E. clear E.
      set (g1 := upd (fun n => set_out Precedence n l1) i
                     (upd (fun n => set_in Precedence n l2) d g)) in *.
      assert (Hi1 : present g1 i) by (unfold g1; rewrite !present_upd; exact Hi).
      destruct (IH g1 Hc1 Hi1 Hid) as (Hc2 & Hi2 & Hkin & Hkout & HD).
      split; [exact Hc2|]. split; [exact Hi2|]. split; [|split].
      * intros c Hk. apply Hkin. unfold g1.
        apply has_in_key_upd_out, has_in_key_upd_in, Hk.
      * intros c Hk. apply Hkout. unfold g1.
        apply has_out_key_upd_out, has_out_key_upd_in, Hk.
      * intros Hok q [Hq|Hq]; [subst q|apply HD; assumption].
        apply Hkin. unfold g1. apply has_in_key_upd_out, has_in_key_here.
        eexists; eassumption.
Qed.

(** [remove_from_precedence] keeps a consistent graph consistent,
    whether it returns or raises. *)
Lemma remove_from_precedence_keeps i g :
  consistent g -> consistent (snd (remove_from_precedence i g)).
Proof.
  intros Hc. unfold remove_from_precedence.
  unfold bindS at 1. unfold node_at at 1, getitem.
  destruct (id_to_node_mapping g !! i) as [node|] eqn:Hn; [|exact Hc].
  cbn [fst snd].
  assert (Hid : node_id node = i) by (apply (proj1 Hc), Hn).
  assert (Hi : present g i) by (eexists; exact Hn).
  rewrite predecessors_eq, descendants_eq.
  destruct (negb (nonempty (data_precedence_inlinks node)) &&
            negb (nonempty (data_precedence_outlinks node))); [exact Hc|].
  unfold bindS at 1.
  destruct (unlink_predecessors_weak node i (precedence_inlinks node) g Hc Hi Hid)
    as (Hc1 & Hi1 & _ & _ & HP1).
  destruct (for_each (precedence_inlinks node) (unlink_predecessor node i) g)
    as [[[]|e] g1]; simpl in Hc1, Hi1, HP1; [|exact Hc1].
  unfold bindS at 1.
  destruct (unlink_descendants_weak node i (precedence_outlinks node) g1 Hc1 Hi1 Hid)
    as (Hc2 & Hi2 & _ & Hkout2 & HD2).
  destruct (for_each (precedence_outlinks node) (unlink_descendant node i) g1)
    as [[[]|e] g2]; simpl in Hc2, Hi2, Hkout2, HD2; [|exact Hc2].
  destruct (bridge_ok Ks HKs (precedence_inlinks node) (precedence_outlinks node) g2 Hc2)
    as (g3 & Hrun & Hc3 & _).
  { intros p Hp. apply Hkout2, HP1; auto. }
  { intros d Hd. apply HD2; auto. }
  rewrite Hrun. exact Hc3.
Qed.
End PrecedenceRemoval.

Section ReachableFacts.
Import Graph GraphSpec.

Lemma make_lookup_In ns a na :
  id_to_node_mapping (make ns) !! a = Some na -> In na ns /\ node_id na = a.
Proof.
  unfold make. cbn [id_to_node_mapping].
  assert (H : forall (m : gmap Z Node),
             (forall i n, m !! i = Some n -> In n ns /\ node_id n = i) ->
             forall l, incl l ns ->
             forall i n, fold_left (fun m n => <[node_id n := n]> m) l m !! i = Some n ->
                         In n ns /\ node_id n = i).
  { intros m Hm l. revert m Hm. induction l as [|x t IH]; intros m Hm Hl i n; simpl.
    - apply Hm.
    - apply IH.
      + intros j k. rewrite lookup_insert. destruct (decide (node_id x = j)) as [<-|].
        * intros [= <-]. split; [apply Hl; now left|reflexivity].
        * apply Hm.
      + intros y Hy. apply Hl. now right. }
  apply (H ∅); [|apply incl_refl]. intros i n. rewrite lookup_empty. discriminate.
Qed.

Lemma index_ok_make ns : index_ok (make ns).
Proof. intros i n H. apply (make_lookup_In ns i n H). Qed.

Lemma balanced_reciprocal K g : balanced K g -> reciprocal K g.
Proof.
  intros Hb a b na nb Ha Hb'. rewrite !In_occ, (Hb a b na nb Ha Hb'). reflexivity.
Qed.

Lemma occ_NoDup x l : List.NoDup l -> occ x l = if z_in x l then 1%nat else 0%nat.
Proof.
  intros Hnd. destruct (z_in x l) eqn:E.
  - apply z_in_occ in E. unfold occ in *.
    pose proof (proj1 (List.NoDup_count_occ Z.eq_dec l) Hnd x). lia.
  - apply z_in_false_occ, E.
Qed.

(** Reciprocal link lists that name no id twice are balanced. *)
Lemma reciprocal_nodup_balanced g :
  links_nodup g -> edge_reciprocity g -> precedence_reciprocity g ->
  edges_balanced g /\ precedence_balanced g.
Proof.
  intros Hnd He Hp. split; intros a b na nb Ha Hb.
  - destruct (Hnd a na Ha) as (_ & Ho & _). destruct (Hnd b nb Hb) as (Hi & _).
    rewrite (occ_NoDup b _ Ho), (occ_NoDup a _ Hi).
    specialize (He a b na nb Ha Hb). rewrite <- !z_in_In in He.
    destruct (z_in b (outlinks na)), (z_in a (inlinks nb)); try reflexivity;
      exfalso; [assert (false = true) by (apply He; reflexivity)
               |assert (false = true) by (apply He; reflexivity)]; discriminate.
  - destruct (Hnd a na Ha) as (_ & _ & _ & Ho). destruct (Hnd b nb Hb) as (_ & _ & Hi & _).
    rewrite (occ_NoDup b _ Ho), (occ_NoDup a _ Hi).
    specialize (Hp a b na nb Ha Hb). rewrite <- !z_in_In in Hp.
    destruct (z_in b (precedence_outlinks na)), (z_in a (precedence_inlinks nb));
      try reflexivity;
      exfalso; [assert (false = true) by (apply Hp; reflexivity)
               |assert (false = true) by (apply Hp; reflexivity)]; discriminate.
Qed.

Lemma trivially_all K : all_kinds K.
Proof. exact I. Qed.

Lemma run_keeps m g : consistent g -> consistent (snd (run m g)).
Proof.
  intros Hc. destruct m; cbn [run].
  - apply (add_edge_keeps all_kinds _ _ I g Hc).
  - apply (remove_edge_keeps all_kinds _ _ _ I g Hc).
  - apply (remove_vertex_keeps all_kinds _ I g Hc).
  - apply (remove_edges_for_vertex_keeps all_kinds _ I g Hc).
  - apply (add_precedence_edge_keeps all_kinds _ _ I g Hc).
  - apply (remove_precedence_edge_keeps all_kinds _ _ _ I g Hc).
  - apply (remove_from_precedence_keeps all_kinds I _ g Hc).
Qed.

Lemma reachable_consistent g0 g :
  consistent g0 -> reachable g0 g -> consistent g.
Proof.
  intros Hc Hr. induction Hr as [|g m Hr IH]; [exact Hc|].
  apply run_keeps, IH.
Qed.

Lemma lookup_contains g i n :
  id_to_node_mapping g !! i = Some n -> contains g i = true.
Proof. unfold contains. now intros ->. Qed.

(** [add_edge] on any graph: an edge listed on both sides is left as
    it is, an edge listed on one side only raises. *)
Lemma add_edge_outcome g a b na nb :
  id_to_node_mapping g !! a = Some na ->
  id_to_node_mapping g !! b = Some nb ->
  (In b (outlinks na) -> In a (inlinks nb) -> add_edge a b g = (Ok tt, g)) /\
  (~ (In b (outlinks na) <-> In a (inlinks nb)) ->
   add_edge a b g = (Raise NotationGraphError, g)).
Proof.
  intros Ha Hb. unfold add_edge.
  rewrite (lookup_contains g a na Ha), (lookup_contains g b nb Hb). cbn [negb].
  unfold bindS, node_at, getitem. rewrite Ha. cbn [fst snd]. rewrite Hb.
  cbn [fst snd]. rewrite <- !z_in_In.
  destruct (z_in b (outlinks na)), (z_in a (inlinks nb)); split; intros;
    try reflexivity; try congruence; exfalso; tauto.
Qed.

Lemma add_precedence_edge_outcome g a b na nb :
  id_to_node_mapping g !! a = Some na ->
  id_to_node_mapping g !! b = Some nb ->
  (In b (precedence_outlinks na) -> In a (precedence_inlinks nb) ->
   add_precedence_edge a b g = (Ok tt, g)) /\
  (~ (In b (precedence_outlinks na) <-> In a (precedence_inlinks nb)) ->
   add_precedence_edge a b g = (Raise NotationGraphError, g)).
Proof.
  intros Ha Hb. unfold add_precedence_edge.
  rewrite (lookup_contains g a na Ha), (lookup_contains g b nb Hb). cbn [negb].
  unfold bindS, node_at, getitem. rewrite Ha. cbn [fst snd]. rewrite Hb.
  cbn [fst snd]. rewrite <- !z_in_In.
  destruct (z_in b (precedence_outlinks na)), (z_in a (precedence_inlinks nb));
    split; intros; try reflexivity; try congruence; exfalso; tauto.
Qed.

Lemma balanced_consistent g :
  index_ok g -> edges_balanced g -> precedence_balanced g -> consistent g.
Proof. intros Hi He Hp. split; [exact Hi|]. intros [] _; assumption. Qed.

(** A reciprocal graph whose link lists name no id twice stays
    reciprocal under the mutators. *)
Lemma duplicate_free_reachable_reciprocal ns g :
  links_nodup (make ns) ->
  edge_reciprocity (make ns) -> precedence_reciprocity (make ns) ->
  reachable (make ns) g ->
  edge_reciprocity g /\ precedence_reciprocity g.
Proof.
  intros Hnd He Hp Hr.
  destruct (reciprocal_nodup_balanced _ Hnd He Hp) as [Be Bp].
  pose proof (reachable_consistent _ _
                (balanced_consistent _ (index_ok_make ns) Be Bp) Hr) as [_ Hb].
  split.
  - exact (balanced_reciprocal Attachment g (Hb Attachment I)).
  - exact (balanced_reciprocal Precedence g (Hb Precedence I)).
Qed.

(** C4. Every graph reached through the public mutators from a graph
    [NotationGraph(nodes)] that lists each edge as often at its source
    as at its target is reciprocal: [b] is among the outlinks of [a]
    exactly when [a] is among the inlinks of [b], and likewise for the
    precedence links. On any graph, [add_edge] and
    [add_precedence_edge] leave an edge that both sides list as it is
    and raise [NotationGraphError] for an edge that one side only
    lists. *)
Theorem reciprocity_of_reachable_graphs ns g :
  edges_balanced (make ns) -> precedence_balanced (make ns) ->
  reachable (make ns) g ->
  edge_reciprocity g /\ precedence_reciprocity g /\
  (forall h a b na nb,
     id_to_node_mapping h !! a = Some na ->
     id_to_node_mapping h !! b = Some nb ->
     (In b (outlinks na) -> In a (inlinks nb) ->
      add_edge a b h = (Ok tt, h)) /\
     (~ (In b (outlinks na) <-> In a (inlinks nb)) ->
      add_edge a b h = (Raise NotationGraphError, h)) /\
     (In b (precedence_outlinks na) -> In a (precedence_inlinks nb) ->
      add_precedence_edge a b h = (Ok tt, h)) /\
     (~ (In b (precedence_outlinks na) <-> In a (precedence_inlinks nb)) ->
      add_precedence_edge a b h = (Raise NotationGraphError, h))).
Proof.
  intros He Hp Hr.
  pose proof (reachable_consistent _ _
                (balanced_consistent _ (index_ok_make ns) He Hp) Hr) as [_ Hb].
  split; [exact (balanced_reciprocal Attachment g (Hb Attachment I))|].
  split; [exact (balanced_reciprocal Precedence g (Hb Precedence I))|].
  intros h a b na nb Ha Hb'.
  destruct (add_edge_outcome h a b na nb Ha Hb') as [H1 H2].
  destruct (add_precedence_edge_outcome h a b na nb Ha Hb') as [H3 H4].
  auto.
Qed.

(** In a graph built from a list of nodes, a property of pairs of
    nodes is checked on the pairs of the list. *)
Lemma make_pairs ns (P : Z -> Z -> Node -> Node -> Prop) :
  (forall na nb, In na ns -> In nb ns -> P (node_id na) (node_id nb) na nb) ->
  forall a b na nb,
    id_to_node_mapping (make ns) !! a = Some na ->
    id_to_node_mapping (make ns) !! b = Some nb -> P a b na nb.
Proof.
  intros H a b na nb Ha Hb.
  destruct (make_lookup_In ns a na Ha) as [Ia <-].
  destruct (make_lookup_In ns b nb Hb) as [Ib <-]. auto.
Qed.

Lemma make_balanced K ns :
  (forall na nb, In na ns -> In nb ns ->
     occ (node_id nb) (get_out K na) = occ (node_id na) (get_in K nb)) ->
  balanced K (make ns).
Proof. intros H. exact (make_pairs ns _ H). Qed.

Lemma make_reciprocal K ns :
  (forall na nb, In na ns -> In nb ns ->
     (In (node_id nb) (get_out K na) <-> In (node_id na) (get_in K nb))) ->
  reciprocal K (make ns).
Proof. intros H. exact (make_pairs ns _ H). Qed.

Lemma one_edge_balanced :
  edges_balanced Examples.one_edge /\ precedence_balanced Examples.one_edge.
Proof.
  split; [apply (make_balanced Attachment)|apply (make_balanced Precedence)];
    intros na nb Ha Hb; simpl in Ha, Hb;
    destruct Ha as [<-|[<-|[]]]; destruct Hb as [<-|[<-|[]]]; reflexivity.
Qed.

Lemma reciprocity_of_reachable_graphs_witness :
  let g := snd (run (AddEdge 2 1) Examples.one_edge) in
  reachable Examples.one_edge g /\
  edge_reciprocity g /\ precedence_reciprocity g.
Proof.
  intros g.
  assert (Hr : reachable Examples.one_edge g) by (apply reachable_step, reachable_start).
  split; [exact Hr|].
  destruct (reciprocity_of_reachable_graphs
              [Examples.node 1 "staff" [] [2]; Examples.node 2 "staffLine" [1] []] g
              (proj1 one_edge_balanced) (proj2 one_edge_balanced) Hr)
    as (H1 & H2 & _).
  split; assumption.
Defined.

(** A reciprocal graph that lists an edge twice at its source and once
    at its target: [remove_edge] takes one entry away on each side,
    and the source still lists the edge that the target has lost. *)
Lemma doubled_edge_loses_reciprocity :
  let g := snd (run (RemoveEdge 1 2 false) Examples.doubled_edge) in
  edge_reciprocity Examples.doubled_edge /\
  precedence_reciprocity Examples.doubled_edge /\
  reachable Examples.doubled_edge g /\
  fst (run (RemoveEdge 1 2 false) Examples.doubled_edge) = Ok tt /\
  ~ edge_reciprocity g.
Proof.
  intros g. split; [|split; [|split; [|split]]].
  - apply (make_reciprocal Attachment); intros na nb Ha Hb; simpl in Ha, Hb;
      destruct Ha as [<-|[<-|[]]]; destruct Hb as [<-|[<-|[]]]; simpl;
      intuition lia.
  - apply (make_reciprocal Precedence); intros na nb Ha Hb; simpl in Ha, Hb;
      destruct Ha as [<-|[<-|[]]]; destruct Hb as [<-|[<-|[]]]; simpl;
      intuition lia.
  - apply reachable_step, reachable_start.
  - vm_compute. reflexivity.
  - intros H.
    assert (H1 : id_to_node_mapping g !! 1 = Some (Examples.node 1 "a" [] [2]))
      by (vm_compute; reflexivity).
    assert (H2 : id_to_node_mapping g !! 2 = Some (Examples.node 2 "b" [] []))
      by (vm_compute; reflexivity).
    destruct (proj1 (H 1 2 _ _ H1 H2)). simpl. now left.
Qed.
End ReachableFacts.

Section PrecedenceBridging.
Import Graph GraphSpec.
Variable Ks : kind -> Prop.
Hypothesis HKs : Ks Precedence.
Local Abbreviation consistent := (consistent_on Ks).

(** The first loop on a node that is none of its own predecessors and
    whose predecessors are in the graph: it returns, the node has no
    precedence inlinks left and keeps its precedence outlinks. *)
Lemma unlink_predecessors_ok node i : forall P g ni,
  consistent g -> node_id node = i ->
  id_to_node_mapping g !! i = Some ni ->
  precedence_inlinks ni = P ->
  ~ In i P -> (forall p, In p P -> present g p) ->
  exists g' ni',
    for_each P (unlink_predecessor node i) g = (Ok tt, g') /\
    consistent g' /\
    id_to_node_mapping g' !! i = Some ni' /\
    precedence_inlinks ni' = [] /\
    precedence_outlinks ni' = precedence_outlinks ni /\
    (forall c, present g c -> present g' c) /\
    (forall c, has_in_key g c -> has_in_key g' c) /\
    (forall c, has_out_key g c -> has_out_key g' c) /\
    (forall p, In p P -> has_out_key g' p).
Proof.
  induction P as [|p t IH]; intros g ni Hc Hid Hi HP Hni Hpres.
  - exists g, ni. simpl. repeat (split; [solve [auto]|]). intros p [].
  - assert (Hpi : p <> i) by (intros ->; apply Hni; now left).
    destruct (Hpres p (or_introl eq_refl)) as [np Hp].
    assert (Hin : In i (precedence_outlinks np)).
    { apply In_occ.
      pose proof (proj2 Hc Precedence HKs p i np ni Hp Hi) as Hb. simpl in Hb.
      rewrite Hb, HP. apply In_occ. now left. }
    assert (Hpr : present g i) by (eexists; exact Hi).
    destruct (unlink_predecessor_ok Ks HKs node i p g np Hc Hpr Hid Hp Hin)
      as (l1 & ni1 & l2 & Hl1 & Hi1 & Hl2 & Hrun & Hc1).
    rewrite lookup_upd_ne in Hi1 by exact Hpi.
    assert (ni1 = ni) by congruence. subst ni1.
    rewrite HP, list_remove_head in Hl2. injection Hl2 as <-.
    set (g1 := upd (fun n => set_in Precedence n t) i
                   (upd (fun n => set_out Precedence n l1) p g)) in *.
    assert (Hg1 : id_to_node_mapping g1 !! i = Some (set_in Precedence ni t)).
    { unfold g1. rewrite lookup_upd_eq, lookup_upd_ne by exact Hpi.
      rewrite Hi. reflexivity. }
    destruct (IH g1 (set_in Precedence ni t) Hc1 Hid Hg1
                (get_in_set_in Precedence ni t))
      as (g' & ni' & Hloop & Hc' & Hi' & Hin' & Hout' & Hpres' & Hkin & Hkout & HPk).
    { intros H. apply Hni. now right. }
    { intros q Hq. unfold g1. rewrite !present_upd. apply Hpres. now right. }
    exists g', ni'.
    split.
    { cbn [for_each]. unfold bindS. rewrite Hrun. exact Hloop. }
    split; [exact Hc'|]. split; [exact Hi'|]. split; [exact Hin'|].
    split.
    { rewrite Hout'. apply (get_out_set_in Precedence Precedence). }
    split.
    { intros c Hcp. apply Hpres'. unfold g1. rewrite !present_upd. exact Hcp. }
    split.
    { intros c Hk. apply Hkin. unfold g1.
      apply has_in_key_upd_in, has_in_key_upd_out, Hk. }
    split.
    { intros c Hk. apply Hkout. unfold g1.
      apply has_out_key_upd_in, has_out_key_upd_out, Hk. }
    intros q [Hq|Hq]; [subst q|apply HPk; exact Hq].
    apply Hkout. unfold g1. apply has_out_key_upd_in, has_out_key_here.
    eexists; exact Hp.
Qed.

Lemma unlink_descendants_ok node i : forall D g ni,
  consistent g -> node_id node = i ->
  id_to_node_mapping g !! i = Some ni ->
  precedence_outlinks ni = D ->
  ~ In i D -> (forall d, In d D -> present g d) ->
  exists g' ni',
    for_each D (unlink_descendant node i) g = (Ok tt, g') /\
    consistent g' /\
    id_to_node_mapping g' !! i = Some ni' /\
    precedence_outlinks ni' = [] /\
    precedence_inlinks ni' = precedence_inlinks ni /\
    (forall c, present g c -> present g' c) /\
    (forall c, has_in_key g c -> has_in_key g' c) /\
    (forall c, has_out_key g c -> has_out_key g' c) /\
    (forall d, In d D -> has_in_key g' d).
Proof.
  induction D as [|d t IH]; intros g ni Hc Hid Hi HD Hni Hpres.
  - exists g, ni. simpl. repeat (split; [solve [auto]|]). intros d [].
  - assert (Hdi : d <> i) by (intros ->; apply Hni; now left).
    destruct (Hpres d (or_introl eq_refl)) as [nd Hd].
    assert (Hin : In i (precedence_inlinks nd)).
    { apply In_occ.
      pose proof (proj2 Hc Precedence HKs i d ni nd Hi Hd) as Hb. simpl in Hb.
      rewrite <- Hb, HD. apply In_occ. now left. }
    assert (Hpr : present g i) by (eexists; exact Hi).
    destruct (unlink_descendant_ok Ks HKs node i d g nd Hc Hpr Hid Hd Hin)
      as (l2 & ni1 & l1 & Hl2 & Hi1 & Hl1 & Hrun & Hc1).
    rewrite lookup_upd_ne in Hi1 by exact Hdi.
    assert (ni1 = ni) by congruence. subst ni1.
    rewrite HD, list_remove_head in Hl1. injection Hl1 as <-.
    set (g1 := upd (fun n => set_out Precedence n t) i
                   (upd (fun n => set_in Precedence n l2) d g)) in *.
    assert (Hg1 : id_to_node_mapping g1 !! i = Some (set_out Precedence ni t)).
    { unfold g1. rewrite lookup_upd_eq, lookup_upd_ne by exact Hdi.
      rewrite Hi. reflexivity. }
    destruct (IH g1 (set_out Precedence ni t) Hc1 Hid Hg1
                (get_out_set_out Precedence ni t))
      as (g' & ni' & Hloop & Hc' & Hi' & Hout' & Hin' & Hpres' & Hkin & Hkout & HDk).
    { intros H. apply Hni. now right. }
    { intros q Hq. unfold g1. rewrite !present_upd. apply Hpres. now right. }
    exists g', ni'.
    split.
    { cbn [for_each]. unfold bindS. rewrite Hrun. exact Hloop. }
    split; [exact Hc'|]. split; [exact Hi'|]. split; [exact Hout'|].
    split.
    { rewrite Hin'. apply (get_in_set_out Precedence Precedence). }
    split.
    { intros c Hcp. apply Hpres'. unfold g1. rewrite !present_upd. exact Hcp. }
    split.
    { intros c Hk. apply Hkin. unfold g1.
      apply has_in_key_upd_out, has_in_key_upd_in, Hk. }
    split.
    { intros c Hk. apply Hkout. unfold g1.
      apply has_out_key_upd_out, has_out_key_upd_in, Hk. }
    intros q [Hq|Hq]; [subst q|apply HDk; exact Hq].
    apply Hkin. unfold g1. apply has_in_key_upd_out, has_in_key_here.
    eexists; exact Hd.
Qed.

(** The whole of [remove_from_precedence] under the same conditions. *)
Lemma remove_from_precedence_ok i g ni :
  consistent g ->
  id_to_node_mapping g !! i = Some ni ->
  (forall p, In p (precedence_inlinks ni) -> present g p) ->
  (forall d, In d (precedence_outlinks ni) -> present g d) ->
  ~ In i (precedence_inlinks ni) -> ~ In i (precedence_outlinks ni) ->
  exists g',
    remove_from_precedence i g = (Ok tt, g') /\
    consistent g' /\
    (forall p d, In p (precedence_inlinks ni) ->
                 In d (precedence_outlinks ni) -> linked g' p d) /\
    unlinked g' i.
Proof.
  intros Hc Hi HP HD HiP HiD.
  assert (Hid : node_id ni = i) by (apply (proj1 Hc), Hi).
  unfold remove_from_precedence.
  unfold bindS at 1. unfold node_at at 1, getitem. rewrite Hi. cbn [fst snd].
  rewrite predecessors_eq, descendants_eq.
  destruct (negb (nonempty (data_precedence_inlinks ni)) &&
            negb (nonempty (data_precedence_outlinks ni))) eqn:E.
  - apply andb_prop in E as [E1 E2].
    apply negb_true_iff in E1, E2.
    apply nonempty_in in E1. apply nonempty_out in E2.
    exists g. split; [reflexivity|]. split; [exact Hc|]. split.
    + intros p d Hp. rewrite E1 in Hp. destruct Hp.
    + exists ni. auto.
  - destruct (unlink_predecessors_ok ni i (precedence_inlinks ni) g ni
                Hc Hid Hi eq_refl HiP HP)
      as (g1 & n1 & Hl1 & Hc1 & Hi1 & Hin1 & Hout1 & Hpres1 & _ & _ & HPk).
    destruct (unlink_descendants_ok ni i (precedence_outlinks ni) g1 n1
                Hc1 Hid Hi1 Hout1 HiD)
      as (g2 & n2 & Hl2 & Hc2 & Hi2 & Hout2 & Hin2 & _ & _ & Hkout2 & HDk).
    { intros d Hd. apply Hpres1, HD, Hd. }
    destruct (bridge_ok Ks HKs (precedence_inlinks ni) (precedence_outlinks ni)
                g2 Hc2)
      as (g3 & Hrun & Hc3 & Hlinked & _ & Hframe).
    { intros p Hp. apply Hkout2, HPk, Hp. }
    { intros d Hd. apply HDk, Hd. }
    exists g3. split.
    { unfold bindS. rewrite Hl1. cbn [fst snd]. rewrite Hl2. cbn [fst snd].
      exact Hrun. }
    split; [exact Hc3|]. split; [exact Hlinked|].
    exists n2. split; [rewrite (Hframe i HiP HiD); exact Hi2|].
    split; [rewrite Hin2; exact Hin1|exact Hout2].
Qed.
End PrecedenceBridging.

Section Bridging.
Import Graph GraphSpec.

(** C8. On a graph whose index is keyed by the ids of its nodes and
    whose precedence links are listed as often at the source as at the
    target, for a node [X] whose precedence neighbours are nodes of
    the graph other than [X]: [remove_from_precedence X] returns, every
    former predecessor of [X] then lists every former successor among
    its precedence outlinks and is listed among the precedence inlinks
    of that successor, [X] has no precedence inlinks and no precedence
    outlinks left, and the precedence links are still balanced. *)
Theorem remove_from_precedence_bridges X g nX :
  index_ok g -> precedence_balanced g ->
  id_to_node_mapping g !! X = Some nX ->
  (forall c, In c (precedence_inlinks nX) \/ In c (precedence_outlinks nX) ->
             present g c /\ c <> X) ->
  exists g',
    remove_from_precedence X g = (Ok tt, g') /\
    (forall p d, In p (precedence_inlinks nX) ->
                 In d (precedence_outlinks nX) -> linked g' p d) /\
    unlinked g' X /\
    index_ok g' /\ precedence_balanced g'.
Proof.
  intros Hi Hb HX Hn.
  assert (Hc : consistent_on (eq Precedence) g).
  { split; [exact Hi|]. intros K <-. exact Hb. }
  destruct (remove_from_precedence_ok (eq Precedence) eq_refl X g nX Hc HX)
    as (g' & Hrun & [Hi' Hb'] & Hl & Hu).
  - intros p Hp. apply Hn. now left.
  - intros d Hd. apply Hn. now right.
  - intros H. destruct (Hn X (or_introl H)) as [_ E]. now apply E.
  - intros H. destruct (Hn X (or_intror H)) as [_ E]. now apply E.
  - exists g'. split; [exact Hrun|]. split; [exact Hl|]. split; [exact Hu|].
    split; [exact Hi'|]. exact (Hb' Precedence eq_refl).
Qed.

Lemma chain_balanced : precedence_balanced Examples.chain.
Proof.
  apply (make_balanced Precedence); intros na nb Ha Hb; simpl in Ha, Hb;
    destruct Ha as [<-|[<-|[<-|[]]]]; destruct Hb as [<-|[<-|[<-|[]]]];
    reflexivity.
Qed.

Lemma remove_from_precedence_bridges_witness :
  exists g',
    remove_from_precedence 2 Examples.chain = (Ok tt, g') /\
    linked g' 1 3 /\ unlinked g' 2.
Proof.
  destruct (remove_from_precedence_bridges 2 Examples.chain
              (Examples.pnode 2 "noteheadFull" [1] [3])
              (index_ok_make _) chain_balanced eq_refl)
    as (g' & Hrun & Hl & Hu & _).
  - intros c [[<-|[]]|[<-|[]]]; (split; [eexists; reflexivity|lia]).
  - exists g'. split; [exact Hrun|]. split; [|exact Hu].
    apply Hl; simpl; now left.
Defined.

(** A node that precedes itself: the precedence links are reciprocal,
    the first loop takes the node out of its own lists, the second
    loop then misses the reciprocal inlink and raises, and the node is
    not linked to itself afterwards. *)
Lemma self_precedence_not_bridged :
  let out := remove_from_precedence 1 Examples.self_precedence in
  precedence_reciprocity Examples.self_precedence /\
  fst out = Raise ValueError /\
  ~ linked (snd out) 1 1.
Proof.
  intros out. split; [|split].
  - apply (make_reciprocal Precedence); intros na nb Ha Hb; simpl in Ha, Hb;
      destruct Ha as [<-|[]]; destruct Hb as [<-|[]]; simpl; tauto.
  - vm_compute. reflexivity.
  - intros (np & nd & Hp & _ & Hin & _).
    assert (E : id_to_node_mapping (snd out) !! 1
                = Some (Examples.pnode 1 "noteheadFull" [] []))
      by (vm_compute; reflexivity).
    rewrite E in Hp. injection Hp as <-. destruct Hin.
Qed.

(** A predecessor listed twice that lists the node once, and a
    predecessor that is not in the graph: reciprocal precedence
    links, and the removal raises. *)
Lemma repeated_predecessor_raises :
  precedence_reciprocity Examples.repeated_predecessor /\
  fst (remove_from_precedence 2 Examples.repeated_predecessor)
  = Raise ValueError.
Proof.
  split; [|vm_compute; reflexivity].
  apply (make_reciprocal Precedence); intros na nb Ha Hb; simpl in Ha, Hb;
    destruct Ha as [<-|[<-|[]]]; destruct Hb as [<-|[<-|[]]]; simpl;
    intuition lia.
Qed.

Lemma absent_predecessor_raises :
  precedence_reciprocity Examples.absent_predecessor /\
  fst (remove_from_precedence 2 Examples.absent_predecessor)
  = Raise KeyError.
Proof.
  split; [|vm_compute; reflexivity].
  apply (make_reciprocal Precedence); intros na nb Ha Hb; simpl in Ha, Hb;
    destruct Ha as [<-|[]]; destruct Hb as [<-|[]]; simpl;
    intuition lia.
Qed.
End Bridging.

Section GraphQueryFacts.
Import Graph GraphSpec GraphQueries.

Lemma In_collect g class_filter ids n :
  In n (collect g class_filter ids) <->
  exists i, In i ids /\ id_to_node_mapping g !! i = Some n /\
            passes class_filter n = true.
Proof.
  induction ids as [|j t IH]; simpl.
  - split; [intros []|intros (i & [] & _)].
  - destruct (id_to_node_mapping g !! j) as [m|] eqn:E.
    + destruct (passes class_filter m) eqn:P.
      * split.
        -- intros [<-|H]; [exists j; auto|].
           apply IH in H as (i & Hi & H). exists i; auto.
        -- intros (i & [<-|Hi] & Hn & Hp).
           ++ left. congruence.
           ++ right. apply IH. eauto.
      * rewrite IH. split.
        -- intros (i & Hi & H). exists i; auto.
        -- intros (i & [<-|Hi] & Hn & Hp); [congruence|eauto].
    + rewrite IH. split.
      * intros (i & Hi & H). exists i; auto.
      * intros (i & [<-|Hi] & Hn & Hp); [congruence|eauto].
Qed.

(** X1. On a graph whose index is keyed by the ids of its nodes and
    whose attachment links are reciprocal, the queries agree for two
    nodes [a] and [b] of the graph: [has_edge(a, b)], [is_child_of(b, a)]
    and [is_parent_of(a, b)] return the same truth value, which is
    whether [a] lists [b] among its outlinks, and this holds exactly
    when [b] is among [children(a)] and exactly when [a] is among
    [parents(b)]. *)
Theorem queries_agree g a b na nb :
  index_ok g -> edge_reciprocity g ->
  id_to_node_mapping g !! a = Some na ->
  id_to_node_mapping g !! b = Some nb ->
  let listed := z_in b (outlinks na) in
  has_edge g a b = Ok listed /\
  is_child_of g b a = Ok listed /\
  is_parent_of g a b = Ok listed /\
  exists cs ps,
    children g a None = Ok cs /\ parents g b None = Ok ps /\
    (In nb cs <-> listed = true) /\ (In na ps <-> listed = true).
Proof.
  intros Hi Hr Ha Hb listed.
  pose proof (Hr a b na nb Ha Hb) as Hab. rewrite <- !z_in_In in Hab.
  assert (E : z_in a (inlinks nb) = listed).
  { subst listed. destruct (z_in b (outlinks na)), (z_in a (inlinks nb));
      try reflexivity.
    - apply (proj1 Hab). reflexivity.
    - symmetry. apply (proj2 Hab). reflexivity. }
  split.
  { unfold has_edge, getitem. rewrite Ha. cbn [bind]. fold listed.
    rewrite Hb. cbn [bind]. rewrite E. destruct listed; reflexivity. }
  split.
  { unfold is_child_of, getitem. rewrite Ha. reflexivity. }
  split.
  { unfold is_parent_of, is_child_of, getitem. rewrite Ha. reflexivity. }
  exists (collect g None (outlinks na)), (collect g None (inlinks nb)).
  split; [unfold children; now rewrite Ha|].
  split; [unfold parents; now rewrite Hb|].
  split.
  - rewrite In_collect. subst listed. rewrite z_in_In. split.
    + intros (i & Hin & Hn & _). rewrite <- (Hi i nb Hn), (Hi b nb Hb) in Hin.
      exact Hin.
    + intros Hin. exists b. auto.
  - rewrite In_collect, <- E, z_in_In. split.
    + intros (i & Hin & Hn & _). rewrite <- (Hi i na Hn), (Hi a na Ha) in Hin.
      exact Hin.
    + intros Hin. exists a. auto.
Qed.

Lemma queries_agree_witness :
  has_edge Examples.one_edge 1 2 = Ok true /\
  is_child_of Examples.one_edge 2 1 = Ok true.
Proof.
  destruct (queries_agree Examples.one_edge 1 2
              (Examples.node 1 "staff" [] [2])
              (Examples.node 2 "staffLine" [1] [])
              (index_ok_make _)
              (balanced_reciprocal Attachment _ (proj1 one_edge_balanced))
              eq_refl eq_refl) as (H1 & H2 & _).
  split; assumption.
Defined.

Lemma lookup_getitem g i n :
  id_to_node_mapping g !! i = Some n -> getitem g i = Ok n.
Proof. unfold getitem. now intros ->. Qed.

Lemma z_in_app_last x l : z_in x (l ++ [x]) = true.
Proof. apply z_in_In, in_or_app. right. now left. Qed.

(** The graph [add_edge] leaves when it appends the edge. *)
Lemma add_edge_fresh g a b na nb :
  id_to_node_mapping g !! a = Some na ->
  id_to_node_mapping g !! b = Some nb ->
  z_in b (outlinks na) = false -> z_in a (inlinks nb) = false ->
  add_edge a b g
  = (Ok tt, upd (fun n => with_inlinks n (inlinks n ++ [a])) b
              (upd (fun n => with_outlinks n (outlinks n ++ [b])) a g)).
Proof.
  intros Ha Hb Ho Hin. unfold add_edge.
  rewrite (lookup_contains g a na Ha), (lookup_contains g b nb Hb). cbn [negb].
  unfold bindS, node_at. rewrite (lookup_getitem g a na Ha). cbn [fst snd].
  rewrite (lookup_getitem g b nb Hb). cbn [fst snd]. rewrite Ho, Hin.
  reflexivity.
Qed.

Lemma after_append g a b na nb :
  id_to_node_mapping g !! a = Some na ->
  id_to_node_mapping g !! b = Some nb ->
  let g' := upd (fun n => with_inlinks n (inlinks n ++ [a])) b
              (upd (fun n => with_outlinks n (outlinks n ++ [b])) a g) in
  exists na' nb',
    id_to_node_mapping g' !! a = Some na' /\
    id_to_node_mapping g' !! b = Some nb' /\
    outlinks na' = outlinks na ++ [b] /\
    inlinks nb' = inlinks nb ++ [a].
Proof.
  intros Ha Hb g'. subst g'. destruct (decide (a = b)) as [->|Hne].
  - rewrite Ha in Hb. injection Hb as <-.
    rewrite !lookup_upd_eq, Ha. simpl. do 2 eexists.
    split; [reflexivity|]. split; [reflexivity|]. split; reflexivity.
  - rewrite lookup_upd_ne by congruence. rewrite lookup_upd_eq, Ha.
    rewrite lookup_upd_eq, lookup_upd_ne by congruence. rewrite Hb. simpl.
    do 2 eexists.
    split; [reflexivity|]. split; [reflexivity|]. split; reflexivity.
Qed.

(** X2. When [add_edge(a, b)] returns, [has_edge(a, b)] holds in the
    graph it leaves, whether the edge was there before or was
    appended. *)
Theorem add_edge_then_has_edge g a b g' :
  add_edge a b g = (Ok tt, g') -> has_edge g' a b = Ok true.
Proof.
  destruct (id_to_node_mapping g !! a) as [na|] eqn:Ha.
  2:{ unfold add_edge, contains. rewrite Ha. discriminate. }
  destruct (id_to_node_mapping g !! b) as [nb|] eqn:Hb.
  2:{ unfold add_edge, contains. rewrite Ha, Hb. discriminate. }
  destruct (z_in b (outlinks na)) eqn:Ho, (z_in a (inlinks nb)) eqn:Hin.
  - destruct (add_edge_outcome g a b na nb Ha Hb) as [H _].
    rewrite H by (apply z_in_In; assumption). intros [= <-].
    unfold has_edge. rewrite (lookup_getitem g a na Ha). cbn [bind].
    rewrite Ho, (lookup_getitem g b nb Hb). cbn [bind]. now rewrite Hin.
  - destruct (add_edge_outcome g a b na nb Ha Hb) as [_ H].
    rewrite H; [discriminate|]. rewrite <- !z_in_In, Ho, Hin.
    intros [H1 _]. specialize (H1 eq_refl). discriminate.
  - destruct (add_edge_outcome g a b na nb Ha Hb) as [_ H].
    rewrite H; [discriminate|]. rewrite <- !z_in_In, Ho, Hin.
    intros [_ H1]. specialize (H1 eq_refl). discriminate.
  - rewrite (add_edge_fresh g a b na nb Ha Hb Ho Hin). intros [= <-].
    destruct (after_append g a b na nb Ha Hb) as (na' & nb' & Ha' & Hb' & Eo & Ei).
    unfold has_edge. rewrite (lookup_getitem _ a na' Ha'). cbn [bind].
    rewrite Eo, z_in_app_last, (lookup_getitem _ b nb' Hb'). cbn [bind].
    now rewrite Ei, z_in_app_last.
Qed.

Lemma add_edge_then_has_edge_witness :
  has_edge (snd (add_edge 2 1 Examples.one_edge)) 2 1 = Ok true.
Proof.
  apply (add_edge_then_has_edge Examples.one_edge 2 1). reflexivity.
Defined.

Lemma list_remove_last_fresh x l :
  z_in x l = false -> list_remove x (l ++ [x]) = Some l.
Proof.
  induction l as [|y t IH]; simpl; intros H.
  - now rewrite Z.eqb_refl.
  - apply orb_false_iff in H as [H1 H2]. rewrite H1, (IH H2). reflexivity.
Qed.

Lemma graph_eq (g g' : NotationGraph) :
  nodes g = nodes g' ->
  (forall i, id_to_node_mapping g !! i = id_to_node_mapping g' !! i) ->
  g = g'.
Proof.
  destruct g as [ns m], g' as [ns' m']. simpl. intros -> H.
  f_equal. apply map_eq, H.
Qed.

Lemma remove_edge_run g a b s na nb :
  id_to_node_mapping g !! a = Some na ->
  id_to_node_mapping g !! b = Some nb ->
  remove_edge a b s g =
  if s && negb (z_in b (outlinks na)) then (Ok tt, g)
  else if s && negb (z_in a (inlinks nb)) then (Ok tt, g)
  else match list_remove b (outlinks na) with
       | None => (Raise ValueError, g)
       | Some l1 =>
           let g1 := upd (fun n => with_outlinks n l1) a g in
           match id_to_node_mapping g1 !! b with
           | None => (Raise KeyError, g1)
           | Some nb1 =>
               match list_remove a (inlinks nb1) with
               | None => (Raise ValueError, g1)
               | Some l2 => (Ok tt, upd (fun n => with_inlinks n l2) b g1)
               end
           end
       end.
Proof.
  intros Ha Hb. unfold remove_edge.
  rewrite (lookup_contains g a na Ha), (lookup_contains g b nb Hb). cbn [negb].
  unfold bindS at 1. unfold node_at at 1. rewrite (lookup_getitem g a na Ha).
  cbn [fst snd].
  unfold bindS at 1. unfold node_at at 1. rewrite (lookup_getitem g b nb Hb).
  cbn [fst snd].
  destruct (s && negb (z_in b (outlinks na))); [reflexivity|].
  destruct (s && negb (z_in a (inlinks nb))); [reflexivity|].
  unfold bindS, remove_from, node_at. unfold bindS.
  rewrite (lookup_getitem g a na Ha). cbn [fst snd].
  destruct (list_remove b (outlinks na)) as [l1|]; [|reflexivity].
  unfold alter_node at 1. cbn [fst snd]. fold (upd (fun n => with_outlinks n l1) a g).
  unfold getitem.
  destruct (id_to_node_mapping (upd (fun n => with_outlinks n l1) a g) !! b)
    as [nb1|]; [|reflexivity].
  cbn [fst snd].
  destruct (list_remove a (inlinks nb1)); reflexivity.
Qed.

(** X3. Adding an edge that neither side lists and removing it again
    gives back the graph as it was. *)
Theorem add_then_remove_edge g a b na nb :
  id_to_node_mapping g !! a = Some na ->
  id_to_node_mapping g !! b = Some nb ->
  ~ In b (outlinks na) -> ~ In a (inlinks nb) ->
  exists g', add_edge a b g = (Ok tt, g') /\
             remove_edge a b false g' = (Ok tt, g).
Proof.
  intros Ha Hb Ho Hin. rewrite <- z_in_In in Ho, Hin.
  apply not_true_is_false in Ho, Hin.
  eexists. split; [apply (add_edge_fresh g a b na nb Ha Hb Ho Hin)|].
  destruct (after_append g a b na nb Ha Hb) as (na' & nb' & Ha' & Hb' & Eo & Ei).
  rewrite (remove_edge_run _ a b false na' nb' Ha' Hb'). cbn [andb].
  rewrite Eo, (list_remove_last_fresh b _ Ho). cbv zeta.
  set (g' := upd (fun n => with_inlinks n (inlinks n ++ [a])) b
               (upd (fun n => with_outlinks n (outlinks n ++ [b])) a g)) in *.
  assert (Hb1 : exists nb1,
             id_to_node_mapping (upd (fun n => with_outlinks n (outlinks na)) a g') !! b
             = Some nb1 /\ inlinks nb1 = inlinks nb ++ [a]).
  { rewrite lookup_upd. destruct (decide (a = b)) as [->|].
    - rewrite Ha'. simpl. eexists. split; [reflexivity|].
      rewrite Ha' in Hb'. injection Hb' as ->. destruct nb'; exact Ei.
    - eauto. }
  destruct Hb1 as (nb1 & -> & Ei1).
  rewrite Ei1, (list_remove_last_fresh a _ Hin).
  f_equal. apply graph_eq; [reflexivity|]. intros i.
  unfold g'. rewrite !lookup_upd.
  repeat case_decide; subst; try congruence;
    try (assert (nb = na) by congruence; subst nb);
    rewrite ?Ha, ?Hb; simpl; try reflexivity;
    try (destruct na; reflexivity); destruct nb; reflexivity.
Qed.

Lemma add_then_remove_edge_witness :
  exists g', add_edge 2 1 Examples.one_edge = (Ok tt, g') /\
             remove_edge 2 1 false g' = (Ok tt, Examples.one_edge).
Proof.
  apply (add_then_remove_edge Examples.one_edge 2 1
           (Examples.node 2 "staffLine" [1] [])
           (Examples.node 1 "staff" [] [2]) eq_refl eq_refl);
    simpl; tauto.
Defined.

(** X4. With [suppress_not_in_list_error], [remove_edge] returns for
    any two nodes of the graph; unless both sides list the edge it
    leaves the graph as it is. *)
Theorem remove_edge_suppressed_returns g a b na nb :
  id_to_node_mapping g !! a = Some na ->
  id_to_node_mapping g !! b = Some nb ->
  exists g', remove_edge a b true g = (Ok tt, g') /\
             (~ (In b (outlinks na) /\ In a (inlinks nb)) -> g' = g).
Proof.
  intros Ha Hb. rewrite (remove_edge_run g a b true na nb Ha Hb). cbn [andb].
  destruct (z_in b (outlinks na)) eqn:Ho; cbn [negb].
  2:{ exists g. auto. }
  destruct (z_in a (inlinks nb)) eqn:Hin; cbn [negb].
  2:{ exists g. auto. }
  destruct (list_remove_Some b (outlinks na) (proj1 (z_in_occ _ _) Ho)) as [l1 ->].
  cbv zeta.
  assert (H1 : exists nb1,
             id_to_node_mapping (upd (fun n => with_outlinks n l1) a g) !! b
             = Some nb1 /\ inlinks nb1 = inlinks nb).
  { rewrite lookup_upd. destruct (decide (a = b)) as [->|].
    - rewrite Ha. simpl. eexists. split; [reflexivity|].
      assert (nb = na) by congruence. subst nb. destruct na; reflexivity.
    - eauto. }
  destruct H1 as (nb1 & -> & E). rewrite E.
  destruct (list_remove_Some a (inlinks nb) (proj1 (z_in_occ _ _) Hin)) as [l2 ->].
  eexists. split; [reflexivity|]. intros H. exfalso. apply H.
  split; apply z_in_In; assumption.
Qed.

Lemma remove_edge_suppressed_returns_witness :
  remove_edge 2 1 true Examples.one_edge = (Ok tt, Examples.one_edge).
Proof.
  destruct (remove_edge_suppressed_returns Examples.one_edge 2 1
              (Examples.node 2 "staffLine" [1] [])
              (Examples.node 1 "staff" [] [2]) eq_refl eq_refl)
    as (g' & Hrun & Hsame).
  rewrite Hrun, Hsame; [reflexivity|]. simpl. tauto.
Defined.

(** X5. Without the flag, [remove_edge] raises [ValueError] when a
    side does not list the edge.  When the source does not list it the
    graph is untouched; when the source lists it and the target does
    not, the entry of the source is already gone when the exception
    leaves the call. *)
Theorem remove_edge_half_listed g a b na nb :
  id_to_node_mapping g !! a = Some na ->
  id_to_node_mapping g !! b = Some nb ->
  (~ In b (outlinks na) ->
   remove_edge a b false g = (Raise ValueError, g)) /\
  (forall l1, list_remove b (outlinks na) = Some l1 ->
     ~ In a (inlinks nb) ->
     remove_edge a b false g
     = (Raise ValueError, upd (fun n => with_outlinks n l1) a g)).
Proof.
  intros Ha Hb. rewrite (remove_edge_run g a b false na nb Ha Hb). cbn [andb].
  split.
  - intros Ho. destruct (list_remove b (outlinks na)) as [l1|] eqn:E;
      [|reflexivity].
    exfalso. apply Ho, In_occ. eapply list_remove_pos. exact E.
  - intros l1 -> Hin. cbv zeta.
    assert (H1 : exists nb1,
               id_to_node_mapping (upd (fun n => with_outlinks n l1) a g) !! b
               = Some nb1 /\ inlinks nb1 = inlinks nb).
    { rewrite lookup_upd. destruct (decide (a = b)) as [->|].
      - rewrite Ha. simpl. eexists. split; [reflexivity|].
        assert (nb = na) by congruence. subst nb. destruct na; reflexivity.
      - eauto. }
    destruct H1 as (nb1 & -> & E). rewrite E.
    destruct (list_remove a (inlinks nb)) as [l2|] eqn:E2; [|reflexivity].
    exfalso. apply Hin, In_occ. eapply list_remove_pos. exact E2.
Qed.

Lemma remove_edge_half_listed_witness :
  remove_edge 1 2 false
    (make [Examples.node 1 "a" [] [2]; Examples.node 2 "b" [] []])
  = (Raise ValueError,
     upd (fun n => with_outlinks n []) 1
       (make [Examples.node 1 "a" [] [2]; Examples.node 2 "b" [] []])).
Proof.
  apply (proj2 (remove_edge_half_listed
                  (make [Examples.node 1 "a" [] [2]; Examples.node 2 "b" [] []])
                  1 2 (Examples.node 1 "a" [] [2]) (Examples.node 2 "b" [] [])
                  eq_refl eq_refl) [] eq_refl).
  simpl. tauto.
Defined.

Lemma fold_max_ge (l : list Z) : forall x,
  x <= fold_left Z.max l x /\ forall y, In y l -> y <= fold_left Z.max l x.
Proof.
  induction l as [|z t IH]; intros x; simpl.
  - split; [lia|intros y []].
  - destruct (IH (Z.max x z)) as [H1 H2]. split; [lia|].
    intros y [<-|Hy]; [lia|auto].
Qed.

(** X6. [next_node_id] raises [ValueError] on a graph without
    vertices; otherwise it returns an id above every vertex id, so
    the id of no vertex. *)
Theorem next_node_id_fresh g :
  match next_node_id g with
  | Ok n => nodes g <> [] /\ (forall i, In i (nodes g) -> i < n)
  | Raise e => nodes g = [] /\ e = ValueError
  end.
Proof.
  unfold next_node_id, py_max. destruct (nodes g) as [|x t]; cbn [bind].
  - split; reflexivity.
  - split; [discriminate|]. destruct (fold_max_ge t x) as [H1 H2].
    intros i [<-|Hi]; [lia|]. specialize (H2 i Hi). lia.
Qed.
End GraphQueryFacts.

Section ChordFacts.
Import Graph GraphQueries.

Lemma concat_values_set_new {A} k (x : list A) (d : dict (list A)) :
  dict_get k d = None ->
  concat (map snd (dict_set k x d)) = concat (map snd d) ++ x.
Proof.
  induction d as [|[k' v] t IH]; simpl; intros H.
  - now rewrite app_nil_r.
  - destruct (Z.eqb k k'); [discriminate|]. simpl.
    rewrite (IH H), app_assoc. reflexivity.
Qed.

Lemma concat_values_set_old {A} k (v : list A) x (d : dict (list A)) :
  dict_get k d = Some v ->
  Permutation (concat (map snd (dict_set k (v ++ [x]) d)))
              (concat (map snd d) ++ [x]).
Proof.
  induction d as [|[k' w] t IH]; simpl; intros H; [discriminate|].
  destruct (Z.eqb k k').
  - injection H as ->. simpl. rewrite <- !app_assoc.
    apply Permutation_app_head, Permutation_app_comm.
  - simpl. rewrite <- app_assoc. apply Permutation_app_head, IH, H.
Qed.

Lemma values_nonempty_set {A} k (x : list A) (d : dict (list A)) :
  x <> [] -> Forall (fun grp => grp <> []) (map snd d) ->
  Forall (fun grp => grp <> []) (map snd (dict_set k x d)).
Proof.
  intros Hx. induction d as [|[k' w] t IH]; simpl; intros H.
  - constructor; [exact Hx|constructor].
  - inversion H as [|? ? Hw Ht]; subst. destruct (Z.eqb k k'); simpl.
    + constructor; assumption.
    + constructor; [exact Hw|apply IH, Ht].
Qed.

Lemma chord_loop_partition g nodes : forall closure chord_mapping r,
  chord_loop g nodes closure chord_mapping = Ok r ->
  Forall (fun grp => grp <> []) closure ->
  Forall (fun grp => grp <> []) (map snd chord_mapping) ->
  Permutation (concat (fst r) ++ concat (map snd (snd r)))
              ((concat closure ++ concat (map snd chord_mapping)) ++ nodes) /\
  Forall (fun grp => grp <> []) (fst r) /\
  Forall (fun grp => grp <> []) (map snd (snd r)).
Proof.
  induction nodes as [|node t IH]; intros closure chord_mapping r; simpl.
  - intros [= <-] Hc Hm. simpl. rewrite app_nil_r. auto.
  - destruct (children g (node_id node) (Some [Const.STEM])) as [stems|e];
      simpl; [|discriminate].
    assert (Hsingle : forall r,
              chord_loop g t (closure ++ [[node]]) chord_mapping = Ok r ->
              Forall (fun grp => grp <> []) closure ->
              Forall (fun grp => grp <> []) (map snd chord_mapping) ->
              Permutation (concat (fst r) ++ concat (map snd (snd r)))
                ((concat closure ++ concat (map snd chord_mapping))
                 ++ node :: t) /\
              Forall (fun grp => grp <> []) (fst r) /\
              Forall (fun grp => grp <> []) (map snd (snd r))).
    { intros r' Hr Hc Hm.
      destruct (IH _ _ _ Hr) as (HP & H1 & H2); [|exact Hm|].
      { apply Forall_app. split; [exact Hc|]. constructor; [discriminate|constructor]. }
      split; [|auto]. rewrite HP, concat_app. simpl.
      rewrite <- !app_assoc. apply Permutation_app_head. simpl.
      apply Permutation_middle. }
    destruct stems as [|stem [|s2 rest]]; [apply Hsingle| |apply Hsingle].
    destruct (dict_get (node_id stem) chord_mapping) as [chord|] eqn:E;
      intros Hr Hc Hm.
    + destruct (IH _ _ _ Hr Hc) as (HP & H1 & H2).
      { apply values_nonempty_set; [|exact Hm]. now destruct chord. }
      split; [|auto]. rewrite HP.
      rewrite (concat_values_set_old _ chord node chord_mapping E).
      rewrite <- !app_assoc. reflexivity.
    + destruct (IH _ _ _ Hr Hc) as (HP & H1 & H2).
      { apply values_nonempty_set; [discriminate|exact Hm]. }
      split; [|auto]. rewrite HP.
      rewrite (concat_values_set_new _ [node] chord_mapping E).
      rewrite <- !app_assoc. reflexivity.
Qed.

(** X7. When [group_by_chord] returns, its groups partition the given
    nodes: no group is empty, and the groups taken together hold the
    nodes of the list, each as often as the list does. *)
Theorem group_by_chord_partition g nodes groups :
  group_by_chord g nodes = Ok groups ->
  Permutation (concat groups) nodes /\
  Forall (fun grp => grp <> []) groups.
Proof.
  unfold group_by_chord.
  destruct (chord_loop g nodes [] []) as [r|e] eqn:E; simpl; [|discriminate].
  intros [= <-].
  destruct (chord_loop_partition g nodes [] [] r E) as (HP & H1 & H2);
    [constructor|constructor|].
  split.
  - rewrite concat_app. exact HP.
  - apply Forall_app. split; assumption.
Qed.

Lemma group_by_chord_partition_witness :
  Permutation
    (concat [[Examples.node 1 "noteheadFull" [] [3]; Examples.node 2 "noteheadFull" [] [3]]])
    [Examples.node 1 "noteheadFull" [] [3]; Examples.node 2 "noteheadFull" [] [3]].
Proof.
  apply (group_by_chord_partition
           (make [Examples.node 1 "noteheadFull" [] [3];
                  Examples.node 2 "noteheadFull" [] [3];
                  Examples.node 3 "stem" [1; 2] []])
           [Examples.node 1 "noteheadFull" [] [3]; Examples.node 2 "noteheadFull" [] [3]]).
  reflexivity.
Defined.
End ChordFacts.

Section DetachFacts.
Import Graph GraphSpec GraphDetach.

Lemma without_remove i l l' :
  list_remove i l = Some l' -> without i l' = without i l.
Proof.
  revert l'. induction l as [|y t IH]; intros l'; simpl; [discriminate|].
  destruct (Z.eqb_spec i y) as [->|Hne].
  - intros [= <-]. rewrite Z.eqb_refl. reflexivity.
  - destruct (list_remove i t) as [t'|]; [|discriminate].
    intros [= <-]. simpl. rewrite (IH t' eq_refl). reflexivity.
Qed.

Lemma without_absent i l : ~ In i l -> without i l = l.
Proof.
  induction l as [|y t IH]; simpl; intros H; [reflexivity|].
  destruct (Z.eqb_spec y i) as [->|_]; [exfalso; auto|].
  simpl. rewrite IH; auto.
Qed.

Lemma list_remove_incl x l l' : list_remove x l = Some l' -> incl l' l.
Proof.
  revert l'. induction l as [|y t IH]; intros l'; simpl; [discriminate|].
  destruct (Z.eqb x y).
  - intros [= <-]. apply incl_tl, incl_refl.
  - destruct (list_remove x t) as [t'|]; [|discriminate].
    intros [= <-]. intros z [<-|Hz]; [now left|right; eapply IH; eauto].
Qed.

Lemma detached_remove_out i n l :
  list_remove i (outlinks n) = Some l ->
  detached i (with_outlinks n l) = detached i n.
Proof.
  intros H. unfold detached. destruct n; simpl in *.
  rewrite (without_remove i _ _ H). reflexivity.
Qed.

Lemma detached_remove_in i n l :
  list_remove i (inlinks n) = Some l ->
  detached i (with_inlinks n l) = detached i n.
Proof.
  intros H. unfold detached. destruct n; simpl in *.
  rewrite (without_remove i _ _ H). reflexivity.
Qed.

Lemma detached_absent i n :
  ~ In i (inlinks n) -> ~ In i (outlinks n) -> detached i n = n.
Proof.
  intros H1 H2. unfold detached. destruct n; simpl in *.
  rewrite (without_absent i _ H1), (without_absent i _ H2). reflexivity.
Qed.

Lemma agrees_refl i g : agrees i g g.
Proof.
  split; [reflexivity|]. intros c.
  destruct (id_to_node_mapping g !! c); eauto.
Qed.

(** A change of node [i] itself, or of the entries [i] in the lists of
    another node, keeps the agreement. *)
Lemma agrees_upd i g0 g f c :
  agrees i g0 g ->
  (c <> i -> forall n, id_to_node_mapping g !! c = Some n ->
                       detached i (f n) = detached i n) ->
  agrees i g0 (upd f c g).
Proof.
  intros [Hn Hm] Hf. split; [exact Hn|]. intros j.
  specialize (Hm j). rewrite lookup_upd.
  destruct (id_to_node_mapping g0 !! j) as [n0|].
  - destruct Hm as (n & Hj & Hd). destruct (decide (c = j)) as [->|].
    + rewrite Hj. simpl. eexists. split; [reflexivity|].
      intros Hji. rewrite (Hf Hji n Hj). auto.
    + eauto.
  - destruct (decide (c = j)) as [->|]; [now rewrite Hm|exact Hm].
Qed.
End DetachFacts.

Section RemoveVertex.
Import Graph GraphSpec GraphDetach.
Variable Ks : kind -> Prop.
Hypothesis HKs : Ks Attachment.
Local Abbreviation consistent := (consistent_on Ks).

(** The first loop of [remove_edges_for_vertex]. *)
Lemma detach_inlinks i g0 : forall P g ni,
  consistent g -> agrees i g0 g ->
  id_to_node_mapping g !! i = Some ni -> inlinks ni = P ->
  (forall p, In p P -> present g p) ->
  exists g' ni',
    for_each P (fun inlink => remove_edge inlink i false) g = (Ok tt, g') /\
    consistent g' /\ agrees i g0 g' /\
    id_to_node_mapping g' !! i = Some ni' /\
    inlinks ni' = [] /\ incl (outlinks ni') (outlinks ni) /\
    (forall c, present g c -> present g' c).
Proof.
  induction P as [|p t IH]; intros g ni Hc Hag Hi HP Hpres.
  - exists g, ni. simpl. repeat (split; [solve [auto using incl_refl]|]). auto.
  - destruct (Hpres p (or_introl eq_refl)) as [np Hp].
    assert (Hpos : (0 < occ i (outlinks np))%nat).
    { pose proof (proj2 Hc Attachment HKs p i np ni Hp Hi) as Hb. simpl in Hb.
      rewrite Hb, HP. apply In_occ. now left. }
    destruct (list_remove_Some _ _ Hpos) as [l1 Hl1].
    destruct (second_removal Attachment p i g np l1
                (proj2 Hc Attachment HKs) Hp Hl1 (ex_intro _ ni Hi))
      as (nb & nb1 & l2 & Hnb & Hnb1 & Ein & Hl2).
    assert (nb = ni) by congruence. subst nb. simpl in Ein, Hl2.
    change (id_to_node_mapping (upd (fun n => with_outlinks n l1) p g) !! i
            = Some nb1) in Hnb1.
    rewrite Ein, HP, list_remove_head in Hl2. injection Hl2 as <-.
    set (g1 := upd (fun n => with_outlinks n l1) p g) in *.
    set (g2 := upd (fun n => with_inlinks n t) i g1).
    assert (Hrun : remove_edge p i false g = (Ok tt, g2)).
    { rewrite (remove_edge_run g p i false np ni Hp Hi). cbn [andb].
      rewrite Hl1. cbv zeta. fold g1. rewrite Hnb1, Ein, HP, list_remove_head.
      reflexivity. }
    assert (Hc2 : consistent g2).
    { apply (pair_removed_consistent Ks Attachment p i g np l1 nb1 t HKs Hc Hp Hl1 Hnb1).
      simpl. rewrite Ein, HP. apply list_remove_head. }
    assert (Hag2 : agrees i g0 g2).
    { apply agrees_upd; [|intros E; congruence].
      apply agrees_upd; [exact Hag|].
      intros _ n Hn. assert (n = np) by congruence. subst n.
      apply detached_remove_out, Hl1. }
    assert (Hi2 : id_to_node_mapping g2 !! i = Some (with_inlinks nb1 t)).
    { unfold g2. rewrite lookup_upd_eq, Hnb1. reflexivity. }
    assert (Hout1 : incl (outlinks nb1) (outlinks ni)).
    { unfold g1 in Hnb1. rewrite lookup_upd in Hnb1.
      destruct (decide (p = i)) as [->|].
      - rewrite Hi in Hnb1. simpl in Hnb1. injection Hnb1 as <-.
        assert (np = ni) by congruence. subst np.
        destruct ni; simpl in *. eapply list_remove_incl, Hl1.
      - assert (nb1 = ni) by congruence. subst nb1. apply incl_refl. }
    destruct (IH g2 (with_inlinks nb1 t) Hc2 Hag2 Hi2)
      as (g' & ni' & Hloop & Hc' & Hag' & Hi' & Hin' & Hout' & Hpres').
    { destruct nb1; reflexivity. }
    { intros q Hq. unfold g2, g1. rewrite !present_upd. apply Hpres. now right. }
    exists g', ni'. split.
    { cbn [for_each]. unfold bindS. rewrite Hrun. exact Hloop. }
    split; [exact Hc'|]. split; [exact Hag'|]. split; [exact Hi'|].
    split; [exact Hin'|]. split.
    { intros x Hx. apply Hout1. apply Hout' in Hx.
      destruct nb1; exact Hx. }
    intros c Hcp. apply Hpres'. unfold g2, g1. rewrite !present_upd. exact Hcp.
Qed.

(** The second loop, entered once the node has no inlinks left. *)
Lemma detach_outlinks i g0 : forall D g ni,
  consistent g -> agrees i g0 g ->
  id_to_node_mapping g !! i = Some ni -> outlinks ni = D ->
  inlinks ni = [] ->
  (forall d, In d D -> present g d) ->
  exists g' ni',
    for_each D (fun outlink => remove_edge i outlink false) g = (Ok tt, g') /\
    consistent g' /\ agrees i g0 g' /\
    id_to_node_mapping g' !! i = Some ni' /\
    inlinks ni' = [] /\ outlinks ni' = [].
Proof.
  induction D as [|d t IH]; intros g ni Hc Hag Hi HD Hin Hpres.
  - exists g, ni. simpl. auto 10.
  - destruct (Hpres d (or_introl eq_refl)) as [nd Hd].
    assert (Hdi : d <> i).
    { intros ->. assert (nd = ni) by congruence. subst nd.
      pose proof (proj2 Hc Attachment HKs i i ni ni Hi Hi) as Hb. simpl in Hb.
      rewrite HD, Hin in Hb. unfold occ in Hb. simpl in Hb.
      destruct (Z.eq_dec i i); [discriminate|congruence]. }
    assert (Hl1 : list_remove d (outlinks ni) = Some t).
    { rewrite HD. apply list_remove_head. }
    set (g1 := upd (fun n => with_outlinks n t) i g) in *.
    assert (Hd1 : id_to_node_mapping g1 !! d = Some nd).
    { unfold g1. rewrite lookup_upd_ne by congruence. exact Hd. }
    assert (Hpos : (0 < occ i (inlinks nd))%nat).
    { pose proof (proj2 Hc Attachment HKs i d ni nd Hi Hd) as Hb. simpl in Hb.
      rewrite <- Hb, HD. apply In_occ. now left. }
    destruct (list_remove_Some _ _ Hpos) as [l2 Hl2].
    set (g2 := upd (fun n => with_inlinks n l2) d g1).
    assert (Hrun : remove_edge i d false g = (Ok tt, g2)).
    { rewrite (remove_edge_run g i d false ni nd Hi Hd). cbn [andb].
      rewrite Hl1. cbv zeta. fold g1. rewrite Hd1, Hl2. reflexivity. }
    assert (Hc2 : consistent g2).
    { apply (pair_removed_consistent Ks Attachment i d g ni t nd l2 HKs Hc Hi Hl1 Hd1 Hl2). }
    assert (Hag2 : agrees i g0 g2).
    { apply agrees_upd.
      - apply agrees_upd; [exact Hag|intros E; congruence].
      - intros _ n Hn. assert (n = nd) by congruence. subst n.
        apply detached_remove_in, Hl2. }
    assert (Hi2 : id_to_node_mapping g2 !! i = Some (with_outlinks ni t)).
    { unfold g2, g1. rewrite lookup_upd_ne by congruence.
      rewrite lookup_upd_eq, Hi. reflexivity. }
    destruct (IH g2 (with_outlinks ni t) Hc2 Hag2 Hi2)
      as (g' & ni' & Hloop & Hc' & Hag' & Hi' & Hin' & Hout').
    { destruct ni; reflexivity. }
    { destruct ni; exact Hin. }
    { intros q Hq. unfold g2, g1. rewrite !present_upd. apply Hpres. now right. }
    exists g', ni'. split.
    { cbn [for_each]. unfold bindS. rewrite Hrun. exact Hloop. }
    auto.
Qed.
End RemoveVertex.

Section RemoveVertexClaim.
Import Graph GraphSpec GraphDetach.

(** X8. On a graph whose index is keyed by the node ids and whose
    attachment links are listed as often at the source as at the
    target, for a vertex [i] of the vertex list whose attachment
    neighbours are all in the graph: [remove_vertex i] returns; the
    vertex is gone from the index and one entry [i] is gone from the
    vertex list; every other node is left with its attachment lists
    without the entries [i] and is otherwise unchanged; index and
    balance are kept. *)
Theorem remove_vertex_detaches g i ni :
  index_ok g -> edges_balanced g ->
  id_to_node_mapping g !! i = Some ni ->
  (forall c, In c (inlinks ni) \/ In c (outlinks ni) -> present g c) ->
  In i (nodes g) ->
  exists g',
    remove_vertex i g = (Ok tt, g') /\
    list_remove i (nodes g) = Some (nodes g') /\
    id_to_node_mapping g' !! i = None /\
    (forall c, c <> i ->
       id_to_node_mapping g' !! c = detached i <$> id_to_node_mapping g !! c) /\
    index_ok g' /\ edges_balanced g'.
Proof.
  intros Hok Hbal Hi Hpres Hnode.
  assert (Hc : consistent_on (eq Attachment) g).
  { split; [exact Hok|]. intros K <-. exact Hbal. }
  destruct (detach_inlinks (eq Attachment) eq_refl i g (inlinks ni) g ni
              Hc (agrees_refl i g) Hi eq_refl)
    as (g1 & n1 & Hl1 & Hc1 & Hag1 & Hi1 & Hin1 & Hout1 & Hpres1).
  { intros p Hp. apply Hpres. now left. }
  destruct (detach_outlinks (eq Attachment) eq_refl i g (outlinks n1) g1 n1
              Hc1 Hag1 Hi1 eq_refl Hin1)
    as (g2 & n2 & Hl2 & Hc2 & Hag2 & Hi2 & Hin2 & Hout2).
  { intros d Hd. apply Hpres1, Hpres. right. apply Hout1, Hd. }
  destruct (list_remove_Some i (nodes g) (proj1 (In_occ _ _) Hnode)) as [ns Hns].
  exists {| nodes := ns; id_to_node_mapping := delete i (id_to_node_mapping g2) |}.
  split.
  { unfold remove_vertex, remove_edges_for_vertex.
    unfold bindS at 1. rewrite (lookup_contains g i ni Hi). cbn [negb].
    unfold bindS at 1. unfold node_at at 1. rewrite (lookup_getitem g i ni Hi).
    cbn [fst snd]. unfold bindS at 1. rewrite Hl1.
    unfold bindS at 1. unfold node_at at 1. rewrite (lookup_getitem g1 i n1 Hi1).
    cbn [fst snd]. rewrite Hl2.
    unfold bindS at 1. unfold node_at at 1. rewrite (lookup_getitem g2 i n2 Hi2).
    cbn [fst snd]. rewrite (proj1 Hag2), Hns. reflexivity. }
  split; [exact Hns|]. cbn [id_to_node_mapping].
  split; [apply lookup_delete_eq|].
  split.
  { intros c Hci. rewrite lookup_delete_ne by congruence.
    pose proof (proj2 Hag2 c) as Hcg.
    destruct (id_to_node_mapping g !! c) as [n0|]; [|rewrite Hcg; reflexivity].
    destruct Hcg as (n & Hn & Hd). rewrite Hn. simpl. f_equal.
    rewrite <- (Hd Hci). symmetry. apply detached_absent.
    - pose proof (proj2 Hc2 Attachment eq_refl i c n2 n Hi2 Hn) as Hb.
      simpl in Hb. rewrite Hout2 in Hb. intros Hx. apply In_occ in Hx.
      unfold occ in *. simpl in Hb. lia.
    - pose proof (proj2 Hc2 Attachment eq_refl c i n n2 Hn Hi2) as Hb.
      simpl in Hb. rewrite Hin2 in Hb. intros Hx. apply In_occ in Hx.
      unfold occ in *. simpl in Hb. lia. }
  destruct (consistent_delete (eq Attachment) g2 i ns Hc2) as [H1 H2].
  split; [exact H1|exact (H2 Attachment eq_refl)].
Qed.

Lemma remove_vertex_detaches_witness :
  exists g',
    remove_vertex 2 Examples.one_edge = (Ok tt, g') /\
    id_to_node_mapping g' !! 2 = None /\
    id_to_node_mapping g' !! 1 = Some (Examples.node 1 "staff" [] []).
Proof.
  destruct (remove_vertex_detaches Examples.one_edge 2
              (Examples.node 2 "staffLine" [1] [])
              (index_ok_make _) (proj1 one_edge_balanced) eq_refl)
    as (g' & Hrun & _ & Hgone & Hrest & _).
  - intros c [[<-|[]]|[]]. eexists. reflexivity.
  - simpl. tauto.
  - exists g'. split; [exact Hrun|]. split; [exact Hgone|].
    rewrite Hrest by lia. reflexivity.
Defined.
End RemoveVertexClaim.

Section NoDupFacts.
Import Graph GraphSpec.

Abbreviation keeps_nodup m :=
  (forall g, links_nodup g -> post m g (fun _ g' => links_nodup g')).

Lemma NoDup_list_remove x l l' :
  List.NoDup l -> list_remove x l = Some l' -> List.NoDup l'.
Proof.
  revert l'. induction l as [|y t IH]; intros l' Hnd; simpl; [discriminate|].
  apply List.NoDup_cons_iff in Hnd as [Hy Ht].
  destruct (Z.eqb x y).
  - intros [= <-]. exact Ht.
  - destruct (list_remove x t) as [t'|] eqn:E; [|discriminate].
    intros [= <-]. constructor; [|apply IH; auto].
    intros Hin. apply Hy. eapply list_remove_incl; eauto.
Qed.

Lemma NoDup_app_new (x : Z) l :
  List.NoDup l -> ~ In x l -> List.NoDup (l ++ [x]).
Proof.
  intros Hnd Hx. apply List.NoDup_app; [exact Hnd| |].
  - constructor; [intros []|constructor].
  - intros a Ha [<-|[]]. exact (Hx Ha).
Qed.

Lemma nodup_out K g i n :
  links_nodup g -> id_to_node_mapping g !! i = Some n ->
  List.NoDup (get_out K n).
Proof. intros H Hn. destruct (H i n Hn) as (? & ? & ? & ?). destruct K; assumption. Qed.

Lemma nodup_in K g i n :
  links_nodup g -> id_to_node_mapping g !! i = Some n ->
  List.NoDup (get_in K n).
Proof. intros H Hn. destruct (H i n Hn) as (? & ? & ? & ?). destruct K; assumption. Qed.

(** Storing a duplicate-free list keeps the graph duplicate-free. *)
Lemma nodup_upd_out K g i (h : Node -> list Z) :
  links_nodup g ->
  (forall n, id_to_node_mapping g !! i = Some n -> List.NoDup (h n)) ->
  links_nodup (upd (fun n => set_out K n (h n)) i g).
Proof.
  intros Hg Hh a na' Ha. apply lookup_upd_inv in Ha as (n & Hn & ->).
  destruct (Hg a n Hn) as (H1 & H2 & H3 & H4).
  destruct (decide (i = a)) as [->|]; [|auto].
  specialize (Hh n Hn). destruct K, n; simpl in *; auto.
Qed.

Lemma nodup_upd_in K g i (h : Node -> list Z) :
  links_nodup g ->
  (forall n, id_to_node_mapping g !! i = Some n -> List.NoDup (h n)) ->
  links_nodup (upd (fun n => set_in K n (h n)) i g).
Proof.
  intros Hg Hh a na' Ha. apply lookup_upd_inv in Ha as (n & Hn & ->).
  destruct (Hg a n Hn) as (H1 & H2 & H3 & H4).
  destruct (decide (i = a)) as [->|]; [|auto].
  specialize (Hh n Hn). destruct K, n; simpl in *; auto.
Qed.

Lemma remove_out_keeps_nodup K i x :
  keeps_nodup (remove_from (get_out K) (set_out K) i x).
Proof.
  intros g Hg. unfold remove_from. apply post_bind, post_node_at.
  destruct (id_to_node_mapping g !! i) as [n|] eqn:Hn; [|exact Hg].
  destruct (list_remove x (get_out K n)) as [l|] eqn:E; [|exact Hg].
  apply post_alter_node. apply (nodup_upd_out K g i (fun _ => l) Hg).
  intros n' Hn'. eapply NoDup_list_remove; [|exact E].
  eapply nodup_out; eauto.
Qed.

Lemma remove_in_keeps_nodup K i x :
  keeps_nodup (remove_from (get_in K) (set_in K) i x).
Proof.
  intros g Hg. unfold remove_from. apply post_bind, post_node_at.
  destruct (id_to_node_mapping g !! i) as [n|] eqn:Hn; [|exact Hg].
  destruct (list_remove x (get_in K n)) as [l|] eqn:E; [|exact Hg].
  apply post_alter_node. apply (nodup_upd_in K g i (fun _ => l) Hg).
  intros n' Hn'. eapply NoDup_list_remove; [|exact E].
  eapply nodup_in; eauto.
Qed.

Lemma keeps_nodup_bind {A B} (m : M A) (k : A -> M B) :
  keeps_nodup m -> (forall a, keeps_nodup (k a)) -> keeps_nodup (bindS m k).
Proof.
  intros Hm Hk g Hg. apply post_bind. eapply post_weaken; [apply Hm, Hg|].
  intros [a|e] g' H; [apply Hk, H|exact H].
Qed.

Lemma keeps_nodup_for_each {A} (xs : list A) (body : A -> M unit) :
  (forall x, keeps_nodup (body x)) -> keeps_nodup (for_each xs body).
Proof.
  intros Hb. induction xs as [|x t IH]; intros g Hg; [exact Hg|].
  simpl. apply keeps_nodup_bind; auto.
Qed.

Lemma keeps_nodup_node_at {B} i (k : Node -> M B) :
  (forall n, keeps_nodup (k n)) -> keeps_nodup (bindS (node_at i) k).
Proof.
  intros Hk g Hg. apply post_bind, post_node_at.
  destruct (id_to_node_mapping g !! i); [apply Hk, Hg|exact Hg].
Qed.

Lemma remove_body_keeps_nodup K a b suppress :
  keeps_nodup
    (do from_node <- node_at a;
     do to_node <- node_at b;
     if suppress && negb (z_in b (get_out K from_node)) then ret tt
     else if suppress && negb (z_in a (get_in K to_node)) then ret tt
     else
       remove_from (get_out K) (set_out K) a b ;;
       remove_from (get_in K) (set_in K) b a).
Proof.
  apply keeps_nodup_node_at. intros na. apply keeps_nodup_node_at. intros nb.
  destruct (suppress && negb (z_in b (get_out K na))); [intros g Hg; exact Hg|].
  destruct (suppress && negb (z_in a (get_in K nb))); [intros g Hg; exact Hg|].
  apply keeps_nodup_bind; [apply remove_out_keeps_nodup|].
  intros _. apply remove_in_keeps_nodup.
Qed.

Lemma remove_edge_keeps_nodup a b s : keeps_nodup (remove_edge a b s).
Proof.
  intros g Hg. unfold post, remove_edge.
  destruct (contains g a); [|exact Hg]. destruct (contains g b); [|exact Hg].
  exact (remove_body_keeps_nodup Attachment a b s g Hg).
Qed.

Lemma remove_precedence_edge_keeps_nodup a b s :
  keeps_nodup (remove_precedence_edge a b s).
Proof.
  intros g Hg. unfold post, remove_precedence_edge.
  destruct (contains g a); [|exact Hg]. destruct (contains g b); [|exact Hg].
  exact (remove_body_keeps_nodup Precedence a b s g Hg).
Qed.

Lemma add_body_keeps_nodup K a b :
  keeps_nodup
    (do from_node <- node_at a;
     do to_node <- node_at b;
     if z_in b (get_out K from_node) then
       if z_in a (get_in K to_node) then ret tt
       else raise NotationGraphError
     else if z_in a (get_in K to_node) then raise NotationGraphError
     else
       alter_node (fun n => set_out K n (get_out K n ++ [b])) a ;;
       alter_node (fun n => set_in K n (get_in K n ++ [a])) b).
Proof.
  intros g Hg. apply post_bind, post_node_at.
  destruct (id_to_node_mapping g !! a) as [na|] eqn:Ha; [|exact Hg].
  apply post_bind, post_node_at.
  destruct (id_to_node_mapping g !! b) as [nb|] eqn:Hb; [|exact Hg].
  destruct (z_in b (get_out K na)) eqn:Ho.
  { destruct (z_in a (get_in K nb)); exact Hg. }
  destruct (z_in a (get_in K nb)) eqn:Hin; [exact Hg|].
  apply post_bind, post_alter_node, post_alter_node.
  apply nodup_upd_in.
  - apply nodup_upd_out; [exact Hg|]. intros n Hn.
    assert (n = na) by congruence. subst n.
    apply NoDup_app_new; [eapply nodup_out; eauto|].
    rewrite <- z_in_In, Ho. discriminate.
  - intros n Hn. apply lookup_upd_inv in Hn as (n0 & Hn0 & ->).
    assert (n0 = nb) by congruence. subst n0.
    assert (E : get_in K (if decide (a = b)
                          then set_out K nb (get_out K nb ++ [b]) else nb)
                = get_in K nb).
    { destruct (decide (a = b)); [apply get_in_set_out|reflexivity]. }
    rewrite E. apply NoDup_app_new; [eapply nodup_in; eauto|].
    rewrite <- z_in_In, Hin. discriminate.
Qed.

Lemma add_edge_keeps_nodup a b : keeps_nodup (add_edge a b).
Proof.
  intros g Hg. unfold post, add_edge.
  destruct (contains g a); [|exact Hg]. destruct (contains g b); [|exact Hg].
  exact (add_body_keeps_nodup Attachment a b g Hg).
Qed.

Lemma add_precedence_edge_keeps_nodup a b :
  keeps_nodup (add_precedence_edge a b).
Proof.
  intros g Hg. unfold post, add_precedence_edge.
  destruct (contains g a); [|exact Hg]. destruct (contains g b); [|exact Hg].
  exact (add_body_keeps_nodup Precedence a b g Hg).
Qed.

Lemma remove_edges_for_vertex_keeps_nodup i :
  keeps_nodup (remove_edges_for_vertex i).
Proof.
  intros g Hg. unfold post, remove_edges_for_vertex.
  destruct (contains g i); [|exact Hg]. cbn [negb].
  revert g Hg. apply keeps_nodup_node_at. intros node.
  apply keeps_nodup_bind.
  { apply keeps_nodup_for_each. intros x. apply remove_edge_keeps_nodup. }
  intros _. apply keeps_nodup_node_at. intros node'.
  apply keeps_nodup_for_each. intros x. apply remove_edge_keeps_nodup.
Qed.

Lemma remove_vertex_keeps_nodup i : keeps_nodup (remove_vertex i).
Proof.
  unfold remove_vertex. apply keeps_nodup_bind.
  { apply remove_edges_for_vertex_keeps_nodup. }
  intros _. apply keeps_nodup_node_at. intros node g Hg. unfold post.
  destruct (list_remove i (nodes g)) as [ns|]; [|exact Hg].
  intros a na Ha. simpl in Ha. rewrite lookup_delete in Ha.
  destruct (decide (i = a)); [discriminate|]. exact (Hg a na Ha).
Qed.

Lemma keeps_nodup_data_outlinks {B} i (k : list Z -> M B) :
  (forall n l, data_precedence_outlinks n = Some l ->
     forall g, links_nodup g -> id_to_node_mapping g !! i = Some n ->
               post (k l) g (fun _ g' => links_nodup g')) ->
  keeps_nodup (bindS (data_outlinks i) k).
Proof.
  intros Hk g Hg. apply post_bind. unfold data_outlinks.
  apply post_bind, post_node_at.
  destruct (id_to_node_mapping g !! i) as [n|] eqn:Hn; [|exact Hg].
  destruct (data_precedence_outlinks n) as [l|] eqn:E; [|exact Hg].
  exact (Hk n l E g Hg Hn).
Qed.

Lemma keeps_nodup_data_inlinks {B} i (k : list Z -> M B) :
  (forall n l, data_precedence_inlinks n = Some l ->
     forall g, links_nodup g -> id_to_node_mapping g !! i = Some n ->
               post (k l) g (fun _ g' => links_nodup g')) ->
  keeps_nodup (bindS (data_inlinks i) k).
Proof.
  intros Hk g Hg. apply post_bind. unfold data_inlinks.
  apply post_bind, post_node_at.
  destruct (id_to_node_mapping g !! i) as [n|] eqn:Hn; [|exact Hg].
  destruct (data_precedence_inlinks n) as [l|] eqn:E; [|exact Hg].
  exact (Hk n l E g Hg Hn).
Qed.

Lemma data_outlinks_remove_keeps_nodup i x :
  keeps_nodup (data_outlinks_remove i x).
Proof.
  unfold data_outlinks_remove. apply keeps_nodup_data_outlinks.
  intros n l E g Hg Hn.
  destruct (list_remove x l) as [l'|] eqn:R; [|exact Hg].
  apply post_alter_node.
  apply (nodup_upd_out Precedence g i (fun _ => l') Hg). intros n' Hn'.
  eapply NoDup_list_remove; [|exact R].
  pose proof (nodup_out Precedence g i n Hg Hn) as H. simpl in H.
  unfold precedence_outlinks in H. now rewrite E in H.
Qed.

Lemma data_inlinks_remove_keeps_nodup i x :
  keeps_nodup (data_inlinks_remove i x).
Proof.
  unfold data_inlinks_remove. apply keeps_nodup_data_inlinks.
  intros n l E g Hg Hn.
  destruct (list_remove x l) as [l'|] eqn:R; [|exact Hg].
  apply post_alter_node.
  apply (nodup_upd_in Precedence g i (fun _ => l') Hg). intros n' Hn'.
  eapply NoDup_list_remove; [|exact R].
  pose proof (nodup_in Precedence g i n Hg Hn) as H. simpl in H.
  unfold precedence_inlinks in H. now rewrite E in H.
Qed.

Lemma data_outlinks_add_new_keeps_nodup i x :
  keeps_nodup (data_outlinks_add_new i x).
Proof.
  unfold data_outlinks_add_new. apply keeps_nodup_data_outlinks.
  intros n l E g Hg Hn.
  destruct (z_in x l) eqn:Z; [exact Hg|].
  apply post_alter_node.
  apply (nodup_upd_out Precedence g i (fun _ => l ++ [x]) Hg). intros n' Hn'.
  apply NoDup_app_new.
  - pose proof (nodup_out Precedence g i n Hg Hn) as H. simpl in H.
    unfold precedence_outlinks in H. now rewrite E in H.
  - rewrite <- z_in_In, Z. discriminate.
Qed.

Lemma data_inlinks_add_new_keeps_nodup i x :
  keeps_nodup (data_inlinks_add_new i x).
Proof.
  unfold data_inlinks_add_new. apply keeps_nodup_data_inlinks.
  intros n l E g Hg Hn.
  destruct (z_in x l) eqn:Z; [exact Hg|].
  apply post_alter_node.
  apply (nodup_upd_in Precedence g i (fun _ => l ++ [x]) Hg). intros n' Hn'.
  apply NoDup_app_new.
  - pose proof (nodup_in Precedence g i n Hg Hn) as H. simpl in H.
    unfold precedence_inlinks in H. now rewrite E in H.
  - rewrite <- z_in_In, Z. discriminate.
Qed.

Lemma unlink_predecessor_keeps_nodup node i p :
  keeps_nodup (unlink_predecessor node i p).
Proof.
  unfold unlink_predecessor. apply keeps_nodup_node_at. intros predecessor.
  destruct (data_precedence_outlinks predecessor) as [outs|];
    [|intros g Hg; exact Hg].
  destruct (negb (z_in (node_id node) outs)); [intros g Hg; exact Hg|].
  apply keeps_nodup_bind; [apply data_outlinks_remove_keeps_nodup|].
  intros _. apply data_inlinks_remove_keeps_nodup.
Qed.

Lemma unlink_descendant_keeps_nodup node i d :
  keeps_nodup (unlink_descendant node i d).
Proof.
  unfold unlink_descendant. apply keeps_nodup_node_at. intros descendant.
  destruct (data_precedence_inlinks descendant) as [ins|];
    [|intros g Hg; exact Hg].
  destruct (negb (z_in (node_id node) ins)); [intros g Hg; exact Hg|].
  apply keeps_nodup_bind; [apply data_inlinks_remove_keeps_nodup|].
  intros _. apply data_outlinks_remove_keeps_nodup.
Qed.

Lemma bridge_keeps_nodup P D : keeps_nodup (bridge P D).
Proof.
  unfold bridge. apply keeps_nodup_for_each. intros p.
  apply keeps_nodup_node_at. intros predecessor.
  apply keeps_nodup_for_each. intros d.
  apply keeps_nodup_node_at. intros descendant.
  apply keeps_nodup_bind; [apply data_outlinks_add_new_keeps_nodup|].
  intros _. apply data_inlinks_add_new_keeps_nodup.
Qed.

Lemma remove_from_precedence_keeps_nodup i :
  keeps_nodup (remove_from_precedence i).
Proof.
  unfold remove_from_precedence. apply keeps_nodup_node_at. intros node.
  cbv zeta.
  destruct (negb (nonempty (data_precedence_inlinks node)) &&
            negb (nonempty (data_precedence_outlinks node)));
    [intros g Hg; exact Hg|].
  apply keeps_nodup_bind.
  { apply keeps_nodup_for_each. intros p. apply unlink_predecessor_keeps_nodup. }
  intros _. apply keeps_nodup_bind.
  { apply keeps_nodup_for_each. intros d. apply unlink_descendant_keeps_nodup. }
  intros _. apply bridge_keeps_nodup.
Qed.

(** X9. The public mutators never put an id twice into a link list:
    every graph reached from a graph whose attachment and precedence
    lists name no id twice has such lists again, also after a call
    that raised. *)
Theorem mutators_keep_links_duplicate_free g0 g :
  links_nodup g0 -> reachable g0 g -> links_nodup g.
Proof.
  intros H0 Hr. induction Hr as [|g m Hr IH]; [exact H0|].
  destruct m; cbn [run].
  - apply (add_edge_keeps_nodup _ _ g IH).
  - apply (remove_edge_keeps_nodup _ _ _ g IH).
  - apply (remove_vertex_keeps_nodup _ g IH).
  - apply (remove_edges_for_vertex_keeps_nodup _ g IH).
  - apply (add_precedence_edge_keeps_nodup _ _ g IH).
  - apply (remove_precedence_edge_keeps_nodup _ _ _ g IH).
  - apply (remove_from_precedence_keeps_nodup _ g IH).
Qed.

Lemma make_links_nodup ns :
  (forall n, In n ns ->
     List.NoDup (inlinks n) /\ List.NoDup (outlinks n) /\
     List.NoDup (precedence_inlinks n) /\ List.NoDup (precedence_outlinks n)) ->
  links_nodup (make ns).
Proof.
  intros H a na Ha. apply H. apply (make_lookup_In ns a na Ha).
Qed.

Lemma mutators_keep_links_duplicate_free_witness :
  links_nodup (snd (run (AddEdge 1 2) Examples.one_edge)).
Proof.
  apply (mutators_keep_links_duplicate_free Examples.one_edge).
  - apply make_links_nodup. intros n [<-|[<-|[]]]; simpl;
      repeat split; repeat constructor; simpl; tauto.
  - apply reachable_step, reachable_start.
Defined.
End NoDupFacts.

Section PitchStateFacts.
Import Pitch PitchNames.

Lemma pitch_formula s delta :
  pitch s delta =
  match base_pitch s, current_delta_steps s with
  | Some bp, Some steps =>
      Ok (step_pitch bp steps (delta + current_clef_delta_shift s)
          + accidental s (delta + current_clef_delta_shift s))
  | _, _ => Raise TypeError
  end.
Proof. reflexivity. Qed.

Lemma step_pitch_octaves bp steps d q :
  step_pitch bp steps (d + 7 * q) = step_pitch bp steps d + 12 * q.
Proof.
  unfold step_pitch. replace (d + 7 * q) with (d + q * 7) by lia.
  rewrite Z.mod_add, Z.div_add by lia. lia.
Qed.

Lemma accidental_reads s d :
  accidental s d
  = accidental_of (dict_get (d mod 7) (key_accidentals s))
                  (dict_get d (inline_accidentals s)).
Proof. reflexivity. Qed.

(** X10. Staff positions seven apart sound an octave apart: when
    the two positions carry the same inline accidental entry (none,
    for instance), [pitch(delta + 7)] is [pitch(delta) + 12], the key
    accidentals applying to both. *)
Theorem pitch_octave s delta :
  dict_get (delta + 7 + current_clef_delta_shift s) (inline_accidentals s)
  = dict_get (delta + current_clef_delta_shift s) (inline_accidentals s) ->
  pitch s (delta + 7) = let* p := pitch s delta in Ok (p + 12).
Proof.
  intros Hin. rewrite !pitch_formula.
  destruct (base_pitch s) as [bp|]; [|reflexivity].
  destruct (current_delta_steps s) as [steps|]; [|reflexivity].
  cbn [bind]. f_equal. rewrite !accidental_reads, Hin.
  replace (delta + 7 + current_clef_delta_shift s)
    with (delta + current_clef_delta_shift s + 7 * 1) by lia.
  rewrite step_pitch_octaves.
  replace (delta + current_clef_delta_shift s + 7 * 1)
    with (delta + current_clef_delta_shift s + 1 * 7) by lia.
  rewrite Z.mod_add by lia. lia.
Qed.

Lemma pitch_octave_witness :
  exists s, init_base_pitch init None 0 = Ok s /\
            pitch s (0 + 7) = Ok (71 + 12).
Proof.
  eexists. split; [reflexivity|].
  rewrite pitch_octave; reflexivity.
Defined.

Lemma clef_tables c bp steps step octave :
  clef_table c = Ok (bp, steps, step, octave) ->
  (bp, steps, step, octave) = (71, [0; 1; 2; 2; 1; 2; 2; 2], 6, 4) \/
  (bp, steps, step, octave) = (50, [0; 2; 1; 2; 2; 2; 1; 2], 1, 3) \/
  (bp, steps, step, octave) = (60, [0; 2; 2; 1; 2; 2; 2; 1], 0, 4).
Proof.
  unfold clef_table. destruct c as [c|]; [|intros [= <- <- <- <-]; auto].
  destruct (String.eqb (class_name c) Const.G_CLEF); [intros [= <- <- <- <-]; auto|].
  destruct (String.eqb (class_name c) Const.F_CLEF); [intros [= <- <- <- <-]; auto|].
  destruct (String.eqb (class_name c) Const.C_CLEF); [intros [= <- <- <- <-]; auto|].
  discriminate.
Qed.

Lemma residues d :
  exists q r, d = r + 7 * q /\
              (r = 0 \/ r = 1 \/ r = 2 \/ r = 3 \/ r = 4 \/ r = 5 \/ r = 6).
Proof.
  exists (d / 7), (d mod 7).
  pose proof (Z.div_mod d 7 ltac:(lia)).
  pose proof (Z.mod_pos_bound d 7 ltac:(lia)). lia.
Qed.

Ltac closed_step_pitch :=
  repeat match goal with
         | |- context [step_pitch ?bp ?st ?k] =>
             let v := eval vm_compute in (step_pitch bp st k) in
             change (step_pitch bp st k) with v
         end.

(** X11. In a state set up for a clef, the next staff position up
    sounds one or two semitones higher, as long as neither position
    carries an accidental. *)
Theorem pitch_next_step s c delta :
  set_up_for s c ->
  accidental s (delta + current_clef_delta_shift s) = 0 ->
  accidental s (delta + 1 + current_clef_delta_shift s) = 0 ->
  exists p, pitch s delta = Ok p /\
            (pitch s (delta + 1) = Ok (p + 1) \/
             pitch s (delta + 1) = Ok (p + 2)).
Proof.
  intros (bp & steps & step & octave & Ht & Hbp & Hst & _) A0 A1.
  rewrite !pitch_formula, Hbp, Hst, A0, A1.
  eexists. split; [reflexivity|].
  destruct (residues (delta + current_clef_delta_shift s)) as (q & r & E & Hr).
  replace (delta + 1 + current_clef_delta_shift s) with (r + 1 + 7 * q) by lia.
  rewrite E, !step_pitch_octaves.
  destruct (clef_tables c bp steps step octave Ht) as [T|[T|T]];
    injection T as -> -> -> ->;
    destruct Hr as [->|[->|[->|[->|[->|[->| ->]]]]]];
    cbn [Z.add Pos.add Pos.succ]; closed_step_pitch;
    first [left; f_equal; lia | right; f_equal; lia].
Qed.

Lemma pitch_next_step_witness :
  exists s p, init_base_pitch init None 0 = Ok s /\
              pitch s 0 = Ok p /\
              (pitch s (0 + 1) = Ok (p + 1) \/ pitch s (0 + 1) = Ok (p + 2)).
Proof.
  eexists. 
  destruct (pitch_next_step
              {| base_pitch := Some 71; base_pitch_step := Some 6;
                 base_pitch_octave := Some 4; current_clef := None;
                 current_delta_steps := Some [0; 1; 2; 2; 1; 2; 2; 2];
                 current_clef_delta_shift := 0;
                 key_accidentals := []; inline_accidentals := [] |}
              None 0) as (p & Hp & Hn).
  - exists 71, [0; 1; 2; 2; 1; 2; 2; 2], 6, 4. repeat split.
  - reflexivity.
  - reflexivity.
  - exists p. split; [reflexivity|]. split; assumption.
Defined.

Lemma letter_octaves step d q :
  (step + (d + 7 * q)) mod 7 = (step + d) mod 7 /\
  (d + 7 * q + step) / 7 = (d + step) / 7 + q.
Proof.
  split.
  - replace (step + (d + 7 * q)) with (step + d + q * 7) by lia.
    apply Z.mod_add. lia.
  - replace (d + 7 * q + step) with (d + step + q * 7) by lia.
    apply Z.div_add. lia.
Qed.

(** X12. In a state set up for a clef, at a staff position without
    accidental, [pitch_name] and [pitch] name the same note: the
    letter is the one [MIDI_CODE_RESIDUES_FOR_PITCH_STEPS] gives for
    the pitch modulo 12, and the octave is the pitch divided by 12,
    less one (so that pitch 60 is C4). *)
Theorem pitch_name_names_pitch s c delta :
  set_up_for s c ->
  accidental s (delta + current_clef_delta_shift s) = 0 ->
  exists p letter,
    pitch s delta = Ok p /\
    pitch_name s delta = Ok (letter, p / 12 - 1) /\
    dict_get (p mod 12) MIDI_CODE_RESIDUES_FOR_PITCH_STEPS = Some letter.
Proof.
  intros (bp & steps & step & octave & Ht & Hbp & Hst & Hs & Ho & _) A0.
  rewrite pitch_formula, Hbp, Hst, A0. unfold pitch_name.
  rewrite Hs, Ho. cbv zeta. rewrite A0.
  destruct (residues (delta + current_clef_delta_shift s)) as (q & r & E & Hr).
  rewrite E, step_pitch_octaves.
  destruct (letter_octaves step r q) as [-> ->]. rewrite Z.add_0_r.
  assert (D : forall v, (v + 12 * q) / 12 = v / 12 + q /\
                        (v + 12 * q) mod 12 = v mod 12).
  { intros v. replace (v + 12 * q) with (v + q * 12) by lia.
    split; [apply Z.div_add|apply Z.mod_add]; lia. }
  destruct (clef_tables c bp steps step octave Ht) as [T|[T|T]];
    injection T as -> -> -> ->;
    destruct Hr as [->|[->|[->|[->|[->|[->| ->]]]]]];
    closed_step_pitch;
    do 2 eexists; (split; [reflexivity|]);
    match goal with
    | |- context [(?v + 12 * q) / 12] => destruct (D v) as [-> ->]
    end;
    (split; [cbn [bind Z.eqb Pos.eqb String.append]; f_equal;
             apply (f_equal2 pair);
              [reflexivity
              |repeat match goal with
                      | |- context [Z.div ?a ?b] =>
                          let v := eval vm_compute in (Z.div a b) in
                          change (Z.div a b) with v
                      end; lia]
            |reflexivity]).
Qed.

Lemma pitch_name_names_pitch_witness :
  exists s, init_base_pitch init (Some (Examples.node 1 "fClef" [] [])) 0
            = Ok s /\
            pitch s 6 = Ok 60 /\ pitch_name s 6 = Ok ("C", 4).
Proof.
  eexists. split; [reflexivity|].
  destruct (pitch_name_names_pitch
              {| base_pitch := Some 50; base_pitch_step := Some 1;
                 base_pitch_octave := Some 3;
                 current_clef := Some (Examples.node 1 "fClef" [] []);
                 current_delta_steps := Some [0; 2; 1; 2; 2; 2; 1; 2];
                 current_clef_delta_shift := 0;
                 key_accidentals := []; inline_accidentals := [] |}
              (Some (Examples.node 1 "fClef" [] [])) 6)
    as (p & letter & Hp & Hn & _).
  - exists 50, [0; 2; 1; 2; 2; 2; 1; 2], 1, 3. repeat split.
  - reflexivity.
  - split; reflexivity.
Defined.
End PitchStateFacts.

Section PitchAccidentalFacts.
Import Pitch PitchNames.

Lemma accidental_of_range key inline :
  let a := accidental_of key inline in
  a = 0 \/ a = 1 \/ a = 2 \/ a = -1 \/ a = -2.
Proof.
  unfold accidental_of.
  destruct key as [k|], inline as [i|];
    repeat match goal with
           | |- context [String.eqb ?x ?y] => destruct (String.eqb x y)
           end; cbv zeta; auto.
Qed.

Lemma pitch_step_letter z :
  exists l, nth_error PITCH_STEPS (Z.to_nat (z mod 7)) = Some l.
Proof.
  pose proof (Z.mod_pos_bound z 7 ltac:(lia)) as B.
  assert (z mod 7 = 0 \/ z mod 7 = 1 \/ z mod 7 = 2 \/ z mod 7 = 3 \/
          z mod 7 = 4 \/ z mod 7 = 5 \/ z mod 7 = 6) as H by lia.
  destruct H as [->|[->|[->|[->|[->|[->| ->]]]]]]; eexists; reflexivity.
Qed.

(** X13. [pitch_name] cannot name an altered note: at a staff
    position whose accidental is a sharp, a double sharp or a flat it
    raises [KeyError], its look-ups in [ACCIDENTAL_CODES] using
    ['sharp'], ['double_sharp'] and ['flat'] where the table is keyed
    by the class names of the accidentals. *)
Theorem pitch_name_altered_raises s delta step octave :
  base_pitch_step s = Some step ->
  base_pitch_octave s = Some octave ->
  accidental s (delta + current_clef_delta_shift s) <> 0 ->
  accidental s (delta + current_clef_delta_shift s) <> -2 ->
  pitch_name s delta = Raise KeyError.
Proof.
  intros Hs Ho H0 H2. unfold pitch_name. rewrite Hs, Ho.
  destruct (pitch_step_letter (step + (delta + current_clef_delta_shift s)))
    as [l ->].
  cbv zeta.
  pose proof (accidental_of_range
                (dict_get ((delta + current_clef_delta_shift s) mod 7)
                          (key_accidentals s))
                (dict_get (delta + current_clef_delta_shift s)
                          (inline_accidentals s))) as R.
  cbv zeta in R. rewrite <- accidental_reads in R.
  destruct R as [R|[R|[R|[R|R]]]]; try congruence; rewrite R; reflexivity.
Qed.

Lemma pitch_name_altered_raises_witness :
  exists s0 s, init_base_pitch init None 0 = Ok s0 /\
               set_key s0 1 0 = Ok s /\
               pitch s 4 = Ok 78 /\
               pitch_name s 4 = Raise KeyError.
Proof.
  do 2 eexists. split; [reflexivity|]. split; [reflexivity|].
  split; [reflexivity|].
  apply (pitch_name_altered_raises _ 4 6 4); [reflexivity|reflexivity| |];
    vm_compute; discriminate.
Defined.

Lemma clef_cases c tbl :
  clef_table c = Ok tbl ->
  (tbl = (71, [0; 1; 2; 2; 1; 2; 2; 2], 6, 4) /\
   key_deltas c = Ok ([4; 1; 5; 2; 6; 3; 0], [0; 3; 6; 2; 5; 1; 4])) \/
  (tbl = (50, [0; 2; 1; 2; 2; 2; 1; 2], 1, 3) /\
   key_deltas c = Ok ([2; 6; 3; 0; 4; 1; 5], [5; 1; 4; 0; 3; 6; 2])) \/
  (tbl = (60, [0; 2; 2; 1; 2; 2; 2; 1], 0, 4) /\
   key_deltas c = Ok ([3; 0; 4; 1; 5; 2; 6], [6; 2; 5; 1; 4; 0; 3])).
Proof.
  unfold clef_table, key_deltas.
  destruct c as [c|]; [|intros [= <-]; auto].
  destruct (String.eqb_spec (class_name c) Const.G_CLEF) as [E|_];
    [intros [= <-]; auto|].
  destruct (String.eqb_spec (class_name c) Const.F_CLEF) as [E|_].
  - intros [= <-]. rewrite E. right. left. split; reflexivity.
  - destruct (String.eqb_spec (class_name c) Const.C_CLEF) as [E|_];
      [intros [= <-]; auto|discriminate].
Qed.

Lemma small_count n :
  0 <= n <= 7 ->
  n = 0 \/ n = 1 \/ n = 2 \/ n = 3 \/ n = 4 \/ n = 5 \/ n = 6 \/ n = 7.
Proof. lia. Qed.

Lemma letter_residue step r q :
  (step + (r + 7 * q)) mod 7 = (step + r) mod 7 /\
  (r + 7 * q) mod 7 = r mod 7.
Proof.
  split.
  - replace (step + (r + 7 * q)) with (step + r + q * 7) by lia.
    apply Z.mod_add. lia.
  - replace (r + 7 * q) with (r + q * 7) by lia. apply Z.mod_add. lia.
Qed.

(** X14. [set_key] puts the accidentals of a standard key signature
    on the right letters in every clef: with [ns] sharps and [nf]
    flats (seven at most together), a staff position without inline
    accidental is sharpened exactly when its letter, as [pitch_name]
    reads it from [PITCH_STEPS], is among the first [ns] of
    F C G D A E B, and flattened exactly when it is among the first
    [nf] of B E A D G C F. *)
Theorem set_key_letters s c ns nf d :
  set_up_for s c ->
  0 <= ns -> 0 <= nf -> ns + nf <= 7 ->
  dict_get d (inline_accidentals s) = None ->
  exists s' step,
    set_key s ns nf = Ok s' /\
    base_pitch_step s' = Some step /\
    accidental s' d =
      if z_in ((step + d) mod 7) (firstn (Z.to_nat ns) SHARP_ORDER) then 1
      else if z_in ((step + d) mod 7) (firstn (Z.to_nat nf) FLAT_ORDER)
           then -1
      else 0.
Proof.
  intros (bp & steps & step & octave & Ht & Hbp & Hst & Hs & Ho & Hc)
         Hns Hnf Hsum Hin.
  unfold set_key.
  destruct (Z.gtb_spec (nf + ns) 7) as [?|_]; [lia|].
  rewrite Hbp, Hc.
  destruct (residues d) as (q & r & E & Hr).
  destruct (letter_residue step r q) as [L1 L2].
  destruct (clef_cases c _ Ht) as [[T ->]|[[T ->]|[T ->]]];
    injection T as -> -> -> ->; cbn [bind];
    do 2 eexists; (split; [reflexivity|]); (split; [exact Hs|]);
    rewrite accidental_reads;
    cbn [key_accidentals inline_accidentals with_key_accidentals];
    rewrite Hin, E, L1, L2; clear - Hns Hnf Hsum Hr;
    destruct (small_count ns ltac:(lia))
      as [->|[->|[->|[->|[->|[->|[->| ->]]]]]]];
    destruct (small_count nf ltac:(lia))
      as [->|[->|[->|[->|[->|[->|[->| ->]]]]]]];
    try lia;
    destruct Hr as [->|[->|[->|[->|[->|[->| ->]]]]]];
    vm_compute; reflexivity.
Qed.

Lemma set_key_letters_witness :
  exists s0 s, init_base_pitch init (Some (Examples.node 1 "fClef" [] [])) 0
               = Ok s0 /\
               set_key s0 0 2 = Ok s /\
               pitch_name s0 1 = Ok ("E", 3) /\
               accidental s 1 = -1.
Proof.
  do 2 eexists. split; [reflexivity|]. split; [reflexivity|].
  split; [reflexivity|].
  destruct (set_key_letters
              {| base_pitch := Some 50; base_pitch_step := Some 1;
                 base_pitch_octave := Some 3;
                 current_clef := Some (Examples.node 1 "fClef" [] []);
                 current_delta_steps := Some [0; 2; 1; 2; 2; 2; 1; 2];
                 current_clef_delta_shift := 0;
                 key_accidentals := []; inline_accidentals := [] |}
              (Some (Examples.node 1 "fClef" [] [])) 0 2 1)
    as (s' & step & Hk & Hstep & Ha).
  - exists 50, [0; 2; 1; 2; 2; 2; 1; 2], 1, 3. repeat split.
  - lia.
  - lia.
  - lia.
  - reflexivity.
  - injection Hk as <-. injection Hstep as <-. exact Ha.
Defined.

(** X15. An inline accidental recorded by [set_inline_accidental]
    never takes effect when the node's class name is one of
    [ACCIDENTAL_CLASS_NAMES] ([accidentalSharp], ...): [accidental]
    compares the stored name with ['natural'], ['sharp'], ..., so the
    position keeps the accidental of the key signature; the other
    positions are read as before. *)
Theorem inline_accidental_class_names_ignored s delta a d :
  In (class_name a) ACCIDENTAL_CLASS_NAMES ->
  accidental (set_inline_accidental s delta a) d =
  if d =? delta then accidental (reset_inline_accidentals s) d
  else accidental s d.
Proof.
  intros Ha. rewrite !accidental_reads.
  cbn [set_inline_accidental reset_inline_accidentals
       with_inline_accidentals key_accidentals inline_accidentals].
  destruct (Z.eqb_spec d delta) as [->|Hne].
  - rewrite dict_get_set_eq. cbn [dict_get].
    simpl in Ha.
    destruct Ha as [<-|[<-|[<-|[<-|[<-|[]]]]]];
      destruct (dict_get (delta mod 7) (key_accidentals s));
      reflexivity.
  - rewrite dict_get_set_ne by congruence. reflexivity.
Qed.

Lemma inline_accidental_class_names_ignored_witness :
  exists s,
    init_base_pitch init None 0 = Ok s /\
    pitch s 1 = Ok 72 /\
    pitch (set_inline_accidental
             s 1 (Examples.node 7 "accidentalSharp" [] [])) 1 = Ok 72.
Proof.
  eexists. split; [reflexivity|]. split; [reflexivity|].
  rewrite pitch_formula. cbn [base_pitch current_delta_steps
    set_inline_accidental with_inline_accidentals current_clef_delta_shift].
  rewrite (inline_accidental_class_names_ignored _ 1
             (Examples.node 7 "accidentalSharp" [] []) (1 + 0));
    [reflexivity|].
  simpl. auto.
Defined.
End PitchAccidentalFacts.

Section ClefChangeFacts.
Import Pitch PitchNames.

Lemma dict_get_absent {V} (d : dict V) k :
  ~ In k (dict_keys d) -> dict_get k d = None.
Proof.
  induction d as [|[k' v] t IH]; simpl; [reflexivity|].
  intros H. destruct (Z.eqb_spec k k') as [->|_]; [tauto|].
  apply IH. tauto.
Qed.

Lemma dict_get_rekey_onto {V} (f : Z -> Z) (d acc : dict V) k :
  List.NoDup (dict_keys d) ->
  (forall k', In k' (dict_keys d) -> f k' = f k -> k' = k) ->
  dict_get (f k)
    (fold_left (fun acc kv => dict_set (f (fst kv)) (snd kv) acc) d acc)
  = match dict_get k d with
    | Some v => Some v
    | None => dict_get (f k) acc
    end.
Proof.
  revert acc. induction d as [|[k1 v1] t IH]; intros acc Hnd Hinj;
    [reflexivity|].
  simpl in Hnd. apply List.NoDup_cons_iff in Hnd as [Hk1 Hnd].
  cbn [fold_left fst snd]. rewrite IH; [|exact Hnd|].
  - cbn [dict_get]. destruct (Z.eqb_spec k k1) as [->|Hne].
    + rewrite (dict_get_absent t k1 Hk1). apply dict_get_set_eq.
    + destruct (dict_get k t); [reflexivity|].
      apply dict_get_set_ne. intros E. apply Hne. symmetry.
      apply Hinj; [now left|exact E].
  - intros k' Hk'. apply Hinj. now right.
Qed.

Lemma dict_get_rekey {V} (f : Z -> Z) (d : dict V) k :
  List.NoDup (dict_keys d) ->
  (forall k', In k' (dict_keys d) -> f k' = f k -> k' = k) ->
  dict_get (f k) (dict_rekey f d) = dict_get k d.
Proof.
  intros Hnd Hinj. unfold dict_rekey.
  rewrite dict_get_rekey_onto by assumption.
  destruct (dict_get k d); reflexivity.
Qed.

Lemma clef_change_cases c c' t tbl :
  clef_table (Some c) = Ok tbl ->
  Const.CLEF_CHANGE_DELTA (class_name c) (class_name c') = Some t ->
  exists tbl',
    clef_table (Some c') = Ok tbl' /\
    In (tbl, tbl', t)
       (let g := (71, [0; 1; 2; 2; 1; 2; 2; 2], 6, 4) in
        let f := (50, [0; 2; 1; 2; 2; 2; 1; 2], 1, 3) in
        let c := (60, [0; 2; 2; 1; 2; 2; 2; 1], 0, 4) in
        [(g, g, 0); (g, c, 6); (g, f, 12);
         (c, g, -6); (c, c, 0); (c, f, 6);
         (f, g, -12); (f, c, -6); (f, f, 0)]).
Proof.
  unfold clef_table, Const.CLEF_CHANGE_DELTA.
  destruct (String.eqb_spec (class_name c) Const.G_CLEF) as [E|N1].
  { intros [= <-].
    destruct (String.eqb_spec (class_name c') Const.G_CLEF);
      [intros [= <-]; eexists; split; [reflexivity|simpl; tauto]|].
    destruct (String.eqb_spec (class_name c') Const.C_CLEF) as [E'|].
    { intros [= <-]. rewrite E'. eexists; split; [reflexivity|simpl; tauto]. }
    destruct (String.eqb_spec (class_name c') Const.F_CLEF);
      [intros [= <-]; eexists; split; [reflexivity|simpl; tauto]
      |discriminate]. }
  destruct (String.eqb_spec (class_name c) Const.F_CLEF) as [E|N2].
  { intros [= <-]. rewrite E. cbn [String.eqb Ascii.eqb Bool.eqb].
    destruct (String.eqb_spec (class_name c') Const.G_CLEF);
      [intros [= <-]; eexists; split; [reflexivity|simpl; tauto]|].
    destruct (String.eqb_spec (class_name c') Const.C_CLEF) as [E'|].
    { intros [= <-]. rewrite E'. eexists; split; [reflexivity|simpl; tauto]. }
    destruct (String.eqb_spec (class_name c') Const.F_CLEF);
      [intros [= <-]; eexists; split; [reflexivity|simpl; tauto]
      |discriminate]. }
  destruct (String.eqb_spec (class_name c) Const.C_CLEF) as [E|N3];
    [|discriminate].
  intros [= <-].
  destruct (String.eqb_spec (class_name c') Const.G_CLEF);
    [intros [= <-]; eexists; split; [reflexivity|simpl; tauto]|].
  destruct (String.eqb_spec (class_name c') Const.C_CLEF) as [E'|].
  { intros [= <-]. rewrite E'. eexists; split; [reflexivity|simpl; tauto]. }
  destruct (String.eqb_spec (class_name c') Const.F_CLEF);
    [intros [= <-]; eexists; split; [reflexivity|simpl; tauto]
    |discriminate].
Qed.

Lemma step_pitch_moves bp steps step octave bp' steps' step' octave' t d :
  In ((bp, steps, step, octave), (bp', steps', step', octave'), t)
     (let g := (71, [0; 1; 2; 2; 1; 2; 2; 2], 6, 4) in
      let f := (50, [0; 2; 1; 2; 2; 2; 1; 2], 1, 3) in
      let c := (60, [0; 2; 2; 1; 2; 2; 2; 1], 0, 4) in
      [(g, g, 0); (g, c, 6); (g, f, 12);
       (c, g, -6); (c, c, 0); (c, f, 6);
       (f, g, -12); (f, c, -6); (f, f, 0)]) ->
  step_pitch bp' steps' (d + t) = step_pitch bp steps d.
Proof.
  intros H. destruct (residues d) as (q & r & -> & Hr).
  replace (r + 7 * q + t) with (r + t + 7 * q) by lia.
  rewrite !step_pitch_octaves. f_equal.
  cbv zeta in H. simpl in H.
  repeat (destruct H as [H|H]; [injection H as <- <- <- <- <- <- <- <- <-|]);
    try contradiction;
    destruct Hr as [->|[->|[->|[->|[->|[->| ->]]]]]]; reflexivity.
Qed.

Lemma key_shift_injective t k k' :
  0 <= k' < 7 -> (k' + t) mod 7 = (k mod 7 + t) mod 7 -> k' = k mod 7.
Proof.
  intros B E. pose proof (Z.mod_pos_bound k 7 ltac:(lia)).
  Z.div_mod_to_equations. lia.
Qed.

(** X16. A change of clef keeps what is written: when a state set
    up for one clef is re-initialised for another by
    [init_base_pitch_default_staffline], every staff position moved
    by [CLEF_CHANGE_DELTA] sounds as it did before, the key and
    inline accidentals having moved with it. *)
Theorem clef_change_keeps_pitch s c c' t delta :
  set_up_for s (Some c) ->
  maps_well_keyed s ->
  Const.CLEF_CHANGE_DELTA (class_name c) (class_name c') = Some t ->
  exists s',
    init_base_pitch_default_staffline s (Some c') = Ok s' /\
    set_up_for s' (Some c') /\
    pitch s' (delta + t) = pitch s delta.
Proof.
  intros (bp & steps & step & octave & Ht & Hbp & Hst & Hs & Ho & Hc)
         (Hk & Hi & Hr) Hd.
  destruct (clef_change_cases c c' t _ Ht Hd)
    as ([[[bp' steps'] step'] octave'] & Ht' & Hin).
  unfold init_base_pitch_default_staffline.
  rewrite Ht', Hc, Hd. cbn [bind].
  assert (Hmove : forall d, step_pitch bp' steps' (d + t)
                            = step_pitch bp steps d)
    by (intros d; apply (step_pitch_moves _ _ _ _ _ _ _ _ _ d Hin)).
  destruct (Z.eqb_spec t 0) as [->|Hne]; cbn [bind];
    (eexists; split; [reflexivity|]; split;
     [exists bp', steps', step', octave'; repeat split; exact Ht'|]);
    rewrite !pitch_formula, Hbp, Hst;
    cbn [base_pitch current_delta_steps current_clef_delta_shift];
    f_equal;
    [replace (delta + 0 + current_clef_delta_shift s)
       with (delta + current_clef_delta_shift s + 0) by lia
    |replace (delta + t + current_clef_delta_shift s)
       with (delta + current_clef_delta_shift s + t) by lia];
    rewrite Hmove; f_equal; rewrite !accidental_reads;
    cbn [key_accidentals inline_accidentals fst snd].
  - now rewrite Z.add_0_r.
  - set (d := delta + current_clef_delta_shift s). f_equal.
    + rewrite <- (Zplus_mod_idemp_l d t 7).
      apply (dict_get_rekey (fun d => (d + t) mod 7)); [exact Hk|].
      intros k' Hk'. apply key_shift_injective.
      apply (proj1 (List.Forall_forall _ _) Hr), Hk'.
    + apply (dict_get_rekey (fun d => d + t)); [exact Hi|].
      intros k' _ E. lia.
Qed.

Lemma clef_change_keeps_pitch_witness :
  exists s0 s1 s2,
    init_base_pitch init (Some (Examples.node 1 "gClef" [] [])) 0 = Ok s0 /\
    set_key s0 2 0 = Ok s1 /\
    init_base_pitch_default_staffline
      s1 (Some (Examples.node 2 "fClef" [] [])) = Ok s2 /\
    pitch s1 1 = Ok 73 /\ pitch s2 (1 + 12) = Ok 73.
Proof.
  destruct (clef_change_keeps_pitch
              {| base_pitch := Some 71; base_pitch_step := Some 6;
                 base_pitch_octave := Some 4;
                 current_clef := Some (Examples.node 1 "gClef" [] []);
                 current_delta_steps := Some [0; 1; 2; 2; 1; 2; 2; 2];
                 current_clef_delta_shift := 0;
                 key_accidentals := [(4, "sharp"); (1, "sharp")];
                 inline_accidentals := [] |}
              (Examples.node 1 "gClef" [] [])
              (Examples.node 2 "fClef" [] []) 12 1)
    as (s' & Hs' & _ & Hp).
  - exists 71, [0; 1; 2; 2; 1; 2; 2; 2], 6, 4. repeat split.
  - repeat split.
    + repeat constructor; simpl; intuition lia.
    + constructor.
    + repeat constructor; simpl; lia.
  - reflexivity.
  - do 2 eexists. exists s'. split; [reflexivity|]. split; [reflexivity|].
    split; [exact Hs'|]. split; [reflexivity|]. rewrite Hp. reflexivity.
Defined.
End ClefChangeFacts.

Section TimeSignatureReadings.
Import Durations.
Variable dice : Node -> Node -> Q.

Lemma existsb_sorted_true {A} (le : A -> A -> bool) (p : A -> bool) l :
  existsb p l = true -> existsb p (sorted le l) = true.
Proof.
  intros H. apply existsb_exists in H. destruct H as (x & Hx & Hp).
  apply existsb_exists. exists x. split; [|exact Hp].
  apply (Permutation_in _ (Permutation_sym (sorted_perm le l))), Hx.
Qed.

(** X17. A time signature with a common-time or cut-time mark among
    its members is read as 4 beats, whatever else is attached to it
    and whatever the threshold, the default [None] included. *)
Theorem time_signature_common_is_four g (ts : Node) cs threshold :
  Graph.children g (node_id ts) (Some Const.TIME_SIGNATURE_MEMBERS) = Ok cs ->
  existsb (fun m => String.eqb (class_name m) Const.TIME_SIG_COMMON) cs
  || existsb (fun m => String.eqb (class_name m) Const.TIME_SIG_CUT_COMMON) cs
  = true ->
  interpret_time_signature dice g ts threshold = Ok 4%Q.
Proof.
  intros Hc Hm. unfold interpret_time_signature. rewrite Hc. cbn [bind].
  assert (Hs : existsb (fun m => String.eqb (class_name m) Const.TIME_SIG_COMMON)
                 (sorted by_top cs)
               || existsb (fun m => String.eqb (class_name m)
                                      Const.TIME_SIG_CUT_COMMON)
                    (sorted by_top cs) = true).
  { apply orb_true_iff in Hm. apply orb_true_iff.
    destruct Hm as [H|H]; [left|right]; apply existsb_sorted_true, H. }
  destruct (sorted by_top cs) as [|m0 ms]; [discriminate|].
  rewrite Hs. reflexivity.
Qed.

Lemma numeral_in_members s :
  str_in s Const.NUMERALS = true ->
  str_in s Const.TIME_SIGNATURE_MEMBERS = true /\
  String.eqb s Const.TIME_SIG_COMMON = false /\
  String.eqb s Const.TIME_SIG_CUT_COMMON = false.
Proof.
  unfold str_in, Const.TIME_SIGNATURE_MEMBERS. cbn [existsb].
  intros H. rewrite H, !orb_true_r. split; [reflexivity|].
  unfold Const.NUMERALS, Const.numeral_to_digit in H. cbn [map fst existsb] in H.
  repeat (apply orb_true_iff in H;
          destruct H as [H|H];
          [apply String.eqb_eq in H; subst s; split; reflexivity|]).
  discriminate.
Qed.

(** The numerals of a time signature are those of its members that
    are numerals, in the same order. *)
Lemma collect_numerals g ids :
  Graph.collect g (Some Const.NUMERALS) ids
  = List.filter (fun n => str_in (class_name n) Const.NUMERALS)
      (Graph.collect g (Some Const.TIME_SIGNATURE_MEMBERS) ids).
Proof.
  induction ids as [|i t IH]; [reflexivity|]. cbn [Graph.collect].
  destruct (Graph.id_to_node_mapping g !! i) as [n|]; [|exact IH].
  cbn [Graph.passes].
  destruct (str_in (class_name n) Const.NUMERALS) eqn:E.
  - destruct (numeral_in_members _ E) as [-> _].
    cbn [List.filter]. rewrite E, IH. reflexivity.
  - destruct (str_in (class_name n) Const.TIME_SIGNATURE_MEMBERS);
      [cbn [List.filter]; rewrite E|]; exact IH.
Qed.

Lemma numerals_of_members g i cs :
  Graph.children g i (Some Const.TIME_SIGNATURE_MEMBERS) = Ok cs ->
  Forall (fun n => str_in (class_name n) Const.NUMERALS = true) cs ->
  Graph.children g i (Some Const.NUMERALS) = Ok cs.
Proof.
  unfold Graph.children.
  destruct (Graph.id_to_node_mapping g !! i) as [p|]; [|discriminate].
  intros [= <-] Hall. f_equal. rewrite collect_numerals.
  induction Hall as [|n t Hn Ht IH]; [reflexivity|].
  cbn [List.filter]. rewrite Hn, IH. reflexivity.
Qed.

Lemma interpret_single_numeral c :
  str_in (class_name c) Const.NUMERALS = true ->
  interpret_numerals [c] = Ok (Some (digit_value (class_name c))).
Proof.
  intros Hc. rewrite interpret_numerals_reading
    by (constructor; [exact Hc|constructor]).
  reflexivity.
Qed.

(** X18. A time signature with a single numeral is read as that
    many beats, whatever the threshold, the default [None] included:
    with fewer than two members the threshold is not consulted. *)
Theorem time_signature_single_numeral g (ts : Node) c threshold :
  Graph.children g (node_id ts) (Some Const.TIME_SIGNATURE_MEMBERS) = Ok [c] ->
  str_in (class_name c) Const.NUMERALS = true ->
  interpret_time_signature dice g ts threshold
  = Ok (inject_Z (digit_value (class_name c))).
Proof.
  intros Hc Hn. unfold interpret_time_signature.
  rewrite Hc, (numerals_of_members _ _ _ Hc)
    by (constructor; [exact Hn|constructor]).
  cbn [bind sorted insert_sorted existsb].
  destruct (numeral_in_members _ Hn) as (_ & -> & ->). cbn [orb].
  pose proof (single_member_not_fraction_like
                dice g (node_id ts) c threshold Hc) as F.
  change (sorted by_top [c]) with [c] in F. rewrite F.
  cbn [bind negb]. rewrite (interpret_single_numeral c Hn). reflexivity.
Qed.

Lemma sorted_pair (a b : Node) cs :
  cs = [a; b] \/ cs = [b; a] -> (top a < top b)%Z ->
  sorted by_top cs = [a; b].
Proof.
  intros [->| ->] Hlt; cbn [sorted insert_sorted]; unfold by_top.
  - destruct (Z.leb_spec (top a) (top b)); [reflexivity|lia].
  - destruct (Z.leb_spec (top b) (top a)); [lia|reflexivity].
Qed.

Lemma argmax_single_gap (l : list Node) :
  List.length l = 2%nat -> py_argmax (gaps_of l) = Ok 0%nat.
Proof.
  destruct l as [|x [|y [|z t]]]; try discriminate. reflexivity.
Qed.

(** X19. Two numerals, one above the other, with an explicit
    threshold: when the least overlap among the pairs compared is
    below the threshold, the signature is read as a fraction, four
    times the upper numeral over the lower one, and a lower numeral 0
    raises [ZeroDivisionError]; otherwise the two numerals are read
    from left to right as one number of beats, ten times the digit of
    the numeral whose left edge comes first plus the digit of the
    other (the upper numeral counting as the first when the left
    edges coincide). *)
Theorem time_signature_two_numerals g (ts : Node) a b cs (t : Q) :
  Graph.children g (node_id ts) (Some Const.TIME_SIGNATURE_MEMBERS) = Ok cs ->
  cs = [a; b] \/ cs = [b; a] ->
  (top a < top b)%Z ->
  str_in (class_name a) Const.NUMERALS = true ->
  str_in (class_name b) Const.NUMERALS = true ->
  ((dice a a < t)%Q \/ (dice a b < t)%Q ->
   interpret_time_signature dice g ts (Some t)
   = if (digit_value (class_name b) =? 0)%Z then Raise ZeroDivisionError
     else Ok (inject_Z (digit_value (class_name a) * 4)
              / inject_Z (digit_value (class_name b)))%Q) /\
  ((t <= dice a a)%Q /\ (t <= dice a b)%Q ->
   interpret_time_signature dice g ts (Some t)
   = Ok (inject_Z
           (if (left a <=? left b)%Z
            then 10 * digit_value (class_name a) + digit_value (class_name b)
            else 10 * digit_value (class_name b)
                 + digit_value (class_name a)))).
Proof.
  intros Hc Hcs Htop Ha Hb.
  assert (Hall : Forall (fun n => str_in (class_name n) Const.NUMERALS = true) cs).
  { destruct Hcs as [->| ->]; repeat constructor; assumption. }
  assert (Hall' : Forall (fun n => str_in (class_name n) Const.NUMERALS = true)
                         [a; b]) by (repeat constructor; assumption).
  unfold interpret_time_signature.
  rewrite Hc, (numerals_of_members _ _ _ Hc Hall). cbn [bind].
  rewrite (sorted_pair a b cs Hcs Htop). cbn [existsb].
  destruct (numeral_in_members _ Ha) as (_ & -> & ->).
  destruct (numeral_in_members _ Hb) as (_ & -> & ->). cbn [orb].
  unfold is_fraction_like_of. cbn [List.filter].
  assert (La : String.eqb (class_name a) Const.LETTER_OTHER = false).
  { destruct (String.eqb_spec (class_name a) Const.LETTER_OTHER) as [E|];
      [rewrite E in Ha; discriminate|reflexivity]. }
  assert (Lb : String.eqb (class_name b) Const.LETTER_OTHER = false).
  { destruct (String.eqb_spec (class_name b) Const.LETTER_OTHER) as [E|];
      [rewrite E in Hb; discriminate|reflexivity]. }
  rewrite La, Lb.
  cbn [List.length Nat.ltb Nat.leb vertical_overlaps drop_last removelast
       overlaps_from skipn map app py_min min_from bind lt_threshold].
  split.
  - intros Hlt.
    assert (F : (if Qlt_le_dec
                      (if Qlt_le_dec (dice a b) (dice a a)
                       then dice a b else dice a a) t
                 then true else false) = true).
    { destruct (Qlt_le_dec (dice a b) (dice a a)) as [H1|H1];
        destruct (Qlt_le_dec _ t) as [H2|H2]; try reflexivity; exfalso;
        destruct Hlt as [H|H].
      - apply (Qlt_irrefl t). eapply Qle_lt_trans; [exact H2|].
        eapply Qlt_trans; [exact H1|exact H].
      - apply (Qlt_irrefl t). eapply Qle_lt_trans; [exact H2|exact H].
      - apply (Qlt_irrefl t). eapply Qle_lt_trans; [exact H2|exact H].
      - apply (Qlt_irrefl t). eapply Qle_lt_trans; [exact H2|].
        eapply Qle_lt_trans; [exact H1|exact H]. }
    rewrite F. cbn [negb].
    rewrite argmax_single_gap by (rewrite sorted_length; reflexivity).
    cbn [bind firstn skipn].
    rewrite (interpret_single_numeral a Ha), (interpret_single_numeral b Hb).
    reflexivity.
  - intros [H1 H2].
    assert (F : (if Qlt_le_dec
                      (if Qlt_le_dec (dice a b) (dice a a)
                       then dice a b else dice a a) t
                 then true else false) = false).
    { destruct (Qlt_le_dec (dice a b) (dice a a));
        destruct (Qlt_le_dec _ t) as [H3|H3]; try reflexivity; exfalso.
      - apply (Qlt_irrefl t). eapply Qle_lt_trans; [exact H2|exact H3].
      - apply (Qlt_irrefl t). eapply Qle_lt_trans; [exact H1|exact H3]. }
    rewrite F. cbn [negb].
    rewrite (interpret_numerals_reading [a; b] Hall').
    cbn [bind sorted insert_sorted]. unfold by_left.
    destruct (left a <=? left b)%Z; cbn [map decimal fold_left];
      do 2 f_equal; lia.
Qed.
End TimeSignatureReadings.

Lemma time_signature_common_is_four_witness :
  Durations.interpret_time_signature Examples.constant_dice
    (Graph.make [Examples.node 1 "timeSignature" [] [2];
                 Examples.node 2 "timeSigCutCommon" [1] []])
    (Examples.node 1 "timeSignature" [] [2]) None = Ok 4%Q.
Proof.
  apply (time_signature_common_is_four Examples.constant_dice _ _
           [Examples.node 2 "timeSigCutCommon" [1] []]); reflexivity.
Defined.

Lemma time_signature_single_numeral_witness :
  Durations.interpret_time_signature Examples.constant_dice
    (Graph.make [Examples.node 1 "timeSignature" [] [2];
                 Examples.node 2 "numeral3" [1] []])
    (Examples.node 1 "timeSignature" [] [2]) None = Ok (inject_Z 3).
Proof.
  apply (time_signature_single_numeral Examples.constant_dice _ _
           (Examples.node 2 "numeral3" [1] [])); reflexivity.
Defined.

Lemma time_signature_two_numerals_witness :
  Durations.interpret_time_signature (fun _ _ => 1%Q) TupleExamples.twelve
    (Examples.placed 10 "timeSignature" 0 0 12 20 [] [11; 12])
    (Some (8 # 10)%Q)
  = Ok (inject_Z 12).
Proof.
  apply (time_signature_two_numerals (fun _ _ => 1%Q) TupleExamples.twelve
           (Examples.placed 10 "timeSignature" 0 0 12 20 [] [11; 12])
           (Examples.placed 11 "numeral2" 0 12 10 20 [10] [])
           (Examples.placed 12 "numeral1" 2 0 12 8 [10] [])
           [Examples.placed 11 "numeral2" 0 12 10 20 [10] [];
            Examples.placed 12 "numeral1" 2 0 12 8 [10] []]
           (8 # 10)%Q).
  - reflexivity.
  - left. reflexivity.
  - reflexivity.
  - reflexivity.
  - reflexivity.
  - split; discriminate.
Defined.

Section TieTables.
Import Ties TieSpec TieTables.
Local Open Scope Q_scope.

Lemma dict_del_keys {V} (d : dict V) k :
  List.NoDup (dict_keys d) ->
  List.NoDup (dict_keys (dict_del k d)) /\
  incl (dict_keys (dict_del k d)) (dict_keys d).
Proof.
  unfold dict_keys. induction d as [|[k' v] t IH]; simpl.
  - intros _. split; [constructor|apply incl_refl].
  - intros Hnd. apply List.NoDup_cons_iff in Hnd as [Hk Hnd].
    destruct (Z.eqb_spec k k') as [->|Hne].
    + split; [exact Hnd|apply incl_tl, incl_refl].
    + destruct (IH Hnd) as [IH1 IH2]. simpl. split.
      * constructor; [|exact IH1]. intros Hin. apply Hk, IH2, Hin.
      * intros x [->|Hx]; [now left|right; apply IH2, Hx].
Qed.

Lemma dict_get_del {V} (d : dict V) k j v :
  List.NoDup (dict_keys d) ->
  dict_get j (dict_del k d) = Some v -> dict_get j d = Some v.
Proof.
  intros Hnd. destruct (Z.eq_dec j k) as [->|Hne].
  - rewrite dict_del_absent by exact Hnd. discriminate.
  - clear Hnd. induction d as [|[k' w] t IH]; simpl; [discriminate|].
    destruct (Z.eqb_spec k k') as [->|Hk].
    + destruct (Z.eqb_spec j k'); [congruence|]. exact (fun H => H).
    + simpl. destruct (Z.eqb_spec j k'); [exact (fun H => H)|exact IH].
Qed.

Lemma dict_set_new_key {V} (d : dict V) k v :
  ~ In k (dict_keys d) -> dict_keys (dict_set k v d) = dict_keys d ++ [k].
Proof.
  unfold dict_keys. induction d as [|[k' w] t IH]; simpl; [reflexivity|].
  intros Hk. destruct (Z.eqb_spec k k') as [->|_]; [tauto|].
  simpl. f_equal. apply IH. tauto.
Qed.

(** [{k: d[k] for k in keys}] has the keys [keys], in that order. *)
Lemma restrict_keys keys (d : dict Q) : forall acc r,
  List.NoDup (dict_keys acc ++ keys) ->
  restrict keys d acc = Ok r ->
  dict_keys r = dict_keys acc ++ keys.
Proof.
  induction keys as [|k t IH]; intros acc r Hnd; simpl.
  - intros [= <-]. now rewrite app_nil_r.
  - destruct (dict_get k d) as [v|]; [|discriminate]. intros Hr.
    assert (Hk : ~ In k (dict_keys acc)).
    { intros Hin. apply List.NoDup_remove_2 in Hnd. apply Hnd.
      apply in_or_app. now left. }
    apply IH in Hr.
    + rewrite Hr, dict_set_new_key by exact Hk.
      now rewrite <- app_assoc.
    + rewrite dict_set_new_key by exact Hk. now rewrite <- app_assoc.
Qed.

Lemma post_getitem l k (h : heap) Q :
  (forall d, h !! l = Some d ->
     match dict_get k d with
     | Some v => Q (Ok v) h
     | None => Q (Raise KeyError) h
     end) ->
  (h !! l = None -> Q (Raise AttributeError) h) ->
  post (getitem l k) h Q.
Proof.
  intros H1 H2. unfold getitem. apply post_bind, post_contents.
  destruct (h !! l) as [d|]; [|apply H2; reflexivity].
  specialize (H1 d eq_refl). destruct (dict_get k d); exact H1.
Qed.

Lemma post_setitem l k v (h : heap) d Q :
  h !! l = Some d ->
  Q (Ok tt) (<[l := dict_set k v d]> h) ->
  post (setitem l k v) h Q.
Proof.
  intros Hl HQ. unfold setitem. apply post_bind, post_contents.
  rewrite Hl. exact HQ.
Qed.

Lemma post_delitem l k (h : heap) d Q :
  h !! l = Some d ->
  (if dict_mem k d then Q (Ok tt) (<[l := dict_del k d]> h)
   else Q (Raise KeyError) h) ->
  post (delitem l k) h Q.
Proof.
  intros Hl HQ. unfold delitem. apply post_bind, post_contents.
  rewrite Hl. destruct (dict_mem k d); exact HQ.
Qed.

Lemma process_key_shrinks os g nd no k h :
  nd <> no -> onsets_shrink os no h ->
  post (process_key g nd no k) h (fun _ h' => onsets_shrink os no h').
Proof.
  intros Hne Hinv. unfold process_key.
  apply post_bind, post_lift.
  destruct (Graph.children g k (Some [Const.TIE_CLASS_NAME]))
    as [[|t0 rest]|e]; try exact Hinv.
  apply post_bind, post_lift.
  destruct (Graph.getitem g k) as [n|e]; [|exact Hinv].
  apply post_bind, post_lift.
  destruct (get_tie_notes g _) as [[|l [|r [|x t]]]|e]; try exact Hinv.
  destruct (node_id l =? node_id n)%Z; [|exact Hinv].
  apply post_bind, post_getitem; [|intros _; exact Hinv].
  intros D HD. destruct (dict_get (node_id l) D) as [dl|]; [|exact Hinv].
  apply post_bind, post_getitem; [|intros _; exact Hinv].
  intros D' HD'. destruct (dict_get (node_id r) D') as [dr|]; [|exact Hinv].
  destruct Hinv as (O & HO & Hnd & Hsub).
  apply post_bind. eapply post_setitem; [exact HD|].
  eapply post_delitem;
    [rewrite lookup_insert_ne by exact Hne; exact HO|].
  destruct (dict_mem (node_id r) O).
  - exists (dict_del (node_id r) O).
    split; [apply lookup_insert_eq|].
    split; [apply dict_del_keys, Hnd|].
    intros j v Hj. apply Hsub. eapply dict_get_del; eassumption.
  - exists O. split; [|split; assumption].
    rewrite lookup_insert_ne by exact Hne. exact HO.
Qed.

(** X20. The two tables [process_ties] returns are aligned: they
    have the same keys in the same order, and every onset returned is
    an onset of the caller's table, with the value it has there. *)
Theorem process_ties_tables_aligned nodes durations onsets (h0 h' : heap)
    os nd no :
  h0 !! onsets = Some os ->
  List.NoDup (dict_keys os) ->
  process_ties nodes durations onsets h0 = (Ok (nd, no), h') ->
  exists D O,
    h' !! nd = Some D /\ h' !! no = Some O /\
    dict_keys D = dict_keys O /\
    forall k v, dict_get k O = Some v -> dict_get k os = Some v.
Proof.
  intros Hos Hnd Hrun.
  assert (Hmain : post (process_ties nodes durations onsets) h0
            (fun r h' => forall nd no, r = Ok (nd, no) ->
               exists D O,
                 h' !! nd = Some D /\ h' !! no = Some O /\
                 dict_keys D = dict_keys O /\
                 forall k v, dict_get k O = Some v -> dict_get k os = Some v)).
  { unfold process_ties, deepcopy.
    apply post_bind, post_bind, post_contents. rewrite Hos.
    apply post_alloc.
    set (no0 := fresh (dom h0)). set (h1 := <[no0 := os]> h0).
    apply post_bind, post_bind, post_contents.
    destruct (h1 !! durations) as [D0|] eqn:ED; [|discriminate].
    apply post_alloc.
    set (nd0 := fresh (dom h1)). set (h2 := <[nd0 := D0]> h1).
    assert (Hne : nd0 <> no0).
    { intros E. pose proof (fresh_not_in h1) as F. fold nd0 in F.
      rewrite E in F. unfold h1 in F. rewrite lookup_insert_eq in F.
      discriminate. }
    apply post_bind, post_contents.
    destruct (h2 !! onsets) as [os'|]; [|discriminate].
    apply post_bind.
    eapply post_weaken.
    { apply (post_for_each (process_key (Graph.make nodes) nd0 no0)
               (fun _ h => onsets_shrink os no0 h)
               (fun _ _ => True)).
      - intros x rest s Hs. eapply post_weaken.
        + apply process_key_shrinks; [exact Hne|exact Hs].
        + intros [[]|e] s' H; [exact H|exact I].
      - exists os. split; [|split; [exact Hnd|auto]].
        unfold h2, h1. rewrite lookup_insert_ne by exact Hne.
        apply lookup_insert_eq. }
    intros [[]|e] h3 Hinv; [|discriminate].
    destruct Hinv as (O & HO & HndO & Hsub).
    apply post_bind, post_contents. rewrite HO.
    apply post_bind, post_contents.
    destruct (h3 !! nd0) as [fd|]; [|discriminate].
    apply post_bind, post_lift.
    destruct (restrict_to (dict_keys O) fd) as [rd|e] eqn:Er; [|discriminate].
    apply post_bind, post_alloc, post_ret.
    intros nd' no' [= <- <-].
    exists rd, O. split; [apply lookup_insert_eq|].
    split.
    { rewrite lookup_insert_ne; [exact HO|].
      intros E. pose proof (fresh_not_in h3) as F. rewrite E in F.
      congruence. }
    split; [|exact Hsub].
    apply (restrict_keys _ _ [] rd HndO Er). }
  unfold post in Hmain. rewrite Hrun in Hmain.
  apply (Hmain nd no eq_refl).
Qed.
Lemma restrict_total keys (d : dict Q) : forall acc,
  (forall k, In k keys -> is_Some (dict_get k d)) ->
  exists r, restrict keys d acc = Ok r.
Proof.
  induction keys as [|k t IH]; intros acc H; simpl; [eauto|].
  destruct (H k (or_introl eq_refl)) as [v ->].
  apply IH. intros j Hj. apply H. now right.
Qed.

Lemma restrict_missing keys (d : dict Q) : forall acc k,
  In k keys -> dict_get k d = None ->
  restrict keys d acc = Raise KeyError.
Proof.
  induction keys as [|j t IH]; intros acc k []; simpl.
  - subst j. intros ->. reflexivity.
  - intros Hk. destruct (dict_get j d); [|reflexivity].
    apply (IH _ k); assumption.
Qed.

Lemma restrict_values keys (d : dict Q) : forall acc r,
  restrict keys d acc = Ok r ->
  forall k, dict_get k r
            = if z_in k keys then dict_get k d else dict_get k acc.
Proof.
  induction keys as [|j t IH]; intros acc r; simpl.
  - intros [= <-] k. reflexivity.
  - destruct (dict_get j d) as [v|] eqn:Ej; [|discriminate].
    intros Hr k. rewrite (IH _ _ Hr k).
    destruct (Z.eqb_spec k j) as [->|Hne]; cbn [orb].
    + destruct (z_in j t); [reflexivity|].
      rewrite dict_get_set_eq. exact (eq_sym Ej).
    + destruct (z_in k t); [reflexivity|].
      apply dict_get_set_ne. congruence.
Qed.

Lemma bindS_ok {A B} (m : H A) (k : A -> H B) h a h' :
  m h = (Ok a, h') -> bindS m k h = k a h'.
Proof. intros E. unfold bindS. now rewrite E. Qed.

Lemma for_each_idle {A} (xs : list A) (body : A -> H unit) :
  (forall x h, In x xs -> body x h = (Ok tt, h)) ->
  forall h, for_each xs body h = (Ok tt, h).
Proof.
  induction xs as [|x t IH]; intros Hb h; [reflexivity|].
  cbn [for_each]. unfold bindS. rewrite (Hb x h (or_introl eq_refl)).
  apply IH. intros y h' Hy. apply Hb. now right.
Qed.

Lemma processing_order_keys os k :
  In k (processing_order os) -> In k (dict_keys os).
Proof.
  unfold processing_order, dict_keys. intros Hk.
  apply in_map_iff in Hk as (kv & <- & Hin). apply in_map.
  apply (Permutation_in _ (sorted_perm by_onset_desc os)), Hin.
Qed.

(** X21. Without ties, [process_ties] returns the onsets as they
    are and the durations of the notes that have an onset: for nodes
    none of which has a tie among its children, the new onset table
    equals the caller's, and the new duration table holds, under the
    keys of the onset table and in their order, the caller's
    durations; an onset key without a duration raises [KeyError]. *)
Theorem process_ties_without_ties nodes durations onsets (h0 : heap) os ds :
  h0 !! onsets = Some os ->
  h0 !! durations = Some ds ->
  List.NoDup (dict_keys os) ->
  (forall k, In k (dict_keys os) ->
     Graph.children (Graph.make nodes) k (Some [Const.TIE_CLASS_NAME])
     = Ok []) ->
  ((forall k, In k (dict_keys os) -> is_Some (dict_get k ds)) ->
   exists nd no h' rd,
     process_ties nodes durations onsets h0 = (Ok (nd, no), h') /\
     h' !! no = Some os /\ h' !! nd = Some rd /\
     dict_keys rd = dict_keys os /\
     forall k, In k (dict_keys os) -> dict_get k rd = dict_get k ds) /\
  ((exists k, In k (dict_keys os) /\ dict_get k ds = None) ->
   fst (process_ties nodes durations onsets h0) = Raise KeyError).
Proof.
  intros Hos Hds Hnd Hties.
  set (no := fresh (dom h0)). set (h1 := <[no := os]> h0).
  set (nd := fresh (dom h1)). set (h2 := <[nd := ds]> h1).
  assert (Hno : h0 !! no = None) by apply fresh_not_in.
  assert (Hnd1 : h1 !! nd = None) by apply fresh_not_in.
  assert (Hne : nd <> no).
  { intros E. rewrite E in Hnd1. unfold h1 in Hnd1.
    rewrite lookup_insert_eq in Hnd1. discriminate. }
  assert (Ho1 : h1 !! onsets = Some os).
  { unfold h1. rewrite lookup_insert_ne; [exact Hos|]. congruence. }
  assert (Hd1 : h1 !! durations = Some ds).
  { unfold h1. rewrite lookup_insert_ne; [exact Hds|]. congruence. }
  assert (Ho2 : h2 !! onsets = Some os).
  { unfold h2. rewrite lookup_insert_ne; [exact Ho1|]. congruence. }
  assert (Hno2 : h2 !! no = Some os).
  { unfold h2. rewrite lookup_insert_ne by exact Hne.
    apply lookup_insert_eq. }
  assert (Hnd2 : h2 !! nd = Some ds) by apply lookup_insert_eq.
  assert (Hloop : for_each (processing_order os)
                    (process_key (Graph.make nodes) nd no) h2 = (Ok tt, h2)).
  { apply for_each_idle. intros k h Hk. unfold process_key, bindS, lift.
    rewrite (Hties k (processing_order_keys os k Hk)). reflexivity. }
  assert (Hrun : process_ties nodes durations onsets h0 =
                 match restrict_to (dict_keys os) ds with
                 | Ok rd => (Ok (fresh (dom h2), no),
                             <[fresh (dom h2) := rd]> h2)
                 | Raise e => (Raise e, h2)
                 end).
  { unfold process_ties.
    rewrite (bindS_ok (deepcopy onsets) _ h0 no h1)
      by (unfold deepcopy, bindS, contents, alloc; rewrite Hos; reflexivity).
    rewrite (bindS_ok (deepcopy durations) _ h1 nd h2)
      by (unfold deepcopy, bindS, contents, alloc; rewrite Hd1; reflexivity).
    rewrite (bindS_ok (contents onsets) _ h2 os h2)
      by (unfold contents; rewrite Ho2; reflexivity).
    rewrite (bindS_ok _ _ h2 tt h2 Hloop).
    rewrite (bindS_ok (contents no) _ h2 os h2)
      by (unfold contents; rewrite Hno2; reflexivity).
    rewrite (bindS_ok (contents nd) _ h2 ds h2)
      by (unfold contents; rewrite Hnd2; reflexivity).
    unfold bindS, lift, alloc, ret.
    destruct (restrict_to (dict_keys os) ds); reflexivity. }
  split.
  - intros Hall.
    destruct (restrict_total (dict_keys os) ds [] Hall) as [rd Hr].
    fold (restrict_to (dict_keys os) ds) in Hr. rewrite Hr in Hrun.
    exists (fresh (dom h2)), no, (<[fresh (dom h2) := rd]> h2), rd.
    split; [exact Hrun|]. split.
    { rewrite lookup_insert_ne; [exact Hno2|].
      intros E. pose proof (fresh_not_in h2) as F. rewrite E in F.
      congruence. }
    split; [apply lookup_insert_eq|].
    split; [exact (restrict_keys _ _ [] rd Hnd Hr)|].
    intros k Hk. rewrite (restrict_values _ _ _ _ Hr k).
    apply z_in_In in Hk. now rewrite Hk.
  - intros (k & Hk & Hnone). rewrite Hrun.
    unfold restrict_to. rewrite (restrict_missing _ _ [] k Hk Hnone).
    reflexivity.
Qed.
End TieTables.

Lemma process_ties_tables_aligned_witness :
  exists nd no h' D O,
    Ties.process_ties TieExamples.tied_chain 0%nat 1%nat
      TieExamples.chain_tables = (Ok (nd, no), h') /\
    h' !! nd = Some D /\ h' !! no = Some O /\
    dict_keys D = [1] /\ dict_keys O = [1].
Proof.
  destruct (Ties.process_ties TieExamples.tied_chain 0%nat 1%nat
              TieExamples.chain_tables) as [[[nd no]|e] h'] eqn:E;
    [|vm_compute in E; discriminate].
  destruct (process_ties_tables_aligned
              TieExamples.tied_chain 0%nat 1%nat TieExamples.chain_tables h'
              [(1, 0%Q); (2, 1%Q); (3, 2%Q)] nd no)
    as (D & O & HD & HO & Hk & _).
  - reflexivity.
  - repeat constructor; simpl; intuition lia.
  - exact E.
  - exists nd, no, h', D, O. split; [reflexivity|].
    split; [exact HD|]. split; [exact HO|].
    vm_compute in E. injection E as <- <- <-.
    vm_compute in HO. injection HO as <-.
    split; [rewrite Hk|]; reflexivity.
Defined.

Lemma process_ties_without_ties_witness :
  exists nd no h',
    Ties.process_ties
      [Examples.placed 1 "noteheadFull" 0 0 10 10 [] [];
       Examples.placed 2 "noteheadFull" 0 20 10 30 [] []]
      0%nat 1%nat TieExamples.tables = (Ok (nd, no), h') /\
    h' !! no = Some [(1, 0%Q); (2, 1%Q)] /\
    h' !! nd = Some [(1, 1%Q); (2, 1%Q)].
Proof.
  destruct (proj1 (process_ties_without_ties
                     [Examples.placed 1 "noteheadFull" 0 0 10 10 [] [];
                      Examples.placed 2 "noteheadFull" 0 20 10 30 [] []]
                     0%nat 1%nat TieExamples.tables
                     [(1, 0%Q); (2, 1%Q)] [(1, 1%Q); (2, 1%Q)]
                     eq_refl eq_refl
                     ltac:(repeat constructor; simpl; intuition lia)
                     ltac:(intros k [<-|[<-|[]]]; reflexivity)))
    as (nd & no & h' & rd & Hrun & Hno & Hnd & _ & _).
  - intros k [<-|[<-|[]]]; eexists; reflexivity.
  - exists nd, no, h'. split; [exact Hrun|]. split; [exact Hno|].
    vm_compute in Hrun. injection Hrun as <- <- <-. reflexivity.
Defined.

Section TieMerges.
Import Ties TieSpec TieTables TieOutcome.
Local Open Scope Q_scope.

(** *** Dictionaries *)





(** *** The loop *)





(** *** The order of the keys *)






(** *** One key *)





(** *** The whole call *)




End TieMerges.

Section TieMergeClaim.
Import Ties TieSpec TieTables TieOutcome.
Local Open Scope Q_scope.

Variable nodes : list Node.
Variables durations onsets : loc.
Variable h0 : heap.
Variables os ds : dict Q.
Hypothesis Hos : h0 !! onsets = Some os.
Hypothesis Hds : h0 !! durations = Some ds.
Hypothesis Hnd : List.NoDup (dict_keys os).

Let g := Graph.make nodes.
Let no := fresh (dom h0).
Let nd := fresh (dom (<[no := os]> h0)).
Let h2 : heap := <[nd := ds]> (<[no := os]> h0).
Let body := process_key g nd no.






End TieMergeClaim.


Section WalkEnds.
Import Onsets WalkBlocked.
Local Open Scope Q_scope.

Lemma step_break_carried strategy s s' :
  step strategy s = Break s' ->
  exists q_id q o,
    nth_error (queue s) (qstart s) = Some q_id /\
    dict_get q_id (p_nodes s) = Some q /\
    onset q = Some o /\ 0 < o.
Proof.
  unfold step.
  destruct (nth_error (queue s) (qstart s)) as [q_id|]; [|discriminate].
  destruct (dict_get q_id (p_nodes s)) as [q|] eqn:Eq; [|discriminate].
  destruct (obj q) as [id|]; [|discriminate].
  destruct (negb _); [discriminate|].
  destruct (onset q) as [o|] eqn:Eo.
  - destruct (Qlt_le_dec 0 o) as [Hlt|_]; [|discriminate].
    intros _. exists q_id, q, o. cbn [set_queue p_nodes] in Eq. auto.
  - cbn [set_queue p_nodes queue qstart onsets].
    destruct (prec_onsets_of _ _) as [os|]; [|discriminate].
    destruct (has_None os); [discriminate|].
    destruct (prec_durations_of _ _) as [ds|]; [|discriminate].
    destruct (proposals os ds) as [|p0 ps]; [discriminate|].
    destruct (negb _); [|discriminate].
    destruct (permissive_desynchronization strategy); discriminate.
Qed.

(** X22. In a run of [onsets()] on fresh precedence nodes the loop
    is never left by a [break]: the only one that can be taken, on a
    node that carries a positive onset, is not, because the nodes
    that carry an onset when they are taken from the queue are the
    sources, and they carry 0. *)
Theorem walk_never_breaks strategy ps s s' :
  List.NoDup (dict_keys ps) ->
  (forall i n, dict_get i ps = Some n -> onset n = None) ->
  walk_reaches strategy (initial_state ps) s ->
  step strategy s <> Break s'.
Proof.
  intros Hnd Hfresh Hr Hb.
  destruct (step_break_carried strategy s s' Hb) as (q_id & q & o & Hq & Hg & Ho & Hlt).
  pose proof (reaches_settled strategy _ s (settled_initial ps Hnd Hfresh) Hr)
    as [_ Hs].
  assert (Hne : ~ o == 0).
  { intros E. rewrite E in Hlt. exact (Qlt_irrefl 0 Hlt). }
  destruct (Hs q_id q o Hg Ho Hne) as [_ Hnot].
  apply Hnot, waiting_head, Hq.
Qed.

Lemma walk_never_breaks_witness :
  exists s,
    step default_strategy (initial_state WalkExamples.monophonic_chain)
    = Continue s /\
    forall s', step default_strategy s <> Break s'.
Proof.
  eexists. split; [reflexivity|]. intros s'.
  apply (walk_never_breaks default_strategy WalkExamples.monophonic_chain).
  - repeat constructor; simpl; intuition lia.
  - intros i n. simpl.
    repeat (destruct (Z.eqb i _); [intros [= <-]; reflexivity|]).
    discriminate.
  - eapply walk_turn; [apply walk_start|reflexivity].
Defined.

Lemma enqueue_new_from posts : forall queue x,
  In x (enqueue_new posts queue) -> In x queue \/ In x posts.
Proof.
  induction posts as [|p t IH]; intros queue x; simpl; [auto|].
  intros H. apply IH in H. destruct H as [H|H]; [|auto].
  destruct (z_in p queue); [auto|].
  apply in_app_or in H as [H|[<-|[]]]; auto.
Qed.

Lemma all_have_obj_blocked ps B ids :
  (forall i, In i B -> blocked ps B i) ->
  (forall i, In i ids -> In i B) ->
  all_have_obj ps ids = true.
Proof.
  intros HB Hin. apply forallb_forall. intros i Hi.
  destruct (HB i (Hin i Hi)) as (q & id & os & -> & -> & _). reflexivity.
Qed.

(** One turn of the loop on a waiting node: the node is put at the
    end of the queue again and nothing else changes. *)
Lemma blocked_turn strategy B s :
  pending s <> [] ->
  (forall i, In i (pending s) -> In i B) ->
  (forall i, In i B -> blocked (p_nodes s) B i) ->
  exists s',
    (qstart s <? List.length (queue s))%nat = true /\
    step strategy s = Continue s' /\
    p_nodes s' = p_nodes s /\
    pending s' <> [] /\
    (forall i, In i (pending s') -> In i B).
Proof.
  intros Hne Hin HB. unfold pending in *.
  destruct (nth_error (queue s) (qstart s)) as [q_id|] eqn:Hq.
  2:{ apply List.nth_error_None in Hq.
      rewrite List.skipn_all2 in Hne by exact Hq. congruence. }
  assert (Hlen : (qstart s < List.length (queue s))%nat).
  { apply List.nth_error_Some. rewrite Hq. discriminate. }
  destruct (advance (queue s) (qstart s) q_id [] Hq) as (A1 & _ & _).
  assert (HqB : In q_id B) by (apply Hin; rewrite A1; now left).
  destruct (HB q_id HqB) as (q & id & os & Hg & Hobj & Hon & Hos & Hn & Hout).
  destruct (enqueue_new_appends (outlinks q) (queue s))
    as (extra & He & _ & Hdis).
  destruct (advance (queue s) (qstart s) q_id extra Hq) as (_ & A2 & _).
  assert (Hextra : forall i, In i (skipn (S (qstart s)) (queue s) ++ extra) ->
                             In i B).
  { intros i Hi. apply in_app_or in Hi as [Hi|Hi].
    - apply Hin. rewrite A1. now right.
    - assert (Hx : In i (enqueue_new (outlinks q) (queue s)))
        by (rewrite He; apply in_or_app; now right).
      apply enqueue_new_from in Hx as [Hx|Hx];
        [exfalso; exact (Hdis i Hi Hx)|apply Hout, Hx]. }
  eexists. split; [apply Nat.ltb_lt, Hlen|].
  unfold step. rewrite Hq, Hg, Hobj.
  cbn [set_queue p_nodes queue qstart onsets delayed_prec_nodes
       onset_beats warnings].
  rewrite He, A2.
  rewrite (all_have_obj_blocked (p_nodes s) B _ HB Hextra). cbn [negb].
  rewrite Hon, Hos, Hn.
  split; [reflexivity|]. cbn [p_nodes queue qstart].
  split; [reflexivity|].
  assert (A3 : skipn (S (qstart s)) ((queue s ++ extra) ++ [q_id])
               = (skipn (S (qstart s)) (queue s) ++ extra) ++ [q_id]).
  { rewrite List.skipn_app, A2.
    replace (S (qstart s) - List.length (queue s ++ extra))%nat with 0%nat
      by (rewrite length_app; lia).
    reflexivity. }
  rewrite A3. split.
  - intros E. apply app_eq_nil in E as [_ E]. discriminate.
  - intros i Hi. apply in_app_or in Hi as [Hi|[<-|[]]];
      [apply Hextra, Hi|exact HqB].
Qed.

Lemma blocked_walk strategy B fuel : forall s,
  pending s <> [] ->
  (forall i, In i (pending s) -> In i B) ->
  (forall i, In i B -> blocked (p_nodes s) B i) ->
  walk fuel strategy s = None.
Proof.
  induction fuel as [|fuel IH]; intros s Hne Hin HB; [reflexivity|].
  destruct (blocked_turn strategy B s Hne Hin HB)
    as (s' & Hlt & Hstep & Hps & Hne' & Hin').
  cbn [walk]. rewrite Hlt, Hstep.
  apply IH; [exact Hne'|exact Hin'|].
  rewrite Hps. exact HB.
Qed.

(** X23. [onsets()] does not end on precedence nodes that wait for
    each other: once the nodes waiting in the queue belong to a set of
    nodes without onset, each with a predecessor without onset, that
    is closed under successors, every turn of the loop puts the node
    it looks at back at the end of the queue, and the walk outlasts
    any number of turns. *)
Theorem blocked_walk_never_ends strategy B s s1 :
  step strategy s = Continue s1 ->
  (qstart s < List.length (queue s))%nat ->
  pending s1 <> [] ->
  (forall i, In i (pending s1) -> In i B) ->
  (forall i, In i B -> blocked (p_nodes s1) B i) ->
  forall fuel, walk fuel strategy s = None.
Proof.
  intros Hstep Hlt Hne Hin HB [|fuel]; [reflexivity|].
  cbn [walk]. apply Nat.ltb_lt in Hlt. rewrite Hlt, Hstep.
  apply (blocked_walk strategy B); assumption.
Qed.

End WalkEnds.

Lemma blocked_walk_never_ends_witness :
  exists s1,
    Onsets.step Onsets.default_strategy
      (Onsets.initial_state WalkBlocked.precedence_cycle) = Onsets.Continue s1 /\
    Onsets.pending s1 = [2] /\
    forall fuel,
      Onsets.onsets_from fuel Onsets.default_strategy
        WalkBlocked.precedence_cycle = None.
Proof.
  eexists. split; [reflexivity|]. split; [reflexivity|].
  intros fuel. unfold Onsets.onsets_from.
  rewrite (blocked_walk_never_ends Onsets.default_strategy [2; 3]
             (Onsets.initial_state WalkBlocked.precedence_cycle)
             (Onsets.mkWalk
                [(1, WalkExamples.pn 1 [] [2] (Some 0%Q) 1%Q);
                 (2, WalkExamples.pn 2 [1; 3] [3] None 1%Q);
                 (3, WalkExamples.pn 3 [2] [2] None 1%Q)]
                [1; 2] 1 [(1, 0%Q)] [] [] [])).
  - reflexivity.
  - reflexivity.
  - simpl. lia.
  - discriminate.
  - intros i [<-|[]]. now left.
  - intros i [<-|[<-|[]]].
    + exists (WalkExamples.pn 2 [1; 3] [3] None 1%Q), 2, [Some 0%Q; None].
      repeat split. intros x [<-|[]]. right. now left.
    + exists (WalkExamples.pn 3 [2] [2] None 1%Q), 3, [None].
      repeat split. intros x [<-|[]]. now left.
Defined.

Section ClosureOutcomes.
Import Graph GraphClimb.

(** X24. [descendants] never returns a descendant: it raises
    [TypeError] as soon as the start node has a child that passes the
    class filter, returns the empty list when it has none, and raises
    the [KeyError] of [children] for an id outside the graph. *)
Theorem descendants_outcome fuel g i class_filter :
  descendants (S (S fuel)) g i class_filter =
  Some (match children g i class_filter with
        | Ok [] => Ok []
        | Ok (_ :: _) => Raise TypeError
        | Raise e => Raise e
        end).
Proof.
  destruct (children g i class_filter) as [[|c cs]|e] eqn:Hc.
  - apply descendants_without_children, Hc.
  - apply (descendants_raises_with_child (S fuel) g i class_filter c cs Hc).
  - unfold descendants. cbn [closure_loop]. rewrite Hc. reflexivity.
Qed.

Lemma put_new_from ids : forall queue queue',
  put_new in_Queue_queue ids queue = Ok queue' ->
  forall x, In x queue' -> In x queue \/ In x ids.
Proof.
  induction ids as [|y t IH]; intros queue queue'; simpl.
  - intros [= <-]. auto.
  - intros H x Hx. destruct (IH _ _ H x Hx) as [Hq|Ht]; [|auto].
    destruct (z_in y queue); [auto|].
    apply in_app_or in Hq as [Hq|[<-|[]]]; auto.
Qed.

Lemma climbing_loop g class_filter i fuel : forall queue found ids,
  closure_loop fuel (fun c => parents g c class_filter) in_Queue_queue
               i queue found = Some (Ok ids) ->
  (forall j, In j queue -> j = i \/ climbs g class_filter i j) ->
  (forall j, In j found -> j <> i /\ climbs g class_filter i j) ->
  forall j, In j ids -> j <> i /\ climbs g class_filter i j.
Proof.
  induction fuel as [|fuel IH]; intros queue found ids; [discriminate|].
  cbn [closure_loop]. destruct queue as [|current rest].
  - intros [= <-] _ Hf. exact Hf.
  - destruct (parents g current class_filter) as [ns|e] eqn:Hp;
      [|discriminate].
    destruct (put_new in_Queue_queue (map node_id ns) rest)
      as [queue'|e] eqn:Hq; [|discriminate].
    intros Hrun Hqueue Hfound. apply (IH _ _ _ Hrun).
    + intros j Hj.
      destruct (put_new_from _ _ _ Hq j Hj) as [Hr|Hn];
        [exact (Hqueue j (or_intror Hr))|right].
      apply in_map_iff in Hn as (n & <- & Hn).
      destruct (Hqueue current (or_introl eq_refl)) as [->|Hc].
      * exact (climbs_parent g class_filter i n ns Hp Hn).
      * exact (climbs_further g class_filter i current n ns Hc Hp Hn).
    + intros j Hj. destruct (Z.eqb_spec current i) as [->|Hne].
      * apply Hfound, Hj.
      * apply in_app_or in Hj as [Hj|[<-|[]]]; [apply Hfound, Hj|].
        split; [exact Hne|].
        destruct (Hqueue current (or_introl eq_refl)); [congruence|assumption].
Qed.

Lemma lookup_all_nodes g : forall ids ns,
  lookup_all g ids = Ok ns ->
  Forall2 (fun j n => id_to_node_mapping g !! j = Some n) ids ns.
Proof.
  induction ids as [|j t IH]; intros ns; simpl.
  - intros [= <-]. constructor.
  - unfold getitem. destruct (id_to_node_mapping g !! j) as [n|] eqn:E;
      [|discriminate].
    cbn [bind]. destruct (lookup_all g t) as [ns'|]; [|discriminate].
    intros [= <-]. constructor; [exact E|]. apply IH. reflexivity.
Qed.

Lemma climbs_passes g class_filter i j :
  index_ok g -> climbs g class_filter i j ->
  exists n, id_to_node_mapping g !! j = Some n /\
            passes class_filter n = true.
Proof.
  intros Hidx Hc.
  assert (H : exists k n ps, parents g k class_filter = Ok ps /\ In n ps /\
                             j = node_id n).
  { destruct Hc as [n ps Hp Hn|j' n ps _ Hp Hn]; eauto 6. }
  destruct H as (k & n & ps & Hp & Hn & ->).
  unfold parents in Hp.
  destruct (id_to_node_mapping g !! k) as [child|]; [|discriminate].
  injection Hp as <-. apply In_collect in Hn as (a & _ & Ha & Hpass).
  exists n. rewrite (Hidx a n Ha). auto.
Qed.

(** X25. What [ancestors] returns, on a graph whose index is keyed
    by the ids of its nodes: nodes of the graph that pass the class
    filter, each reached from the start node by going from a node to
    a parent that passes the filter, and never the start node itself.
    With a class filter the search does not look behind a parent of
    another class. *)
Theorem ancestors_sound fuel g i class_filter ns :
  index_ok g ->
  ancestors fuel g i class_filter = Some (Ok ns) ->
  Forall (fun n => id_to_node_mapping g !! node_id n = Some n /\
                   passes class_filter n = true /\
                   node_id n <> i /\
                   climbs g class_filter i (node_id n)) ns.
Proof.
  intros Hidx. unfold ancestors.
  destruct (closure_loop fuel _ _ i [i] []) as [[ids|e]|] eqn:Hrun;
    try discriminate.
  cbn [bind]. intros [= Hl].
  pose proof (climbing_loop g class_filter i fuel [i] [] ids Hrun) as Hids.
  assert (Hall : forall j, In j ids -> j <> i /\ climbs g class_filter i j).
  { apply Hids; [intros j [<-|[]]; now left|intros j []]. }
  clear Hids Hrun. apply lookup_all_nodes in Hl.
  induction Hl as [|j n ids' ns' Hj _ IH]; [constructor|].
  constructor.
  - destruct (Hall j (or_introl eq_refl)) as [Hne Hc].
    destruct (climbs_passes g class_filter i j Hidx Hc) as (n' & Hn' & Hp).
    assert (n' = n) by congruence. subst n'.
    rewrite (Hidx j n Hj). auto.
  - apply IH. intros k Hk. apply Hall. now right.
Qed.

Lemma ancestors_sound_witness :
  exists ns,
    ancestors 5 Examples.uneven_diamond 5 (Some ["b"; "d"]) = Some (Ok ns) /\
    map node_id ns = [2; 4] /\
    Forall (fun n =>
              id_to_node_mapping Examples.uneven_diamond !! node_id n
              = Some n /\
              passes (Some ["b"; "d"]) n = true /\
              node_id n <> 5 /\
              climbs Examples.uneven_diamond (Some ["b"; "d"]) 5 (node_id n))
           ns.
Proof.
  eexists. split; [reflexivity|]. split; [reflexivity|].
  apply (ancestors_sound 5 Examples.uneven_diamond 5 (Some ["b"; "d"]));
    [apply index_ok_make|reflexivity].
Defined.

Lemma put_new_fresh ids : forall queue,
  List.NoDup (queue ++ ids) ->
  put_new in_Queue_queue ids queue = Ok (queue ++ ids).
Proof.
  induction ids as [|x t IH]; intros queue Hnd; simpl.
  - now rewrite app_nil_r.
  - assert (Hx : z_in x queue = false).
    { destruct (z_in x queue) eqn:E; [|reflexivity].
      apply z_in_In in E. apply List.NoDup_remove_2 in Hnd.
      exfalso. apply Hnd. apply in_or_app. now left. }
    rewrite Hx.
    replace (queue ++ x :: t) with ((queue ++ [x]) ++ t)
      by (rewrite <- app_assoc; reflexivity).
    apply IH. rewrite <- app_assoc. exact Hnd.
Qed.

Lemma closure_loop_turn fuel neighbours test start current rest found :
  closure_loop (S fuel) neighbours test start (current :: rest) found =
  match neighbours current with
  | Raise e => Some (Raise e)
  | Ok ns =>
      match put_new test (map node_id ns) rest with
      | Raise e => Some (Raise e)
      | Ok queue' =>
          closure_loop fuel neighbours test start queue'
            (if Z.eqb current start then found else found ++ [current])
      end
  end.
Proof. reflexivity. Qed.

Lemma top_level_loop g class_filter i extra : forall queue found,
  (forall j, In j queue ->
     j <> i /\ parents g j class_filter = Ok []) ->
  closure_loop (S (List.length queue + extra))
               (fun c => parents g c class_filter) in_Queue_queue
               i queue found
  = Some (Ok (found ++ queue)).
Proof.
  induction queue as [|j t IH]; intros found H.
  - cbn [List.length Nat.add closure_loop]. now rewrite app_nil_r.
  - destruct (H j (or_introl eq_refl)) as [Hne Hp].
    cbn [List.length Nat.add]. rewrite closure_loop_turn, Hp.
    cbn [map put_new].
    destruct (Z.eqb_spec j i); [congruence|].
    rewrite IH by (intros k Hk; apply H; now right).
    now rewrite <- app_assoc.
Qed.

Lemma lookup_all_collected g ps :
  index_ok g ->
  (forall p, In p ps -> exists a, id_to_node_mapping g !! a = Some p) ->
  lookup_all g (map node_id ps) = Ok ps.
Proof.
  intros Hidx. induction ps as [|p t IH]; intros H; [reflexivity|].
  cbn [map lookup_all]. unfold getitem.
  destruct (H p (or_introl eq_refl)) as (a & Ha).
  rewrite (Hidx a p Ha), Ha. cbn [bind].
  rewrite IH by (intros q Hq; apply H; now right). reflexivity.
Qed.

(** X26. When none of the parents of a node has a parent of its
    own (among those that pass the class filter), [ancestors] returns
    the list that [parents] returns, given the fuel for one turn of
    its loop per parent and two more. *)
Theorem ancestors_of_top_level_parents g i class_filter ps extra :
  index_ok g ->
  parents g i class_filter = Ok ps ->
  List.NoDup (map node_id ps) ->
  (forall p, In p ps -> parents g (node_id p) class_filter = Ok []) ->
  ancestors (List.length ps + 2 + extra) g i class_filter = Some (Ok ps).
Proof.
  intros Hidx Hp Hnd Htop. unfold ancestors.
  replace (List.length ps + 2 + extra)%nat
    with (S (S (List.length (map node_id ps) + extra)))
    by (rewrite length_map; lia).
  rewrite closure_loop_turn, Hp.
  rewrite (put_new_fresh (map node_id ps) [] Hnd). cbn [app].
  rewrite Z.eqb_refl.
  rewrite top_level_loop.
  - cbn [app bind]. f_equal. apply lookup_all_collected; [exact Hidx|].
    intros p Hin. unfold parents in Hp.
    destruct (id_to_node_mapping g !! i); [|discriminate].
    injection Hp as <-. apply In_collect in Hin as (a & _ & Ha & _). eauto.
  - intros j Hj. apply in_map_iff in Hj as (p & <- & Hin).
    split; [|apply Htop, Hin].
    intros E. pose proof (Htop p Hin) as Hq. rewrite E, Hp in Hq.
    injection Hq as ->. destruct Hin.
Qed.

Lemma ancestors_of_top_level_parents_witness :
  ancestors 4 Examples.uneven_diamond 2 None
  = Some (Ok [Examples.node 1 "a" [] [2; 3]]).
Proof.
  apply (ancestors_of_top_level_parents Examples.uneven_diamond 2 None
           [Examples.node 1 "a" [] [2; 3]] 1).
  - apply index_ok_make.
  - reflexivity.
  - repeat constructor. intros [].
  - intros p [<-|[]]. reflexivity.
Defined.
End ClosureOutcomes.

Section ChainOnsets.
Import Onsets WalkChain.
Local Open Scope Q_scope.

Lemma dict_get_app_skip {V} (P d : dict V) k :
  ~ In k (dict_keys P) -> dict_get k (P ++ d) = dict_get k d.
Proof.
  induction P as [|[j v] t IH]; [reflexivity|]. simpl. intros H.
  destruct (Z.eqb_spec k j) as [->|_]; [tauto|]. apply IH. tauto.
Qed.

Lemma dict_set_app_skip {V} (P d : dict V) k v :
  ~ In k (dict_keys P) -> dict_set k v (P ++ d) = P ++ dict_set k v d.
Proof.
  induction P as [|[j w] t IH]; [reflexivity|]. simpl. intros H.
  destruct (Z.eqb_spec k j) as [->|_]; [tauto|]. f_equal. apply IH. tauto.
Qed.

Lemma dict_set_append {V} (d : dict V) k v :
  ~ In k (dict_keys d) -> dict_set k v d = d ++ [(k, v)].
Proof.
  induction d as [|[j w] t IH]; [reflexivity|]. simpl. intros H.
  destruct (Z.eqb_spec k j) as [->|_]; [tauto|]. f_equal. apply IH. tauto.
Qed.

Lemma z_in_below x l : (forall y, In y l -> (y < x)%Z) -> z_in x l = false.
Proof.
  intros H. destruct (z_in x l) eqn:E; [|reflexivity].
  apply z_in_In in E. specialize (H x E). lia.
Qed.

Lemma skipn_all_but {A} (l : list A) (x : A) :
  skipn (S (List.length l)) (l ++ [x]) = [].
Proof. apply List.skipn_all2. rewrite length_app. simpl. lia. Qed.

Lemma skipn_past {A} (l : list A) (x y : A) :
  skipn (S (List.length l)) ((l ++ [x]) ++ [y]) = [y].
Proof.
  replace (S (List.length l)) with (List.length (l ++ [x]) + 0)%nat
    by (rewrite length_app; simpl; lia).
  rewrite List.skipn_app, List.skipn_all2 by lia.
  replace (List.length (l ++ [x]) + 0 - List.length (l ++ [x]))%nat
    with 0%nat by lia.
  reflexivity.
Qed.

Lemma nth_error_last {A} (l : list A) (x : A) :
  nth_error (l ++ [x]) (List.length l) = Some x.
Proof. rewrite List.nth_error_app2, Nat.sub_diag by lia. reflexivity. Qed.

Lemma walk_turn_eq fuel strategy s :
  walk (S fuel) strategy s =
  if (qstart s <? List.length (queue s))%nat then
    match step strategy s with
    | Continue s' => walk fuel strategy s'
    | Break s' => Some (Py.Ok s')
    | Raised e _ => Some (Py.Raise e)
    end
  else Some (Py.Ok s).
Proof. reflexivity. Qed.

(** One turn of the loop on a note [i] whose only predecessor [j]
    has its onset: the note gets the predecessor's onset plus the
    predecessor's duration. *)
Lemma chain_turn strategy i j d outs P pred rest Qz O B o :
  let cur := mkPNode (Some i) i [j] outs None d in
  let cur' := with_onset cur (Some (o + duration pred)) in
  onset pred = Some o -> j = (i - 1)%Z ->
  (forall x, In x (dict_keys P) -> (x < j)%Z) ->
  (forall x, In x Qz -> (x < i)%Z) ->
  (forall x, In x (dict_keys O) -> (x < i)%Z) ->
  (outs = [] \/
   outs = [(i + 1)%Z] /\
   exists nxt, dict_get (i + 1)%Z rest = Some nxt /\ obj nxt <> None) ->
  step strategy
       (mkWalk (P ++ (j, pred) :: (i, cur) :: rest)
               (Qz ++ [i]) (List.length Qz) O [] B [])
  = Continue
      (mkWalk ((P ++ [(j, pred)]) ++ (i, cur') :: rest)
              ((Qz ++ [i]) ++ outs) (S (List.length Qz))
              (O ++ [(i, o + duration pred)]) []
              (dict_set i (o + duration pred) B) []).
Proof.
  intros cur cur' Ho Hj HP Hq HO Houts.
  assert (HPj : ~ In j (dict_keys P)) by (intros H; specialize (HP j H); lia).
  assert (HPi : ~ In i (dict_keys P)) by (intros H; specialize (HP i H); lia).
  assert (Gi : dict_get i (P ++ (j, pred) :: (i, cur) :: rest) = Some cur).
  { rewrite dict_get_app_skip by exact HPi. cbn [dict_get].
    destruct (Z.eqb_spec i j); [lia|]. now rewrite Z.eqb_refl. }
  assert (Gj : dict_get j (P ++ (j, pred) :: (i, cur) :: rest) = Some pred).
  { rewrite dict_get_app_skip by exact HPj. cbn [dict_get].
    now rewrite Z.eqb_refl. }
  unfold step. cbn [queue qstart p_nodes]. rewrite nth_error_last, Gi.
  cbn [cur obj outlinks set_queue p_nodes queue qstart onsets
       delayed_prec_nodes onset_beats warnings onset inlinks].
  assert (Hall : all_have_obj (P ++ (j, pred) :: (i, cur) :: rest)
                   (skipn (S (List.length Qz))
                          (enqueue_new outs (Qz ++ [i]))) = true
                 /\ enqueue_new outs (Qz ++ [i]) = (Qz ++ [i]) ++ outs).
  { destruct Houts as [->|[-> (nxt & Hn & Hobj)]].
    - cbn [enqueue_new]. rewrite skipn_all_but, app_nil_r. now split.
    - cbn [enqueue_new].
      assert (Hz : z_in (i + 1)%Z (Qz ++ [i]) = false).
      { apply z_in_below. intros y Hy.
        apply in_app_or in Hy as [Hy|[<-|[]]];
          [specialize (Hq y Hy)|]; lia. }
      rewrite Hz, skipn_past. split; [|reflexivity].
      cbn [all_have_obj forallb]. rewrite dict_get_app_skip
        by (intros H; specialize (HP _ H); lia).
      cbn [dict_get].
      destruct (Z.eqb_spec (i + 1) j); [lia|].
      destruct (Z.eqb_spec (i + 1) i); [lia|].
      rewrite Hn. destruct (obj nxt); [reflexivity|congruence]. }
  destruct Hall as [Hall He]. rewrite Hall, He. cbn [negb].
  cbn [prec_onsets_of]. rewrite Gj. cbn [Py.bind]. rewrite Ho.
  cbn [has_None existsb orb prec_durations_of]. rewrite Gj.
  cbn [Py.bind proposals min_from max_from].
  assert (Hq0 : Qeq_bool (o + duration pred) (o + duration pred) = true)
    by (apply Qeq_bool_iff; reflexivity).
  rewrite Hq0. cbn [negb]. f_equal. f_equal.
  - rewrite dict_set_app_skip by exact HPi. cbn [dict_set].
    destruct (Z.eqb_spec i j); [lia|]. rewrite Z.eqb_refl.
    rewrite <- app_assoc. reflexivity.
  - apply dict_set_append. intros H. specialize (HO i H). lia.
Qed.

Lemma chain_from_head i d t :
  exists nxt,
    dict_get i (chain_from i false (d :: t)) = Some nxt /\ obj nxt <> None.
Proof.
  eexists. cbn [chain_from dict_get]. rewrite Z.eqb_refl.
  split; [reflexivity|discriminate].
Qed.

(** The loop from a note [i] whose predecessor has its onset: the
    notes from [i] on get the running sums. *)
Lemma walk_chain strategy extra : forall t i j d P pred Qz O B o,
  onset pred = Some o -> j = (i - 1)%Z ->
  (forall x, In x (dict_keys P) -> (x < j)%Z) ->
  (forall x, In x Qz -> (x < i)%Z) ->
  (forall x, In x (dict_keys O) -> (x < i)%Z) ->
  exists s',
    walk (S (S (List.length t + extra))) strategy
         (mkWalk (P ++ (j, pred)
                    :: (i, mkPNode (Some i) i [j]
                                   (match t with
                                    | [] => []
                                    | _ => [(i + 1)%Z]
                                    end) None d)
                    :: chain_from (i + 1) false t)
                 (Qz ++ [i]) (List.length Qz) O [] B [])
    = Some (Py.Ok s') /\
    onsets s' = O ++ running i (o + duration pred) (d :: t).
Proof.
  induction t as [|d' t IH]; intros i j d P pred Qz O B o Ho Hj HP Hq HO.
  - rewrite walk_turn_eq. cbn [queue qstart].
    assert (Hlt : (List.length Qz <? List.length (Qz ++ [i]))%nat = true).
    { apply Nat.ltb_lt. rewrite length_app. simpl. lia. }
    rewrite Hlt.
    rewrite (chain_turn strategy i j d [] P pred _ Qz O B o Ho Hj HP Hq HO)
      by (now left).
    cbn [List.length Nat.add]. rewrite walk_turn_eq. cbn [queue qstart].
    assert (Hge : (S (List.length Qz)
                   <? List.length ((Qz ++ [i]) ++ []))%nat = false).
    { apply Nat.ltb_ge. rewrite !length_app. simpl. lia. }
    rewrite Hge. eexists. split; [reflexivity|]. reflexivity.
  - rewrite walk_turn_eq. cbn [queue qstart].
    assert (Hlt : (List.length Qz <? List.length (Qz ++ [i]))%nat = true).
    { apply Nat.ltb_lt. rewrite length_app. simpl. lia. }
    rewrite Hlt.
    rewrite (chain_turn strategy i j d [(i + 1)%Z] P pred _ Qz O B o
               Ho Hj HP Hq HO)
      by (right; split; [reflexivity|apply chain_from_head]).
    cbn [chain_from List.length Nat.add].
    replace (i + 1 - 1)%Z with i by lia.
    replace (S (List.length Qz)) with (List.length (Qz ++ [i]))
      by (rewrite length_app; simpl; lia).
    destruct (IH (i + 1)%Z i d' (P ++ [(j, pred)])
                (with_onset (mkPNode (Some i) i [j] [(i + 1)%Z] None d)
                            (Some (o + duration pred)))
                (Qz ++ [i]) (O ++ [(i, o + duration pred)])
                (dict_set i (o + duration pred) B)
                (o + duration pred))
      as (s' & Hw & Hs').
    + reflexivity.
    + lia.
    + intros x Hx. unfold dict_keys in Hx. rewrite map_app in Hx.
      apply in_app_or in Hx as [Hx|[<-|[]]];
        [specialize (HP x Hx)|simpl]; lia.
    + intros x Hx. apply in_app_or in Hx as [Hx|[<-|[]]];
        [specialize (Hq x Hx)|]; lia.
    + intros x Hx. unfold dict_keys in Hx. rewrite map_app in Hx.
      apply in_app_or in Hx as [Hx|[<-|[]]];
        [specialize (HO x Hx)|simpl]; lia.
    + exists s'. split; [exact Hw|]. rewrite Hs'.
      rewrite <- app_assoc. reflexivity.
Qed.

Lemma chain_tail_sources i t :
  List.filter (fun kv : Z * PrecedenceGraphNode =>
                 match inlinks (snd kv) with [] => true | _ => false end)
              (chain_from i false t) = [].
Proof.
  revert i. induction t as [|d t IH]; intros i; [reflexivity|].
  cbn [chain_from List.filter snd inlinks]. apply IH.
Qed.

Lemma chain_tail_seed i t :
  (1 < i)%Z -> seed [1%Z] (chain_from i false t) = chain_from i false t.
Proof.
  revert i. induction t as [|d t IH]; intros i Hi; [reflexivity|].
  cbn [chain_from]. unfold seed in *. cbn [map fst z_in existsb].
  destruct (Z.eqb_spec i 1); [lia|]. cbn [orb]. f_equal.
  apply IH. lia.
Qed.

Lemma seed_cons pg k n t :
  seed pg ((k, n) :: t)
  = (if z_in k pg then (k, with_onset n (Some 0)) else (k, n)) :: seed pg t.
Proof. reflexivity. Qed.

Lemma chain_initial d t :
  initial_state (chain_from 1 true (d :: t))
  = mkWalk ((1%Z, mkPNode (Some 1%Z) 1 []
                          (match t with [] => [] | _ => [(1 + 1)%Z] end)
                          (Some 0) d)
              :: chain_from (1 + 1) false t)
           [1%Z] 0 [] [] [] [].
Proof.
  unfold initial_state, source_nodes.
  cbn [chain_from List.filter snd inlinks map fst].
  rewrite chain_tail_sources. cbn [map].
  rewrite seed_cons, chain_tail_seed by lia.
  unfold initial_queue. cbn [z_in existsb List.filter dict_get].
  rewrite Z.eqb_refl. reflexivity.
Qed.

(** The first turn of the loop: the source is recorded with the
    onset 0. *)
Lemma root_turn strategy d outs rest :
  (outs = [] \/
   outs = [(1 + 1)%Z] /\
   exists nxt, dict_get (1 + 1)%Z rest = Some nxt /\ obj nxt <> None) ->
  step strategy
       (mkWalk ((1%Z, mkPNode (Some 1%Z) 1 [] outs (Some 0) d) :: rest)
               [1%Z] 0 [] [] [] [])
  = Continue
      (mkWalk ((1%Z, mkPNode (Some 1%Z) 1 [] outs (Some 0) d) :: rest)
              ([1%Z] ++ outs) 1 [(1%Z, 0)] [] [] []).
Proof.
  intros Houts. unfold step, set_queue.
  cbn [queue qstart nth_error p_nodes dict_get]. rewrite Z.eqb_refl.
  cbn [obj outlinks p_nodes queue qstart onsets delayed_prec_nodes
       onset_beats warnings onset].
  destruct (Qlt_le_dec 0 0) as [Hlt|_];
    [exfalso; exact (Qlt_irrefl 0 Hlt)|].
  destruct Houts as [->|[-> (nxt & Hn & Hobj)]].
  - reflexivity.
  - cbn [enqueue_new z_in existsb].
    destruct (Z.eqb_spec (1 + 1) 1) as [|_]; [lia|].
    cbn [orb app skipn all_have_obj forallb dict_get].
    destruct (Z.eqb_spec (1 + 1) 1) as [|_]; [lia|].
    rewrite Hn. destruct (obj nxt); [reflexivity|congruence].
Qed.

(** X27. The onsets of notes that follow one another are the
    running sums of their durations: on the precedence nodes of a
    row of notes, each preceding the next, [onsets()] returns, given
    the fuel for one turn per note and one more, the table that
    gives the first note the onset 0 and every other note the onset
    of the note before it plus that note's duration. *)
Theorem chain_onsets_are_running_sums strategy ds extra :
  onsets_from (S (List.length ds + extra)) strategy (chain ds)
  = Some (Py.Ok (running 1 0 ds)).
Proof.
  unfold onsets_from, chain. destruct ds as [|d t]; [reflexivity|].
  rewrite chain_initial. cbn [List.length Nat.add]. rewrite walk_turn_eq.
  cbn [queue qstart List.length Nat.ltb Nat.leb].
  destruct t as [|d' t].
  - rewrite root_turn by (now left).
    cbn [List.length Nat.add]. rewrite walk_turn_eq. reflexivity.
  - rewrite root_turn
      by (right; split; [reflexivity|apply chain_from_head]).
    cbn [chain_from List.length Nat.add app].
    replace (1 + 1 - 1)%Z with 1%Z by lia.
    destruct (walk_chain strategy extra t (1 + 1)%Z 1%Z d' []
                (mkPNode (Some 1%Z) 1 [] [(1 + 1)%Z] (Some 0) d)
                [1%Z] [(1%Z, 0)] [] 0)
      as (s' & Hw & Hs').
    + reflexivity.
    + lia.
    + intros x [].
    + intros x [<-|[]]. lia.
    + intros x [<-|[]]. simpl. lia.
    + cbn [List.length Nat.add app] in Hw. rewrite Hw, Hs'. reflexivity.
Qed.
End ChainOnsets.

